(** * Trello shopping-list client (app.js): a shallow embedding

    The development follows [src/app.js], class [TrelloShoppingApp].
    - JavaScript strings are sequences of UTF-16 code units ([jsstring]).
    - The fields of the application object that the modelled methods read or
      write are the record [App]; a method is a function on a [World]
      (the application object, the requests sent to the Trello API so far and
      the toasts shown so far).  The Trello API is an oracle ([Remote]); a
      rejected promise is the outcome [Throws].
    - DOM updates are not modelled; a render method is the pure function
      computing what it would display.
    - A method runs to completion before the next one starts; two pending
      methods interleaving at their [await] points are outside the model. *)

From Stdlib Require Import List String Ascii NArith ZArith Bool Arith Lia.
From Stdlib Require Import Sorted Permutation.
Import ListNotations.

Set Implicit Arguments.

(* ================================================================== *)
(** * JavaScript strings *)
(* ================================================================== *)

(** A JavaScript string: its UTF-16 code units. *)
Definition jsstring := list N.

(** An ASCII literal as a JavaScript string. *)
Definition js (s : string) : jsstring :=
  map N_of_ascii (list_ascii_of_string s).

Definition jsstring_eqb (a b : jsstring) : bool :=
  if list_eq_dec N.eq_dec a b then true else false.

(** [WhiteSpace] and [LineTerminator] of ECMAScript: what [\s] matches and
    what [trim] removes. *)
Definition isWhiteSpace (c : N) : bool :=
  (((0x09 <=? c) && (c <=? 0x0D)) || (c =? 0x20) || (c =? 0xA0)
  || (c =? 0x1680) || ((0x2000 <=? c) && (c <=? 0x200A))
  || (c =? 0x2028) || (c =? 0x2029) || (c =? 0x202F) || (c =? 0x205F)
  || (c =? 0x3000) || (c =? 0xFEFF))%N.

Fixpoint trimStart (s : jsstring) : jsstring :=
  match s with
  | c :: s' => if isWhiteSpace c then trimStart s' else s
  | [] => []
  end.

Definition trimEnd (s : jsstring) : jsstring := rev (trimStart (rev s)).

(** [s.trim()] *)
Definition trim (s : jsstring) : jsstring := trimEnd (trimStart s).

(** [s.split(/\s+/)]: the pieces between maximal runs of white space; a
    string that starts or ends with white space gives an empty first or last
    piece, and the empty string gives one empty piece. *)
Fixpoint split_ws (s : jsstring) : list jsstring :=
  match s with
  | [] => [[]]
  | c :: s' =>
      if isWhiteSpace c then
        match s' with
        | c' :: _ => if isWhiteSpace c' then split_ws s' else [] :: split_ws s'
        | [] => [] :: split_ws s'
        end
      else
        match split_ws s' with
        | w :: ws => (c :: w) :: ws
        | [] => [[c]]
        end
  end.

(** [w.startsWith(q)] *)
Fixpoint startsWith (w q : jsstring) {struct q} : bool :=
  match q, w with
  | [], _ => true
  | c :: q', d :: w' => (c =? d)%N && startsWith w' q'
  | _ :: _, [] => false
  end.

(** [s.replace(/[\u0300-\u036f]/g, '')]: the code units U+0300 to U+036F are
    removed. *)
Definition isCombiningMark (c : N) : bool :=
  ((0x0300 <=? c) && (c <=? 0x036F))%N.

Definition stripCombiningMarks (s : jsstring) : jsstring :=
  filter (fun c => negb (isCombiningMark c)) s.

(** The two built-in string methods that consult the Unicode character
    database.  The host provides them; the embedding takes them as an
    interface. *)
Class Unicode := {
  normalizeNFD : jsstring -> jsstring;   (* s.normalize('NFD') *)
  toLowerCase : jsstring -> jsstring;    (* s.toLowerCase() *)
  normalizeNFD_empty : normalizeNFD [] = [];
  toLowerCase_empty : toLowerCase [] = []
}.

(** ** The Latin-1 fragment of the Unicode tables

    Canonical decompositions and lower-case mappings of Basic Latin and the
    Latin-1 Supplement (U+0000 to U+00FF); every other code unit is left as
    it is. *)
Module Latin1.

  (** Canonical decomposition of the capital letters U+00C0 to U+00DD. *)
Definition decomposeUpper (c : N) : option (N * N) :=
    match c with
    | 0xC0 => Some (0x41, 0x300) | 0xC1 => Some (0x41, 0x301)
    | 0xC2 => Some (0x41, 0x302) | 0xC3 => Some (0x41, 0x303)
    | 0xC4 => Some (0x41, 0x308) | 0xC5 => Some (0x41, 0x30A)
    | 0xC7 => Some (0x43, 0x327)
    | 0xC8 => Some (0x45, 0x300) | 0xC9 => Some (0x45, 0x301)
    | 0xCA => Some (0x45, 0x302) | 0xCB => Some (0x45, 0x308)
    | 0xCC => Some (0x49, 0x300) | 0xCD => Some (0x49, 0x301)
    | 0xCE => Some (0x49, 0x302) | 0xCF => Some (0x49, 0x308)
    | 0xD1 => Some (0x4E, 0x303)
    | 0xD2 => Some (0x4F, 0x300) | 0xD3 => Some (0x4F, 0x301)
    | 0xD4 => Some (0x4F, 0x302) | 0xD5 => Some (0x4F, 0x303)
    | 0xD6 => Some (0x4F, 0x308)
    | 0xD9 => Some (0x55, 0x300) | 0xDA => Some (0x55, 0x301)
    | 0xDB => Some (0x55, 0x302) | 0xDC => Some (0x55, 0x308)
    | 0xDD => Some (0x59, 0x301)
    | _ => None
    end%N.

  (** The small letters U+00E0 to U+00FD decompose like their capitals, with
      the small base letter; U+00FF is y with diaeresis. *)
Definition decompose (c : N) : list N :=
    if (c =? 0xFF)%N then [0x79; 0x308]%N
    else if (0xE0 <=? c)%N && (c <=? 0xFD)%N then
      match decomposeUpper (c - 0x20) with
      | Some (b, m) => [b + 0x20; m]%N
      | None => [c]
      end
    else
      match decomposeUpper c with
      | Some (b, m) => [b; m]
      | None => [c]
      end.

Definition nfd (s : jsstring) : jsstring := flat_map decompose s.

Definition lowerUnit (c : N) : N :=
    if ((0x41 <=? c) && (c <=? 0x5A))%N then (c + 0x20)%N
    else if ((0xC0 <=? c) && (c <=? 0xDE) && negb (c =? 0xD7))%N
         then (c + 0x20)%N
    else c.

Definition lower (s : jsstring) : jsstring := map lowerUnit s.

Definition tables : Unicode :=
    {| normalizeNFD := nfd; toLowerCase := lower;
       normalizeNFD_empty := eq_refl; toLowerCase_empty := eq_refl |}.

End Latin1.

Section Search.
Context {U : Unicode}.

  (** [normalizeString(str)], app.js 160-162 *)
Definition normalizeString (str : jsstring) : jsstring :=
    toLowerCase (stripCombiningMarks (normalizeNFD str)).

  (** The search filter of [renderStoreDetail], app.js 789-799: whether a
      card named [name] stays in the available list under the search text
      [searchQuery].  An empty search text is falsy: no filter is applied. *)
Definition matchesSearch (searchQuery name : jsstring) : bool :=
    match searchQuery with
    | [] => true
    | _ :: _ =>
        let query := normalizeString (trim searchQuery) in
        let name := normalizeString name in
        let words := split_ws name in
        existsb (fun word => startsWith word query) words
    end.

End Search.

(* ================================================================== *)
(** * JavaScript arrays *)
(* ================================================================== *)

Section JSArray.
Variable A : Type.

  (** [l.findIndex(p)]: the index of the first element satisfying [p], or
      [-1]. *)
Fixpoint findIndex (p : A -> bool) (l : list A) : Z :=
    match l with
    | [] => (-1)%Z
    | x :: l' =>
        if p x then 0%Z
        else let i := findIndex p l' in
             if (i =? -1)%Z then (-1)%Z else (i + 1)%Z
    end.

  (** [l.slice(0, n)] is [firstn n l]; [l.some(p)] is [existsb p l];
      [l.find(p)] is [find p l]; [l.filter(p)] is [filter p l]. *)

  (** [[...l].sort(cmp)].  ECMAScript requires the sort to be stable and,
      for a consistent comparator, to order the elements by it; the stably
      sorted arrangement is unique, and insertion from the right computes
      it. *)
Fixpoint sort_insert (cmp : A -> A -> Z) (x : A) (l : list A) : list A :=
    match l with
    | [] => [x]
    | y :: l' => if (cmp x y <=? 0)%Z then x :: l else y :: sort_insert cmp x l'
    end.

Definition sort (cmp : A -> A -> Z) (l : list A) : list A :=
    fold_right (sort_insert cmp) [] l.

  (** The assignment [o.f = v] on the object [l.find(p)]: the first element
      satisfying [p] is updated in place. *)
Fixpoint updateFirst (p : A -> bool) (f : A -> A) (l : list A) : list A :=
    match l with
    | [] => []
    | x :: l' => if p x then f x :: l' else x :: updateFirst p f l'
    end.

End JSArray.

(* ================================================================== *)
(** * Data model *)
(* ================================================================== *)

Record Board := { board_id : string; board_name : jsstring }.

Record TList := { list_id : string; list_name : jsstring }.

Record Label := {
  label_id : string;
  label_name : jsstring;
  label_color : string
}.

Record Card := {
  card_id : string;
  card_name : jsstring;
  card_desc : jsstring;
  card_idList : string;
  card_idLabels : list string
}.

Record StoreDef := {
  store_name : jsstring;
  store_color : string;
  store_icon : jsstring
}.

Record LocationDef := { location_name : jsstring; location_color : string }.

(** [this.config] (seeded from [CONFIG_SEED]). *)
Record Config := {
  listNames_allProducts : jsstring;
  listNames_activeList : jsstring;
  stores : list StoreDef;
  locations : list LocationDef
}.

(** An entry of [this.recentProducts]: [{ cardId, timestamp }]. *)
Record RecentItem := { cardId : string; timestamp : N }.

(** [this.currentView]: ['stores'], ['detail'] or ['shopping']. *)
Inductive View := ViewStores | ViewDetail | ViewShopping.

(** The fields of [TrelloShoppingApp] (constructor, app.js 50-90). *)
Record App := {
  selectedBoardId : string;
  board : option Board;
  lists : list TList;
  allProductsList : option TList;
  activeList : option TList;
  cards : list Card;
  labels : list Label;
  config : Config;
  currentView : View;
  currentStore : option Label;
  selectedStore : option Label;
  searchQuery : jsstring;
  recentProducts : list RecentItem
}.

Definition set_card_idList (v : string) (c : Card) : Card :=
  {| card_id := card_id c; card_name := card_name c; card_desc := card_desc c;
     card_idList := v; card_idLabels := card_idLabels c |}.

Definition set_board (v : option Board) (a : App) : App :=
  {| selectedBoardId := selectedBoardId a; board := v; lists := lists a;
     allProductsList := allProductsList a; activeList := activeList a;
     cards := cards a; labels := labels a; config := config a;
     currentView := currentView a; currentStore := currentStore a;
     selectedStore := selectedStore a; searchQuery := searchQuery a;
     recentProducts := recentProducts a |}.

Definition set_lists (v : list TList) (a : App) : App :=
  {| selectedBoardId := selectedBoardId a; board := board a; lists := v;
     allProductsList := allProductsList a; activeList := activeList a;
     cards := cards a; labels := labels a; config := config a;
     currentView := currentView a; currentStore := currentStore a;
     selectedStore := selectedStore a; searchQuery := searchQuery a;
     recentProducts := recentProducts a |}.

Definition set_allProductsList (v : option TList) (a : App) : App :=
  {| selectedBoardId := selectedBoardId a; board := board a; lists := lists a;
     allProductsList := v; activeList := activeList a;
     cards := cards a; labels := labels a; config := config a;
     currentView := currentView a; currentStore := currentStore a;
     selectedStore := selectedStore a; searchQuery := searchQuery a;
     recentProducts := recentProducts a |}.

Definition set_activeList (v : option TList) (a : App) : App :=
  {| selectedBoardId := selectedBoardId a; board := board a; lists := lists a;
     allProductsList := allProductsList a; activeList := v;
     cards := cards a; labels := labels a; config := config a;
     currentView := currentView a; currentStore := currentStore a;
     selectedStore := selectedStore a; searchQuery := searchQuery a;
     recentProducts := recentProducts a |}.

Definition set_cards (v : list Card) (a : App) : App :=
  {| selectedBoardId := selectedBoardId a; board := board a; lists := lists a;
     allProductsList := allProductsList a; activeList := activeList a;
     cards := v; labels := labels a; config := config a;
     currentView := currentView a; currentStore := currentStore a;
     selectedStore := selectedStore a; searchQuery := searchQuery a;
     recentProducts := recentProducts a |}.

Definition set_labels (v : list Label) (a : App) : App :=
  {| selectedBoardId := selectedBoardId a; board := board a; lists := lists a;
     allProductsList := allProductsList a; activeList := activeList a;
     cards := cards a; labels := v; config := config a;
     currentView := currentView a; currentStore := currentStore a;
     selectedStore := selectedStore a; searchQuery := searchQuery a;
     recentProducts := recentProducts a |}.

Definition set_currentView (v : View) (a : App) : App :=
  {| selectedBoardId := selectedBoardId a; board := board a; lists := lists a;
     allProductsList := allProductsList a; activeList := activeList a;
     cards := cards a; labels := labels a; config := config a;
     currentView := v; currentStore := currentStore a;
     selectedStore := selectedStore a; searchQuery := searchQuery a;
     recentProducts := recentProducts a |}.

Definition set_currentStore (v : option Label) (a : App) : App :=
  {| selectedBoardId := selectedBoardId a; board := board a; lists := lists a;
     allProductsList := allProductsList a; activeList := activeList a;
     cards := cards a; labels := labels a; config := config a;
     currentView := currentView a; currentStore := v;
     selectedStore := selectedStore a; searchQuery := searchQuery a;
     recentProducts := recentProducts a |}.

Definition set_selectedStore (v : option Label) (a : App) : App :=
  {| selectedBoardId := selectedBoardId a; board := board a; lists := lists a;
     allProductsList := allProductsList a; activeList := activeList a;
     cards := cards a; labels := labels a; config := config a;
     currentView := currentView a; currentStore := currentStore a;
     selectedStore := v; searchQuery := searchQuery a;
     recentProducts := recentProducts a |}.

Definition set_searchQuery (v : jsstring) (a : App) : App :=
  {| selectedBoardId := selectedBoardId a; board := board a; lists := lists a;
     allProductsList := allProductsList a; activeList := activeList a;
     cards := cards a; labels := labels a; config := config a;
     currentView := currentView a; currentStore := currentStore a;
     selectedStore := selectedStore a; searchQuery := v;
     recentProducts := recentProducts a |}.

Definition set_recentProducts (v : list RecentItem) (a : App) : App :=
  {| selectedBoardId := selectedBoardId a; board := board a; lists := lists a;
     allProductsList := allProductsList a; activeList := activeList a;
     cards := cards a; labels := labels a; config := config a;
     currentView := currentView a; currentStore := currentStore a;
     selectedStore := selectedStore a; searchQuery := searchQuery a;
     recentProducts := v |}.

(* ================================================================== *)
(** * The world: the application object, the Trello API, the toasts *)
(* ================================================================== *)

(** The calls to [trelloFetch] made by the modelled methods. *)
Inductive Request :=
| ReqGetBoard (boardId : string)
| ReqGetLists (boardId : string)
| ReqGetCards (boardId : string)
| ReqGetLabels (boardId : string)
| ReqCreateList (boardId : string) (name : jsstring) (pos : N)
| ReqCreateLabel (boardId : string) (name : jsstring) (color : string)
| ReqCreateCard (idList : string) (name : jsstring) (idLabels : list string)
                (desc : jsstring)
| ReqMoveCard (cardId : string) (listId : string)
| ReqDeleteCard (cardId : string).

(** The Trello API: what it answers to a request, given the requests it has
    received before.  [None] (or [false]) is a failed call: [trelloFetch]
    throws. *)
Record Remote := {
  reply_getBoard : list Request -> string -> option Board;
  reply_getLists : list Request -> string -> option (list TList);
  reply_getCards : list Request -> string -> option (list Card);
  reply_getLabels : list Request -> string -> option (list Label);
  reply_createList : list Request -> string -> jsstring -> N -> option TList;
  reply_createLabel :
    list Request -> string -> jsstring -> string -> option Label;
  reply_createCard :
    list Request -> string -> jsstring -> list string -> jsstring ->
    option Card;
  reply_moveCard : list Request -> string -> string -> bool;
  reply_deleteCard : list Request -> string -> bool
}.

(** The messages of [showToast], with the values they interpolate. *)
Inductive Toast :=
| ToastLoadError                       (* 'Error cargando tablero: ...' *)
| ToastError                           (* 'Error: ...' *)
| ToastToggled (name : jsstring) (removed : bool)
                                       (* '... quitado de / anadido a la lista' *)
| ToastDeleting                        (* 'Borrando productos...' *)
| ToastDeleted (deleted failed : nat)  (* 'N productos eliminados | M fallaron' *)
| ToastImporting                       (* 'Importando productos...' *)
| ToastImported (imported skipped labelsCreated : nat)
| ToastImportError.                    (* 'Error importando: ...' *)

Record World := {
  app : App;
  sent : list Request;
  toasts : list Toast
}.

Inductive Error := NetworkError | TypeError | InvalidFile.

Inductive Outcome (A : Type) :=
| Returns (a : A)
| Throws (e : Error).
Arguments Throws {A} e.

(** An [async] method: it runs on the world and either returns or throws;
    what it did to the world before throwing stays done. *)
Definition M (A : Type) := World -> Outcome A * World.

Definition ret {A} (a : A) : M A := fun w => (Returns a, w).

Definition bind {A B} (m : M A) (k : A -> M B) : M B :=
  fun w => match m w with
           | (Returns a, w') => k a w'
           | (Throws e, w') => (Throws e, w')
           end.

Definition throw {A} (e : Error) : M A := fun w => (Throws e, w).

(** [try { m } catch (error) { h }] *)
Definition tryCatch {A} (m : M A) (h : Error -> M A) : M A :=
  fun w => match m w with
           | (Returns a, w') => (Returns a, w')
           | (Throws e, w') => h e w'
           end.

Declare Scope js_scope.
Delimit Scope js_scope with js.
Notation "x <- m ;; k" := (bind m (fun x => k))
  (at level 61, m at next level, right associativity) : js_scope.
Notation "m ;; k" := (bind m (fun _ => k))
  (at level 61, right associativity) : js_scope.
Open Scope js_scope.

Definition this : M App := fun w => (Returns (app w), w).

Definition assign (f : App -> App) : M unit :=
  fun w => (Returns tt,
            {| app := f (app w); sent := sent w; toasts := toasts w |}).

Definition showToast (t : Toast) : M unit :=
  fun w => (Returns tt,
            {| app := app w; sent := sent w; toasts := toasts w ++ [t] |}).

(** [trelloFetch], app.js 351-387: the request goes out and the answer is the
    remote's; any failure (no response, a status that is not ok) is rethrown.
    The logout and page reload on a 401 are outside the model. *)
Definition trelloFetch {A} (r : Request) (answer : list Request -> option A)
  : M A :=
  fun w =>
    let w' := {| app := app w; sent := sent w ++ [r]; toasts := toasts w |} in
    match answer (sent w) with
    | Some a => (Returns a, w')
    | None => (Throws NetworkError, w')
    end.

Definition ok (b : bool) : option unit := if b then Some tt else None.

Section API.
Variable net : Remote.

Definition createList (boardId : string) (name : jsstring) (pos : N)
    : M TList :=
    trelloFetch (ReqCreateList boardId name pos)
                (fun h => reply_createList net h boardId name pos).

Definition createLabel (boardId : string) (name : jsstring) (color : string)
    : M Label :=
    trelloFetch (ReqCreateLabel boardId name color)
                (fun h => reply_createLabel net h boardId name color).

Definition createCard (listId : string) (name : jsstring)
             (labelIds : list string) (desc : jsstring) : M Card :=
    trelloFetch (ReqCreateCard listId name labelIds desc)
                (fun h => reply_createCard net h listId name labelIds desc).

Definition moveCard (cardId listId : string) : M unit :=
    trelloFetch (ReqMoveCard cardId listId)
                (fun h => ok (reply_moveCard net h cardId listId)).

(** [trelloFetch(`/cards/${id}`, { method: 'DELETE' })] *)
Definition deleteCard (cardId : string) : M unit :=
    trelloFetch (ReqDeleteCard cardId)
                (fun h => ok (reply_deleteCard net h cardId)).

  (** [Promise.all([a, b, c, d])] of four fetches: the four requests go out,
      then the results are awaited; one rejection rejects the whole. *)
Definition fetchBoardData (boardId : string)
    : M (Board * list TList * list Card * list Label) :=
    fun w =>
      let h := sent w in
      let w' := {| app := app w;
                   sent := h ++ [ReqGetBoard boardId; ReqGetLists boardId;
                                 ReqGetCards boardId; ReqGetLabels boardId];
                   toasts := toasts w |} in
      match reply_getBoard net h boardId,
            reply_getLists net (h ++ [ReqGetBoard boardId]) boardId,
            reply_getCards net
              (h ++ [ReqGetBoard boardId; ReqGetLists boardId]) boardId,
            reply_getLabels net
              (h ++ [ReqGetBoard boardId; ReqGetLists boardId;
                     ReqGetCards boardId]) boardId with
      | Some b, Some ls, Some cs, Some lbs => (Returns (b, ls, cs, lbs), w')
      | _, _, _, _ => (Throws NetworkError, w')
      end.

End API.

(* ================================================================== *)
(** * The methods of [TrelloShoppingApp] *)
(* ================================================================== *)

(** ** Recent products (app.js 111-120) *)

(** The log after [addToRecentProducts(cardId)], with [now] the value of
    [Date.now()]. *)
Definition pushRecent (id : string) (now : N) (log : list RecentItem)
  : list RecentItem :=
  let log := filter (fun item => negb (String.eqb (cardId item) id)) log in
  let log := {| cardId := id; timestamp := now |} :: log in
  firstn 10 log.

Definition addToRecentProducts (id : string) (now : N) : M unit :=
  a <- this ;;
  assign (set_recentProducts (pushRecent id now (recentProducts a))).

(** ** Configuration *)

Definition getStoreNames (a : App) : list jsstring :=
  map store_name (stores (config a)).

(** [names.includes(n)] *)
Definition includes_name (names : list jsstring) (n : jsstring) : bool :=
  existsb (jsstring_eqb n) names.

(** [ids.includes(id)], [colors.includes(c)] *)
Definition includes (l : list string) (x : string) : bool :=
  existsb (String.eqb x) l.

(** ** Views (app.js 675-701, 703-772, 1489-1498) *)

(** What [renderStoreCards] displays. *)
Inductive StoresView :=
| StoresLoading
| StoresEmpty
| StoresGrid (tiles : list (Label * nat * nat)).  (* label, active, total *)

Definition activeCount (a : App) (al : TList) (labelId : string) : nat :=
  List.length (filter (fun c => String.eqb (card_idList c) (list_id al)
                           && includes (card_idLabels c) labelId) (cards a)).

Definition totalCount (a : App) (labelId : string) : nat :=
  List.length (filter (fun c => includes (card_idLabels c) labelId) (cards a)).

Definition renderStoreCards (a : App) : StoresView :=
  match activeList a with
  | None => StoresLoading
  | Some al =>
      let storeNames := getStoreNames a in
      let storeLabels :=
        filter (fun l => includes_name storeNames (label_name l)) (labels a) in
      match storeLabels with
      | [] => StoresEmpty
      | _ :: _ =>
          let sortedStoreLabels :=
            sort (fun x y => Z.of_nat (activeCount a al (label_id y))
                             - Z.of_nat (activeCount a al (label_id x)))%Z
                 storeLabels in
          StoresGrid (map (fun l => (l, activeCount a al (label_id l),
                                     totalCount a (label_id l)))
                          sortedStoreLabels)
      end
  end.

(** The comparator of the available products (app.js 832-846). *)
Definition compareRecent (recent : list RecentItem) (x y : Card) : Z :=
  let aIndex := findIndex (fun item => String.eqb (cardId item) (card_id x))
                          recent in
  let bIndex := findIndex (fun item => String.eqb (cardId item) (card_id y))
                          recent in
  if negb (aIndex =? -1)%Z && negb (bIndex =? -1)%Z then (aIndex - bIndex)%Z
  else if negb (aIndex =? -1)%Z then (-1)%Z
  else if negb (bIndex =? -1)%Z then 1%Z
  else 0%Z.

(** What [renderStoreDetail] displays. *)
Inductive DetailView :=
| DetailLoading
| DetailEmpty (searching : bool)
| DetailProducts (activeCards : list Card) (searchValue : jsstring)
                 (sortedAvailableCards : list Card).

Section Rendering.
Context {U : Unicode}.

  (** [availableCards] of [renderStoreDetail], after the search filter. *)
Definition availableCards (a : App) (ap : TList) (storeLabel : Label)
    : list Card :=
    let allStoreCards :=
      filter (fun c => includes (card_idLabels c) (label_id storeLabel))
             (cards a) in
    let availableCards :=
      filter (fun c => String.eqb (card_idList c) (list_id ap))
             allStoreCards in
    filter (fun c => matchesSearch (searchQuery a) (card_name c))
           availableCards.

Definition sortedAvailableCards (a : App) (ap : TList) (storeLabel : Label)
    : list Card :=
    sort (compareRecent (recentProducts a)) (availableCards a ap storeLabel).

  (** [renderStoreDetail(storeLabel)], app.js 774-860 *)
Definition renderStoreDetail (a : App) (storeLabel : Label) : DetailView :=
    match activeList a, allProductsList a with
    | Some al, Some ap =>
        let allStoreCards :=
          filter (fun c => includes (card_idLabels c) (label_id storeLabel))
                 (cards a) in
        let activeCards :=
          filter (fun c => String.eqb (card_idList c) (list_id al))
                 allStoreCards in
        let available := availableCards a ap storeLabel in
        match activeCards, available with
        | [], [] =>
            DetailEmpty (match searchQuery a with [] => false | _ => true end)
        | _, _ =>
            DetailProducts activeCards (searchQuery a)
                           (sortedAvailableCards a ap storeLabel)
        end
    | _, _ => DetailLoading
    end.

  (** [showStoreDetail(storeLabel)], app.js 688-701 *)
Definition showStoreDetail (storeLabel : Label) (a : App)
    : App * DetailView :=
    let a := set_currentView ViewDetail a in
    let a := set_currentStore (Some storeLabel) a in
    let a := set_searchQuery [] a in
    (a, renderStoreDetail a storeLabel).

End Rendering.

(** [showStoreCards()], app.js 675-686 *)
Definition showStoreCards (a : App) : App * StoresView :=
  let a := set_currentView ViewStores a in
  let a := set_searchQuery [] a in
  (a, renderStoreCards a).

(** What [renderShoppingMode] displays: the store selector when no store is
    selected; otherwise the shopping list of the selected store (its grouping
    by location, collated by [localeCompare], is left out). *)
Inductive ShoppingView :=
| ShoppingSelectStore (storeLabels : list Label)
| ShoppingBrowse (store : Label) (activeStoreProducts : list Card).

Definition renderShoppingMode (a : App) : ShoppingView :=
  match selectedStore a with
  | None =>
      ShoppingSelectStore
        (filter (fun l => includes_name (getStoreNames a) (label_name l))
                (labels a))
  | Some store =>
      let storeProducts :=
        filter (fun c => includes (card_idLabels c) (label_id store))
               (cards a) in
      ShoppingBrowse store
        (filter (fun c => match activeList a with
                          | Some al => String.eqb (card_idList c) (list_id al)
                          | None => false
                          end) storeProducts)
  end.

(** [showShoppingMode()], app.js 1489-1498 *)
Definition showShoppingMode (a : App) : App * ShoppingView :=
  let a := set_currentView ViewShopping a in
  let a := set_selectedStore None a in
  (a, renderShoppingMode a).

(** [for (const x of l) { body }] *)
Fixpoint forEach {A} (l : list A) (body : A -> M unit) : M unit :=
  match l with
  | [] => ret tt
  | x :: l' => body x ;; forEach l' body
  end.

Definition findCard (id : string) (cs : list Card) : option Card :=
  find (fun c => String.eqb (card_id c) id) cs.

(** [card.idList = v] for the card object found by [findCard]. *)
Definition setCardList (id v : string) : M unit :=
  assign (fun a =>
    set_cards (updateFirst (fun c => String.eqb (card_id c) id)
                           (set_card_idList v) (cards a)) a).

(** The documents accepted by [importProducts] (app.js 2197-2211): a label
    reference is a bare name or an object [{name, color}]. *)
Inductive LabelRef :=
| RefName (name : jsstring)
| RefObject (name : jsstring) (color : option string).

Record ImportProduct := {
  product_name : jsstring;
  product_desc : jsstring;                (* [product.desc || ''] *)
  product_stores : list LabelRef;         (* [product.stores || []] *)
  product_locations : list LabelRef;      (* [product.locations || []] *)
  product_inList : bool
}.

Record ImportDoc := {
  doc_version : option N;
  doc_products : option (list ImportProduct)
}.

Definition ref_name (r : LabelRef) : jsstring :=
  match r with RefName n => n | RefObject n _ => n end.

(** [(typeof r === 'object' ? r.color : dflt) || dflt] *)
Definition ref_color (dflt : string) (r : LabelRef) : string :=
  match r with
  | RefName _ => dflt
  | RefObject _ None => dflt
  | RefObject _ (Some c) => if String.eqb c EmptyString then dflt else c
  end.

(** [renderStoreDetail(this.currentStore)] as a statement.  With a current
    store it only draws.  Without one, [storeLabel.id] is read for the first
    cached card once both lists are resolved, and that throws. *)
Definition rerenderStoreDetail : M unit :=
  a <- this ;;
  match currentStore a, activeList a, allProductsList a, cards a with
  | None, Some _, Some _, _ :: _ => throw TypeError
  | _, _, _, _ => ret tt
  end.

(** Whether that redraw throws in the state [a]. *)
Definition detailRedrawThrows (a : App) : bool :=
  match currentStore a, activeList a, allProductsList a, cards a with
  | None, Some _, Some _, _ :: _ => true
  | _, _, _, _ => false
  end.

Section Methods.
Context {U : Unicode}.
Variable net : Remote.

  (** ** Board bootstrap (app.js 590-653) *)

Definition locationColors : list string :=
    ["green"; "blue"; "purple"; "sky"; "lime"; "pink"]%string.

Definition storeColors : list string :=
    ["orange"; "red"; "yellow"; "black"]%string.

Definition pushLabel (label : Label) : M unit :=
    assign (fun a => set_labels (labels a ++ [label]) a).

Definition setupBoardStructure : M unit :=
    a <- this ;;
    match allProductsList a with
    | Some _ => ret tt
    | None =>
        l <- createList net (selectedBoardId a)
                        (listNames_allProducts (config a)) 1 ;;
        assign (set_allProductsList (Some l)) ;;
        assign (fun a => set_lists (lists a ++ [l]) a)
    end ;;
    a <- this ;;
    match activeList a with
    | Some _ => ret tt
    | None =>
        l <- createList net (selectedBoardId a)
                        (listNames_activeList (config a)) 2 ;;
        assign (set_activeList (Some l)) ;;
        assign (fun a => set_lists (lists a ++ [l]) a)
    end ;;
    a <- this ;;
    let locationLabels :=
      filter (fun l => includes locationColors (label_color l)) (labels a) in
    match locationLabels with
    | _ :: _ => ret tt
    | [] =>
        forEach (locations (config a)) (fun loc =>
          label <- createLabel net (selectedBoardId a)
                               (location_name loc) (location_color loc) ;;
          pushLabel label)
    end ;;
    a <- this ;;
    let storeLabels :=
      filter (fun l => includes storeColors (label_color l)) (labels a) in
    match storeLabels with
    | _ :: _ => ret tt
    | [] =>
        forEach (stores (config a)) (fun store =>
          label <- createLabel net (selectedBoardId a)
                               (store_name store) (store_color store) ;;
          pushLabel label)
    end.

Definition loadBoard : M unit :=
    tryCatch
      (a <- this ;;
       data <- fetchBoardData net (selectedBoardId a) ;;
       let '(b, ls, cs, lbs) := data in
       assign (set_board (Some b)) ;;
       assign (set_lists ls) ;;
       assign (set_cards cs) ;;
       assign (set_labels lbs) ;;
       assign (set_allProductsList
                 (find (fun l => jsstring_eqb (list_name l)
                                   (listNames_allProducts (config a))) ls)) ;;
       assign (set_activeList
                 (find (fun l => jsstring_eqb (list_name l)
                                   (listNames_activeList (config a))) ls)) ;;
       a <- this ;;
       match allProductsList a, activeList a with
       | Some _, Some _ => ret tt
       | _, _ => setupBoardStructure
       end ;;
       assign (fun a => fst (showStoreCards a)))
      (fun _ => showToast ToastLoadError).

  (** ** Toggling a product (app.js 1435-1468, 1654-1702) *)

Definition toggleProduct (id : string) (now : N) : M unit :=
    a <- this ;;
    match findCard id (cards a) with
    | None => ret tt
    | Some card =>
        match activeList a with
        | None => throw TypeError
        | Some al =>
            targetListId <-
              (if String.eqb (card_idList card) (list_id al)
               then match allProductsList a with
                    | Some ap => ret (list_id ap)
                    | None => throw TypeError
                    end
               else ret (list_id al)) ;;
            let previousListId := card_idList card in
            let wasActive := String.eqb previousListId (list_id al) in
            setCardList id targetListId ;;
            (if wasActive then addToRecentProducts id now else ret tt) ;;
            tryCatch (moveCard net id targetListId)
                     (fun _ => setCardList id previousListId ;;
                               showToast ToastError)
        end
    end.

Definition toggleCardActive (id : string) (now : N) : M unit :=
    a <- this ;;
    match findCard id (cards a) with
    | None => ret tt
    | Some card =>
        let isCurrentlyActive :=
          match activeList a with
          | Some al => String.eqb (card_idList card) (list_id al)
          | None => false
          end in
        let targetList :=
          if isCurrentlyActive then allProductsList a else activeList a in
        let previousListId := card_idList card in
        match targetList with
        | None => throw TypeError
        | Some targetList =>
            setCardList id (list_id targetList) ;;
            moved <- tryCatch
                       (moveCard net id (list_id targetList) ;; ret true)
                       (fun _ => setCardList id previousListId ;;
                                 showToast ToastError ;;
                                 ret false) ;;
            if moved then
              (if isCurrentlyActive then addToRecentProducts id now
               else ret tt) ;;
              showToast (ToastToggled (card_name card) isCurrentlyActive)
            else ret tt
        end
    end.

  (** ** Delete all products (app.js 1846-1889) *)

Fixpoint deleteLoop (cs : list Card) (deleted failed : nat)
    : M (nat * nat) :=
    match cs with
    | [] => ret (deleted, failed)
    | card :: cs' =>
        done <- tryCatch (deleteCard net (card_id card) ;; ret true)
                         (fun _ => ret false) ;;
        if done then deleteLoop cs' (S deleted) failed
        else deleteLoop cs' deleted (S failed)
    end.

Definition deleteAllProducts : M unit :=
    tryCatch
      (showToast ToastDeleting ;;
       a <- this ;;
       counts <- deleteLoop (cards a) 0 0 ;;
       assign (set_cards []) ;;
       showToast (ToastDeleted (fst counts) (snd counts)))
      (fun _ => showToast ToastError).

  (** ** Import (app.js 2273-2378) *)

  (** The loop over [product.stores] (default colour ['orange']) and the one
      over [product.locations] (default colour ['green']). *)
Fixpoint resolveLabels (dflt : string) (refs : list LabelRef)
           (labelIds : list string) (labelsCreated : nat)
    : M (list string * nat) :=
    match refs with
    | [] => ret (labelIds, labelsCreated)
    | r :: refs' =>
        a <- this ;;
        match find (fun l => jsstring_eqb (label_name l) (ref_name r))
                   (labels a) with
        | Some label =>
            resolveLabels dflt refs' (labelIds ++ [label_id label])
                          labelsCreated
        | None =>
            created <- tryCatch
                         (label <- createLabel net (selectedBoardId a)
                                     (ref_name r) (ref_color dflt r) ;;
                          pushLabel label ;;
                          ret (Some label))
                         (fun _ => ret None) ;;
            match created with
            | Some label =>
                resolveLabels dflt refs' (labelIds ++ [label_id label])
                              (S labelsCreated)
            | None => resolveLabels dflt refs' labelIds labelsCreated
            end
        end
    end.

  (** [this.cards.some(c => c.name.toLowerCase() === name.toLowerCase())] *)
Definition productExists (a : App) (name : jsstring) : bool :=
    existsb (fun c => jsstring_eqb (toLowerCase (card_name c))
                                   (toLowerCase name)) (cards a).

Fixpoint importLoop (products : list ImportProduct)
           (imported skipped labelsCreated : nat) : M (nat * nat * nat) :=
    match products with
    | [] => ret (imported, skipped, labelsCreated)
    | product :: rest =>
        a <- this ;;
        if productExists a (product_name product) then
          importLoop rest imported (S skipped) labelsCreated
        else
          r <- resolveLabels "orange" (product_stores product) []
                             labelsCreated ;;
          r <- resolveLabels "green" (product_locations product)
                             (fst r) (snd r) ;;
          a <- this ;;
          let targetList :=
            if product_inList product then activeList a
            else allProductsList a in
          match targetList with
          | None => throw TypeError
          | Some targetList =>
              card <- createCard net (list_id targetList)
                                 (product_name product) (fst r)
                                 (product_desc product) ;;
              assign (fun a => set_cards (cards a ++ [card]) a) ;;
              importLoop rest (S imported) skipped (snd r)
          end
    end.

  (** The products of a well-formed document: [version] and [products] are
      present and truthy. *)
Definition validProducts (file : option ImportDoc)
    : option (list ImportProduct) :=
    match file with
    | None => None                              (* [JSON.parse] throws *)
    | Some doc =>
        match doc_version doc with
        | None | Some 0%N => None
        | Some _ => doc_products doc
        end
    end.

Definition importProducts (file : option ImportDoc) : M unit :=
    tryCatch
      (match validProducts file with
       | None => throw InvalidFile
       | Some products =>
           showToast ToastImporting ;;
           counts <- importLoop products 0 0 0 ;;
           let '(imported, skipped, labelsCreated) := counts in
           showToast (ToastImported imported skipped labelsCreated) ;;
           a <- this ;;
           match currentView a with
           | ViewStores => ret tt                (* [renderStoreCards] *)
           | ViewDetail => rerenderStoreDetail   (* app.js 2370 *)
           | ViewShopping => ret tt              (* no redraw *)
           end
       end)
      (fun _ => showToast ToastImportError).

End Methods.

(* ================================================================== *)
(** * Concrete worlds *)
(* ================================================================== *)

(** [CONFIG_SEED], app.js 18-47.  Icons are written as their UTF-16 code
    units. *)
Definition CONFIG_SEED : Config :=
  {| listNames_allProducts := js "Todos los Productos";
     listNames_activeList := js "Lista Activa";
     stores :=
       [ {| store_name := js "Mercadona"; store_color := "orange";
            store_icon := [0xD83D; 0xDED2]%N |};
         {| store_name := js "Fruteria"; store_color := "lime";
            store_icon := [0xD83C; 0xDF4E]%N |};
         {| store_name := js "Farmacia"; store_color := "red";
            store_icon := [0xD83D; 0xDC8A]%N |};
         {| store_name := js "Carniceria"; store_color := "pink";
            store_icon := [0xD83E; 0xDD69]%N |};
         {| store_name := js "Pescader" ++ [0xED]%N ++ js "a";
            store_color := "sky"; store_icon := [0xD83D; 0xDC1F]%N |};
         {| store_name := js "Caprabo"; store_color := "yellow";
            store_icon := [0xD83D; 0xDECD; 0xFE0F]%N |} ];
     locations :=
       [ {| location_name := js "Mueble Caf" ++ [0xE9]%N;
            location_color := "green" |};
         {| location_name := js "Mueble Especias"; location_color := "green" |};
         {| location_name := js "Despensa Cajones"; location_color := "green" |};
         {| location_name := js "Debajo Pica"; location_color := "green" |};
         {| location_name := js "Armario Lavadora"; location_color := "green" |};
         {| location_name := js "Cajonera Cafetera"; location_color := "green" |};
         {| location_name := js "Congeladores"; location_color := "sky" |};
         {| location_name := js "Nevera"; location_color := "sky" |};
         {| location_name := js "Despensa Nuclear"; location_color := "blue" |};
         {| location_name := js "Lavabo"; location_color := "purple" |} ] |}.

(** The application object as the constructor leaves it on a first launch
    with board [boardId] selected. *)
Definition initialApp (boardId : string) : App :=
  {| selectedBoardId := boardId; board := None; lists := [];
     allProductsList := None; activeList := None; cards := []; labels := [];
     config := CONFIG_SEED; currentView := ViewStores; currentStore := None;
     selectedStore := None; searchQuery := []; recentProducts := [] |}.

Definition world (a : App) : World := {| app := a; sent := []; toasts := [] |}.

(** A remote that rejects every call. *)
Definition offline : Remote :=
  {| reply_getBoard := fun _ _ => None;
     reply_getLists := fun _ _ => None;
     reply_getCards := fun _ _ => None;
     reply_getLabels := fun _ _ => None;
     reply_createList := fun _ _ _ _ => None;
     reply_createLabel := fun _ _ _ _ => None;
     reply_createCard := fun _ _ _ _ _ => None;
     reply_moveCard := fun _ _ _ => false;
     reply_deleteCard := fun _ _ => false |}.

(** The identifiers handed out by the example remote [online]: ["n"],
    ["in"], ["iin"], ... *)
Fixpoint freshId (n : nat) : string :=
  match n with
  | O => "n"
  | S n' => String "i" (freshId n')
  end.

(** A remote holding the board [b] with the given lists, cards and labels;
    it accepts every call and answers a creation with the created entity
    under an identifier derived from the number of requests so far. *)
Definition online (b : Board) (ls : list TList) (cs : list Card)
           (lbs : list Label) : Remote :=
  {| reply_getBoard := fun _ _ => Some b;
     reply_getLists := fun _ _ => Some ls;
     reply_getCards := fun _ _ => Some cs;
     reply_getLabels := fun _ _ => Some lbs;
     reply_createList := fun h _ name _ =>
       Some {| list_id := freshId (List.length h); list_name := name |};
     reply_createLabel := fun h _ name color =>
       Some {| label_id := freshId (List.length h); label_name := name;
               label_color := color |};
     reply_createCard := fun h idList name idLabels desc =>
       Some {| card_id := freshId (List.length h); card_name := name;
               card_desc := desc; card_idList := idList;
               card_idLabels := idLabels |};
     reply_moveCard := fun _ _ _ => true;
     reply_deleteCard := fun _ _ => true |}.

Definition catalogList : TList :=
  {| list_id := "L1"; list_name := js "Todos los Productos" |}.
Definition shoppingList : TList :=
  {| list_id := "L2"; list_name := js "Lista Activa" |}.
Definition mercadona : Label :=
  {| label_id := "S1"; label_name := js "Mercadona"; label_color := "orange" |}.
Definition nevera : Label :=
  {| label_id := "P1"; label_name := js "Nevera"; label_color := "sky" |}.

Definition leche (idList : string) : Card :=
  {| card_id := "c1"; card_name := js "Leche Entera"; card_desc := [];
     card_idList := idList; card_idLabels := ["S1"; "P1"]%string |}.
Definition pan (idList : string) : Card :=
  {| card_id := "c2"; card_name := js "Pan"; card_desc := [];
     card_idList := idList; card_idLabels := ["S1"]%string |}.

(** The application object on a configured board, in the detail of the
    store "Mercadona", with the cards [cs] cached and the log [recent]. *)
Definition shopApp (cs : list Card) (recent : list RecentItem) : App :=
  {| selectedBoardId := "b"; board := None;
     lists := [catalogList; shoppingList];
     allProductsList := Some catalogList; activeList := Some shoppingList;
     cards := cs; labels := [mercadona; nevera];
     config := CONFIG_SEED; currentView := ViewDetail;
     currentStore := Some mercadona;
     selectedStore := None; searchQuery := []; recentProducts := recent |}.

(* ================================================================== *)
(** * Specification-side notions *)
(* ================================================================== *)

(** A run of [addToRecentProducts] calls, each with its card and its clock
    reading. *)
Definition addAllToRecentProducts (calls : list (string * N)) (w : World)
  : World :=
  fold_left (fun w c => snd (addToRecentProducts (fst c) (snd c) w)) calls w.

(** The cards whose deletion the remote rejects during
    [deleteAllProducts], [h] being the requests sent before. *)
Fixpoint rejectedDeletes (net : Remote) (h : list Request) (cs : list Card)
  : list Card :=
  match cs with
  | [] => []
  | c :: cs' =>
      let rest := rejectedDeletes net (h ++ [ReqDeleteCard (card_id c)]) cs' in
      if reply_deleteCard net h (card_id c) then rest else c :: rest
  end.

(** A full log: ten entries, ["r0"] the most recent. *)
Definition fullLog : list RecentItem :=
  map (fun n => {| cardId := String "r" (freshId n); timestamp := N.of_nat n |})
      (seq 0 10).

(** Requests that create a label, or a list. *)
Definition isCreateLabel (r : Request) : bool :=
  match r with ReqCreateLabel _ _ _ => true | _ => false end.

Definition isCreateList (r : Request) : bool :=
  match r with ReqCreateList _ _ _ => true | _ => false end.

(** The creation requests the bootstrap makes for a group of the
    configuration when it creates the whole group. *)
Definition listRequests (a : App) : list Request :=
  (match allProductsList a with
   | Some _ => []
   | None => [ReqCreateList (selectedBoardId a)
                            (listNames_allProducts (config a)) 1]
   end)
  ++ (match activeList a with
      | Some _ => []
      | None => [ReqCreateList (selectedBoardId a)
                               (listNames_activeList (config a)) 2]
      end).

Definition locationRequests (a : App) : list Request :=
  map (fun loc => ReqCreateLabel (selectedBoardId a) (location_name loc)
                                 (location_color loc))
      (locations (config a)).

Definition storeRequests (a : App) : list Request :=
  map (fun store => ReqCreateLabel (selectedBoardId a) (store_name store)
                                   (store_color store))
      (stores (config a)).

(** Whether some label has one of the given colours. *)
Definition hasColor (colors : list string) (lbs : list Label) : bool :=
  existsb (fun l => includes colors (label_color l)) lbs.

(** A store label in the sense of the views: its name is a configured
    store's. *)
Definition isStoreLabel (a : App) (l : Label) : bool :=
  includes_name (getStoreNames a) (label_name l).

(** The four reads of [loadBoard]. *)
Definition boardReads (boardId : string) : list Request :=
  [ReqGetBoard boardId; ReqGetLists boardId; ReqGetCards boardId;
   ReqGetLabels boardId].

(** A board on which the catalog list exists, the active list does not, and
    the only label is the store label "Fruteria" in its seed colour. *)
Definition fruteria : Label :=
  {| label_id := "S2"; label_name := js "Fruteria"; label_color := "lime" |}.

Definition halfConfigured : Remote :=
  online {| board_id := "b"; board_name := js "Compras" |}
         [catalogList] [] [fruteria].

(** The four steps of [setupBoardStructure], named for the proofs
    ([setupBoardStructure_steps] shows the method is their sequence). *)
Section Steps.
Variable net : Remote.

Definition ensureAllProductsList : M unit :=
    a <- this ;;
    match allProductsList a with
    | Some _ => ret tt
    | None =>
        l <- createList net (selectedBoardId a)
                        (listNames_allProducts (config a)) 1 ;;
        assign (set_allProductsList (Some l)) ;;
        assign (fun a => set_lists (lists a ++ [l]) a)
    end.

Definition ensureActiveList : M unit :=
    a <- this ;;
    match activeList a with
    | Some _ => ret tt
    | None =>
        l <- createList net (selectedBoardId a)
                        (listNames_activeList (config a)) 2 ;;
        assign (set_activeList (Some l)) ;;
        assign (fun a => set_lists (lists a ++ [l]) a)
    end.

Definition ensureLocationLabels : M unit :=
    a <- this ;;
    match filter (fun l => includes locationColors (label_color l))
                 (labels a) with
    | _ :: _ => ret tt
    | [] =>
        forEach (locations (config a)) (fun loc =>
          label <- createLabel net (selectedBoardId a)
                               (location_name loc) (location_color loc) ;;
          pushLabel label)
    end.

Definition ensureStoreLabels : M unit :=
    a <- this ;;
    match filter (fun l => includes storeColors (label_color l))
                 (labels a) with
    | _ :: _ => ret tt
    | [] =>
        forEach (stores (config a)) (fun store =>
          label <- createLabel net (selectedBoardId a)
                               (store_name store) (store_color store) ;;
          pushLabel label)
    end.

End Steps.

(** Whether a card has an entry in the recent-products log. *)
Definition inRecentLog (log : list RecentItem) (c : Card) : bool :=
  existsb (fun item => String.eqb (cardId item) (card_id c)) log.

(** The ordering of the available products as the specification words it,
    without the comparator of the code.  [logPosition log id] is the place of
    the product's entry in the log, the most recent entry having place 0;
    it is [None] for a product the log does not hold. *)
Fixpoint logPosition (log : list RecentItem) (id : string) : option nat :=
  match log with
  | [] => None
  | entry :: older =>
      if String.eqb (cardId entry) id then Some 0
      else match logPosition older id with
           | Some place => Some (S place)
           | None => None
           end
  end.

(** One product is at least as recent as another: both are in the log and
    the first has the earlier place. *)
Definition atLeastAsRecent (log : list RecentItem) (x y : Card) : Prop :=
  exists i j,
    logPosition log (card_id x) = Some i
    /\ logPosition log (card_id y) = Some j
    /\ i <= j.

(** "Products present in the recent-products log sort before all others,
    ordered by recency (most recent first); products absent from the log
    retain their original relative order": [sorted] is such an arrangement
    of [original]. *)
Definition orderedByRecency (log : list RecentItem)
           (original sorted : list Card) : Prop :=
  Permutation sorted original
  /\ sorted = filter (inRecentLog log) sorted
              ++ filter (fun c => negb (inRecentLog log c)) sorted
  /\ StronglySorted (atLeastAsRecent log) (filter (inRecentLog log) sorted)
  /\ filter (fun c => negb (inRecentLog log c)) sorted
     = filter (fun c => negb (inRecentLog log c)) original.

(** [q] is a prefix of [w]. *)
Definition isPrefixOf (q w : jsstring) : Prop := exists r, w = q ++ r.

Definition noWhiteSpace (w : jsstring) : Prop :=
  Forall (fun c => isWhiteSpace c = false) w.

Definition endsWithWhiteSpace (s : jsstring) : Prop :=
  exists p c, s = p ++ [c] /\ isWhiteSpace c = true.

Definition startsWithWhiteSpace (s : jsstring) : Prop :=
  exists c p, s = c :: p /\ isWhiteSpace c = true.

(** [w] is a white-space-delimited word of [s]: a stretch of [s] without
    white space that white space (or an end of [s]) bounds on both sides. *)
Definition WordOf (w s : jsstring) : Prop :=
  exists pre post,
    s = pre ++ w ++ post
    /\ noWhiteSpace w
    /\ (pre = [] \/ endsWithWhiteSpace pre)
    /\ (post = [] \/ startsWithWhiteSpace post).

(** The match of C6 read literally: the normalized query is a prefix of a
    word of the normalized name. *)
Definition matchesAsStated {U : Unicode} (query name : jsstring) : Prop :=
  exists w, WordOf w (normalizeString name)
            /\ isPrefixOf (normalizeString query) w.

(* ================================================================== *)
(** * Further methods *)
(* ================================================================== *)

(** ** Refresh (app.js 1470-1487) *)

Section Refresh.
Context {U : Unicode}.
Variable net : Remote.

(** [refresh()]: the view is read first; the [then] callbacks run when
    [loadBoard] has completed. *)
Definition refresh : M unit :=
  a <- this ;;
  match currentView a with
  | ViewStores => loadBoard net
  | ViewDetail =>
      loadBoard net ;;
      a <- this ;;
      match currentStore a with
      | None => ret tt
      | Some store =>
          match find (fun l => String.eqb (label_id l) (label_id store))
                     (labels a) with
          | Some storeLabel =>
              assign (fun a => fst (showStoreDetail storeLabel a))
          | None => ret tt
          end
      end
  | ViewShopping =>
      loadBoard net ;;
      assign (fun a => fst (showShoppingMode a))
  end.

End Refresh.

(** ** Recent products of a store (app.js 926-941) *)

(** The loop of [getRecentStoreProducts]: [recentStoreCards] is the array
    built so far; the loop breaks once it holds five cards. *)
Fixpoint recentStoreLoop (storeId : string) (availableCards : list Card)
         (items : list RecentItem) (recentStoreCards : list Card)
  : list Card :=
  match items with
  | [] => recentStoreCards
  | item :: rest =>
      let recentStoreCards :=
        match find (fun c => String.eqb (card_id c) (cardId item)
                             && includes (card_idLabels c) storeId)
                   availableCards with
        | Some card => recentStoreCards ++ [card]
        | None => recentStoreCards
        end in
      if 5 <=? List.length recentStoreCards then recentStoreCards
      else recentStoreLoop storeId availableCards rest recentStoreCards
  end.

Definition getRecentStoreProducts (a : App) (storeId : string)
           (availableCards : list Card) : list Card :=
  recentStoreLoop storeId availableCards (recentProducts a) [].

(** ** Export (app.js 2212-2271) *)

(** An attachment of a card and its previews, as the board read returns
    them.  A missing string field is the empty string (both are falsy). *)
Record Preview := { preview_width : N; preview_url : jsstring }.

Record Attachment := {
  att_url : jsstring;
  att_mimeType : jsstring;
  att_previews : list Preview
}.

Record ExportProduct := {
  export_name : jsstring;
  export_desc : jsstring;
  export_stores : list (jsstring * string);      (* {name, color} *)
  export_locations : list (jsstring * string);
  export_images : list jsstring;
  export_inList : bool
}.

Record ExportData := {
  export_version : N;
  export_exported : jsstring;
  export_products : list ExportProduct;
  export_availableStores : list StoreDef;
  export_availableLocations : list LocationDef
}.

Section ExportDocument.
(** [card.attachments] (absent: the empty list) and
    [new Date().toISOString()]. *)
Variable attachments : Card -> list Attachment.
Variable exported : jsstring.

Definition exportProduct (a : App) (card : Card) : ExportProduct :=
  let storeNames := getStoreNames a in
  let cardLabels :=
    filter (fun l => includes (card_idLabels card) (label_id l)) (labels a) in
  {| export_name := card_name card;
     export_desc := card_desc card;
     export_stores :=
       map (fun l => (label_name l, label_color l))
           (filter (fun l => includes_name storeNames (label_name l))
                   cardLabels);
     export_locations :=
       map (fun l => (label_name l, label_color l))
           (filter (fun l => negb (includes_name storeNames (label_name l)))
                   cardLabels);
     export_images :=
       map att_url
           (filter (fun att =>
                      match att_mimeType att with
                      | [] => false
                      | _ :: _ => startsWith (att_mimeType att) (js "image/")
                      end) (attachments card));
     export_inList :=
       match activeList a with
       | Some al => String.eqb (card_idList card) (list_id al)
       | None => false
       end |}.

(** The document [exportProducts] serializes and offers for download. *)
Definition exportProducts (a : App) : ExportData :=
  {| export_version := 2;
     export_exported := exported;
     export_products := map (exportProduct a) (cards a);
     export_availableStores := stores (config a);
     export_availableLocations := locations (config a) |}.

End ExportDocument.

(** The exported file read back by [importProducts]: [JSON.parse] of the
    [JSON.stringify] text; the import reads [version] and, of each product,
    [name], [desc], [stores], [locations] and [inList]. *)
Definition exportedFile (d : ExportData) : option ImportDoc :=
  Some {| doc_version := Some (export_version d);
          doc_products :=
            Some (map (fun p =>
                         {| product_name := export_name p;
                            product_desc := export_desc p;
                            product_stores :=
                              map (fun s => RefObject (fst s) (Some (snd s)))
                                  (export_stores p);
                            product_locations :=
                              map (fun s => RefObject (fst s) (Some (snd s)))
                                  (export_locations p);
                            product_inList := export_inList p |})
                      (export_products d)) |}.

Definition isCreateCard (r : Request) : bool :=
  match r with ReqCreateCard _ _ _ _ => true | _ => false end.

(** ** Attachment URLs (app.js 997-1025) *)

(** [s.includes(sub)] on strings. *)
Fixpoint includesSubstring (s sub : jsstring) : bool :=
  startsWith s sub
  || match s with
     | [] => false
     | _ :: s' => includesSubstring s' sub
     end.

(** [getAttachmentUrl(attachment)], with [this.apiKey] and [this.apiToken];
    [None] is [null]. *)
Definition getAttachmentUrl (apiKey apiToken : jsstring)
           (attachment : option Attachment) : option jsstring :=
  match attachment with
  | None => None
  | Some attachment =>
      let url :=
        match att_previews attachment with
        | [] => []
        | p0 :: _ =>
            let preview :=
              match find (fun p => ((300 <=? preview_width p)
                                    && (preview_width p <=? 600))%N)
                         (att_previews attachment) with
              | Some p => p
              | None => last (att_previews attachment) p0
              end in
            preview_url preview
        end in
      let url := match url with [] => att_url attachment | _ :: _ => url end in
      match url with
      | [] => None
      | _ :: _ =>
          if includesSubstring url (js "token=") then Some url
          else
            let separator :=
              if includesSubstring url (js "?") then js "&" else js "?" in
            Some (url ++ separator ++ js "key=" ++ apiKey
                      ++ js "&token=" ++ apiToken)
      end
  end.

(** ** The image cache (app.js 1028-1076) *)

(** What the proxy fetch comes to: the fetch throws; the response is not
    ok; or it is ok with a blob of some size, for which
    [URL.createObjectURL] gives [objectUrl]. *)
Inductive ProxyReply :=
| ProxyThrows
| ProxyNotOk
| ProxyBlob (size : N) (objectUrl : jsstring).

(** [this.imageCache] (a [Map] from source URL to blob URL) and the proxy
    URLs fetched so far. *)
Record Images := {
  imageCache : list (jsstring * jsstring);
  fetched : list jsstring
}.

(** [Map.prototype.get] and [Map.prototype.set] *)
Definition mapGet (k : jsstring) (m : list (jsstring * jsstring))
  : option jsstring :=
  option_map snd (find (fun e => jsstring_eqb (fst e) k) m).

Fixpoint mapSet (k v : jsstring) (m : list (jsstring * jsstring))
  : list (jsstring * jsstring) :=
  match m with
  | [] => [(k, v)]
  | e :: m' => if jsstring_eqb (fst e) k then (k, v) :: m'
               else e :: mapSet k v m'
  end.

Section ImageCache.
(** [this.workerUrl], the built-in [encodeURIComponent], and the proxy: its
    reply to a URL given the URLs fetched before. *)
Variable workerUrl : jsstring.
Variable encodeURIComponent : jsstring -> jsstring.
Variable proxy : list jsstring -> jsstring -> ProxyReply.

Definition fetchImageWithOAuth (url : jsstring) (s : Images)
  : option jsstring * Images :=
  match url with
  | [] => (None, s)
  | _ :: _ =>
      match mapGet url (imageCache s) with
      | Some blobUrl => (Some blobUrl, s)
      | None =>
          if includesSubstring workerUrl (js "YOUR_USERNAME") then (None, s)
          else
            let proxyUrl := workerUrl ++ js "?url=" ++ encodeURIComponent url in
            let s' := {| imageCache := imageCache s;
                         fetched := fetched s ++ [proxyUrl] |} in
            match proxy (fetched s) proxyUrl with
            | ProxyBlob size blobUrl =>
                if (0 <? size)%N then
                  (Some blobUrl,
                   {| imageCache := mapSet url blobUrl (imageCache s);
                      fetched := fetched s ++ [proxyUrl] |})
                else (None, s')
            | ProxyNotOk => (None, s')
            | ProxyThrows => (None, s')
            end
      end
  end.

End ImageCache.

(** A toggle whose move the remote accepts: the card goes to the other
    list and, when it leaves the active list, to the head of the log. *)
Definition movesCard (toggle : Remote -> string -> N -> M unit) : Prop :=
  forall net w id now card al ap,
    findCard id (cards (app w)) = Some card ->
    activeList (app w) = Some al ->
    allProductsList (app w) = Some ap ->
    (forall h l, reply_moveCard net h id l = true) ->
    app (snd (toggle net id now w))
    = (if String.eqb (card_idList card) (list_id al)
       then set_recentProducts
              (pushRecent id now (recentProducts (app w)))
              (set_cards (updateFirst (fun c => String.eqb (card_id c) id)
                                      (set_card_idList (list_id ap))
                                      (cards (app w))) (app w))
       else set_cards (updateFirst (fun c => String.eqb (card_id c) id)
                                   (set_card_idList (list_id al))
                                   (cards (app w))) (app w)).

(** The labels of a card that an export names: the cached labels the card
    carries, the store labels first. *)
Definition exportedLabelIds (a : App) (card : Card) : list string :=
  let cardLabels :=
    filter (fun l => includes (card_idLabels card) (label_id l)) (labels a) in
  map label_id (filter (isStoreLabel a) cardLabels)
  ++ map label_id (filter (fun l => negb (isStoreLabel a l)) cardLabels).

(** The request that recreates an exported card of [a] on a board whose
    active list is [al'] and whose catalog list is [ap']. *)
Definition recreate (attachments : Card -> list Attachment) (a : App)
           (al' ap' : TList) (c : Card) : Request :=
  ReqCreateCard
    (if export_inList (exportProduct attachments a c)
     then list_id al' else list_id ap')
    (card_name c) (exportedLabelIds a c) (card_desc c).

(* ================================================================== *)
(** * The product dialogs and the settings *)
(* ================================================================== *)

Definition set_config (v : Config) (a : App) : App :=
  {| selectedBoardId := selectedBoardId a; board := board a; lists := lists a;
     allProductsList := allProductsList a; activeList := activeList a;
     cards := cards a; labels := labels a; config := v;
     currentView := currentView a; currentStore := currentStore a;
     selectedStore := selectedStore a; searchQuery := searchQuery a;
     recentProducts := recentProducts a |}.

Definition set_stores (v : list StoreDef) (c : Config) : Config :=
  {| listNames_allProducts := listNames_allProducts c;
     listNames_activeList := listNames_activeList c;
     stores := v; locations := locations c |}.

(** The messages the dialogs pass to [showToast], beside those of [Toast]. *)
Inductive Notice :=
| NoticeProductNameMissing           (* 'Introduce un nombre para el producto' *)
| NoticeSelectStore                  (* 'Selecciona al menos una tienda' *)
| NoticeProductCreated (name : jsstring)     (* '"name" creado' *)
| NoticeProductNotFound              (* 'Producto no encontrado' *)
| NoticeProductDeleted (name : jsstring)     (* '"name" eliminado' *)
| NoticeDeleteError                  (* 'Error eliminando: ...' *)
| NoticeStoreNameMissing             (* 'Introduce un nombre para la tienda' *)
| NoticeLabelNotCreated              (* 'No se pudo crear el tag en Trello: ...' *)
| NoticeStoreAdded (name : jsstring)         (* 'Tienda "name" anadida' *)
| NoticeStoreRemoved (name : jsstring).      (* 'Tienda "name" eliminada' *)

(** The calls the dialogs make beside those of [Request]: the upload of
    [addAttachmentToCard] (app.js 475-491), the re-read of a card with its
    attachments, and [getCardAttachments] (app.js 405-407). *)
Inductive Upload :=
| UpAddAttachment (cardId : string) (file : jsstring)
| UpGetCard (cardId : string)
| UpGetCardAttachments (cardId : string).

(** What the API answers to them, given the calls of both kinds made
    before. *)
Record Uploader := {
  reply_addAttachment :
    list Request -> list Upload -> string -> jsstring -> bool;
  reply_getCard : list Request -> list Upload -> string -> option Card;
  reply_getCardAttachments :
    list Request -> list Upload -> string -> option (list Attachment)
}.

(** The application with its dialogs: the world of the methods above, the
    label selection of the add dialog ([this.selectedLabels], a [Set], in
    insertion order), whether the add dialog and the product detail dialog
    are shown, the card and the images of the product detail, and the two
    logs of this part. *)
Record Dialogs := {
  base : World;
  selectedLabels : list string;
  addModalOpen : bool;
  detailModalOpen : bool;
  currentEditingCard : option Card;
  currentCardImages : list Attachment;
  uploads : list Upload;
  notices : list Notice
}.

Definition set_base (v : World) (d : Dialogs) : Dialogs :=
  {| base := v; selectedLabels := selectedLabels d;
     addModalOpen := addModalOpen d; detailModalOpen := detailModalOpen d;
     currentEditingCard := currentEditingCard d;
     currentCardImages := currentCardImages d;
     uploads := uploads d; notices := notices d |}.

Definition set_selectedLabels (v : list string) (d : Dialogs) : Dialogs :=
  {| base := base d; selectedLabels := v;
     addModalOpen := addModalOpen d; detailModalOpen := detailModalOpen d;
     currentEditingCard := currentEditingCard d;
     currentCardImages := currentCardImages d;
     uploads := uploads d; notices := notices d |}.

Definition set_addModalOpen (v : bool) (d : Dialogs) : Dialogs :=
  {| base := base d; selectedLabels := selectedLabels d;
     addModalOpen := v; detailModalOpen := detailModalOpen d;
     currentEditingCard := currentEditingCard d;
     currentCardImages := currentCardImages d;
     uploads := uploads d; notices := notices d |}.

Definition set_detailModalOpen (v : bool) (d : Dialogs) : Dialogs :=
  {| base := base d; selectedLabels := selectedLabels d;
     addModalOpen := addModalOpen d; detailModalOpen := v;
     currentEditingCard := currentEditingCard d;
     currentCardImages := currentCardImages d;
     uploads := uploads d; notices := notices d |}.

Definition set_currentEditingCard (v : option Card) (d : Dialogs) : Dialogs :=
  {| base := base d; selectedLabels := selectedLabels d;
     addModalOpen := addModalOpen d; detailModalOpen := detailModalOpen d;
     currentEditingCard := v;
     currentCardImages := currentCardImages d;
     uploads := uploads d; notices := notices d |}.

Definition set_currentCardImages (v : list Attachment) (d : Dialogs)
  : Dialogs :=
  {| base := base d; selectedLabels := selectedLabels d;
     addModalOpen := addModalOpen d; detailModalOpen := detailModalOpen d;
     currentEditingCard := currentEditingCard d;
     currentCardImages := v;
     uploads := uploads d; notices := notices d |}.

Definition set_uploads (v : list Upload) (d : Dialogs) : Dialogs :=
  {| base := base d; selectedLabels := selectedLabels d;
     addModalOpen := addModalOpen d; detailModalOpen := detailModalOpen d;
     currentEditingCard := currentEditingCard d;
     currentCardImages := currentCardImages d;
     uploads := v; notices := notices d |}.

Definition set_notices (v : list Notice) (d : Dialogs) : Dialogs :=
  {| base := base d; selectedLabels := selectedLabels d;
     addModalOpen := addModalOpen d; detailModalOpen := detailModalOpen d;
     currentEditingCard := currentEditingCard d;
     currentCardImages := currentCardImages d;
     uploads := uploads d; notices := v |}.

(** A method of the dialogs: as [M], over [Dialogs]. *)
Definition D (A : Type) := Dialogs -> Outcome A * Dialogs.

Definition retD {A} (a : A) : D A := fun d => (Returns a, d).

Definition bindD {A B} (m : D A) (k : A -> D B) : D B :=
  fun d => match m d with
           | (Returns a, d') => k a d'
           | (Throws e, d') => (Throws e, d')
           end.

Definition throwD {A} (e : Error) : D A := fun d => (Throws e, d).

Definition tryCatchD {A} (m : D A) (h : Error -> D A) : D A :=
  fun d => match m d with
           | (Returns a, d') => (Returns a, d')
           | (Throws e, d') => h e d'
           end.

(** A method of the application object, run on the world of the dialogs. *)
Definition liftW {A} (m : M A) : D A :=
  fun d => let (r, w') := m (base d) in (r, set_base w' d).

Definition dialogs : D Dialogs := fun d => (Returns d, d).

Definition update (f : Dialogs -> Dialogs) : D unit :=
  fun d => (Returns tt, f d).

Definition notify (n : Notice) : D unit :=
  update (fun d => set_notices (notices d ++ [n]) d).

Declare Scope dialog_scope.
Delimit Scope dialog_scope with dialog.
Notation "x <- m ;; k" := (bindD m (fun x => k))
  (at level 61, m at next level, right associativity) : dialog_scope.
Notation "m ;; k" := (bindD m (fun _ => k))
  (at level 61, right associativity) : dialog_scope.

(** [Set.prototype.add] and [Set.prototype.delete] on the selection. *)
Definition setAdd (x : string) (l : list string) : list string :=
  if includes l x then l else l ++ [x].

Definition setDelete (x : string) (l : list string) : list string :=
  filter (fun y => negb (String.eqb y x)) l.

(** The two pickers of [renderLabelPickers] (app.js 2066-2100): the location
    labels, then the store labels. *)
Definition renderLabelPickers (a : App) : list Label * list Label :=
  let storeNames := getStoreNames a in
  let storeLabels :=
    filter (fun l => includes_name storeNames (label_name l)) (labels a) in
  let locationLabels :=
    filter (fun l => negb (includes_name storeNames (label_name l)))
           (labels a) in
  (locationLabels, storeLabels).

(** The change listener of a picker checkbox (app.js 2089-2098). *)
Definition labelCheckboxChange (labelId : string) (checked : bool) : D unit :=
  update (fun d =>
    set_selectedLabels
      (if checked then setAdd labelId (selectedLabels d)
       else setDelete labelId (selectedLabels d)) d).

(** [openAddModal] (app.js 1987-2011), [closeAddModal] (2062-2064) and
    [resetAddModal] (2173-2190); the input fields are arguments of
    [createProduct]. *)
Definition openAddModal : D unit :=
  update (fun d => set_addModalOpen true (set_selectedLabels [] d)).

Definition closeAddModal : D unit := update (set_addModalOpen false).

Definition resetAddModal : D unit := update (set_selectedLabels []).

(** [renderShoppingView(container)] (app.js 1565-1641) as a statement: it
    reads [this.selectedStore.name], whatever the cards are. *)
Definition rerenderShoppingView : M unit :=
  a <- this ;;
  match selectedStore a with
  | None => throw TypeError
  | Some _ => ret tt
  end.

(** The icon of a store added without one (U+1F3EA). *)
Definition defaultStoreIcon : jsstring := [0xD83C; 0xDFEA]%N.

(** [array.splice(index, 1)] for an index within the array. *)
Definition splice1 {A} (index : nat) (l : list A) : list A :=
  firstn index l ++ skipn (S index) l.

(** The store names written into [showProductDetail] (app.js 1110, 1114). *)
Definition detailStoreNames : list jsstring :=
  [js "Mercadona"; js "Fruteria"; js "Farmacia"; js "Carniceria";
   js "Caprabo"].

(** What [showProductDetail] puts into the dialog. *)
Inductive ProductDetailView :=
| ProductDetailNone
| ProductDetailError
| ProductDetail (name : jsstring) (images : list Attachment)
                (locationLabels storeLabels : list Label) (desc : jsstring).

Definition isImage (att : Attachment) : bool :=
  match att_mimeType att with
  | [] => false
  | _ :: _ => startsWith (att_mimeType att) (js "image/")
  end.

(** [selectedStoreLabels] of [createProduct] (app.js 2115-2119): the
    selected identifiers that a cached label with a configured store's name
    bears. *)
Definition selectedStoreLabels (a : App) (selected : list string)
  : list string :=
  let storeNames := getStoreNames a in
  filter (fun labelId =>
            match find (fun l => String.eqb (label_id l) labelId)
                       (labels a) with
            | Some label => includes_name storeNames (label_name label)
            | None => false
            end) selected.

Section DialogMethods.
Variable net : Remote.
Variable up : Uploader.

(** [addAttachmentToCard(cardId, file)], app.js 475-491 *)
Definition addAttachmentToCard (cardId : string) (file : jsstring) : D unit :=
  fun d =>
    let d' := set_uploads (uploads d ++ [UpAddAttachment cardId file]) d in
    if reply_addAttachment up (sent (base d)) (uploads d) cardId file
    then (Returns tt, d')
    else (Throws NetworkError, d').

(** [trelloFetch(`/cards/${id}?fields=...&attachments=true...`)] *)
Definition reloadCard (cardId : string) : D Card :=
  fun d =>
    let d' := set_uploads (uploads d ++ [UpGetCard cardId]) d in
    match reply_getCard up (sent (base d)) (uploads d) cardId with
    | Some card => (Returns card, d')
    | None => (Throws NetworkError, d')
    end.

(** [getCardAttachments(cardId)], app.js 405-407 *)
Definition getCardAttachments (cardId : string) : D (list Attachment) :=
  fun d =>
    let d' := set_uploads (uploads d ++ [UpGetCardAttachments cardId]) d in
    match reply_getCardAttachments up (sent (base d)) (uploads d) cardId with
    | Some atts => (Returns atts, d')
    | None => (Throws NetworkError, d')
    end.

(** [createProduct()], app.js 2102-2171.  [nameValue] and
    [descriptionValue] are the values of the two input fields, [imageFile]
    the chosen file, if any. *)
Definition createProduct (nameValue descriptionValue : jsstring)
           (imageFile : option jsstring) : D unit :=
  (let name := trim nameValue in
   let descriptionInput := trim descriptionValue in
   match name with
   | [] => notify NoticeProductNameMissing
   | _ :: _ =>
       d <- dialogs ;;
       let a := app (base d) in
       match selectedStoreLabels a (selectedLabels d) with
       | [] => notify NoticeSelectStore
       | _ :: _ =>
           tryCatchD
             (listId <- match allProductsList a with
                        | Some l => retD (list_id l)
                        | None => throwD TypeError
                        end ;;
              card <- liftW (createCard net listId name (selectedLabels d)
                                        descriptionInput) ;;
              match imageFile with
              | Some file =>
                  addAttachmentToCard (card_id card) file ;;
                  updatedCard <- reloadCard (card_id card) ;;
                  liftW (assign (fun a =>
                                   set_cards (cards a ++ [updatedCard]) a))
              | None =>
                  liftW (assign (fun a => set_cards (cards a ++ [card]) a))
              end ;;
              closeAddModal ;;
              resetAddModal ;;
              a <- liftW this ;;
              match currentView a with
              | ViewStores => liftW (assign (fun a => fst (showStoreCards a)))
              | ViewDetail => liftW rerenderStoreDetail
              | ViewShopping => liftW rerenderShoppingView
              end ;;
              notify (NoticeProductCreated name))
             (fun _ => liftW (showToast ToastError))
       end
   end)%dialog.

(** [deleteProduct(cardId)], app.js 1944-1983 *)
Definition deleteProduct (cardId : string) : D unit :=
  (tryCatchD
     (a <- liftW this ;;
      match findCard cardId (cards a) with
      | None => notify NoticeProductNotFound
      | Some card =>
          let productName := card_name card in
          liftW (deleteCard net cardId) ;;
          liftW (assign (fun a =>
                   set_cards (filter (fun c =>
                                        negb (String.eqb (card_id c) cardId))
                                     (cards a)) a)) ;;
          notify (NoticeProductDeleted productName) ;;
          update (set_detailModalOpen false) ;;
          a <- liftW this ;;
          match currentView a with
          | ViewStores => retD tt
          | ViewDetail => liftW rerenderStoreDetail
          | ViewShopping => retD tt
          end
      end)
     (fun _ => notify NoticeDeleteError))%dialog.

(** The click handler of the add-store button, app.js 2625-2655.
    [saveConfig] writes to [localStorage] only. *)
Definition addStoreClick (nameValue iconValue : jsstring) : D unit :=
  (let name := trim nameValue in
   let icon := match trim iconValue with
               | [] => defaultStoreIcon
               | _ :: _ => trim iconValue
               end in
   match name with
   | [] => notify NoticeStoreNameMissing
   | _ :: _ =>
       liftW (assign (fun a =>
                set_config
                  (set_stores (stores (config a)
                                 ++ [{| store_name := name;
                                        store_color := "orange";
                                        store_icon := icon |}])
                              (config a)) a)) ;;
       a <- liftW this ;;
       match find (fun l => jsstring_eqb (label_name l) name) (labels a) with
       | Some _ => retD tt
       | None =>
           tryCatchD
             (label <- liftW (createLabel net (selectedBoardId a) name
                                          "orange") ;;
              liftW (pushLabel label))
             (fun _ => notify NoticeLabelNotCreated)
       end ;;
       notify (NoticeStoreAdded name)
   end)%dialog.

(** [removeStore(index)], app.js 2658-2666; [confirmed] is the answer to
    [confirm]. *)
Definition removeStore (index : nat) (confirmed : bool) : D unit :=
  (a <- liftW this ;;
   match nth_error (stores (config a)) index with
   | None => throwD TypeError
   | Some store =>
       if confirmed then
         liftW (assign (fun a =>
                  set_config (set_stores (splice1 index (stores (config a)))
                                         (config a)) a)) ;;
         notify (NoticeStoreRemoved (store_name store))
       else retD tt
   end)%dialog.

(** [showProductDetail(cardId)], app.js 1090-1170; the result is what the
    dialog shows. *)
Definition showProductDetail (cardId : string) : D ProductDetailView :=
  (a <- liftW this ;;
   match findCard cardId (cards a) with
   | None => retD ProductDetailNone
   | Some card =>
       update (set_currentEditingCard (Some card)) ;;
       update (set_detailModalOpen true) ;;
       tryCatchD
         (attachments <- getCardAttachments cardId ;;
          let images := filter isImage attachments in
          update (set_currentCardImages images) ;;
          a <- liftW this ;;
          let locationLabels :=
            filter (fun l => includes (card_idLabels card) (label_id l)
                             && negb (includes_name detailStoreNames
                                                    (label_name l)))
                   (labels a) in
          let storeLabels :=
            filter (fun l => includes (card_idLabels card) (label_id l)
                             && includes_name detailStoreNames (label_name l))
                   (labels a) in
          retD (ProductDetail (card_name card) images locationLabels
                              storeLabels (card_desc card)))
         (fun _ => retD ProductDetailError)
   end)%dialog.

End DialogMethods.

(** The dialogs over a world, closed, with nothing selected or logged. *)
Definition dialogsOf (w : World) : Dialogs :=
  {| base := w; selectedLabels := []; addModalOpen := false;
     detailModalOpen := false; currentEditingCard := None;
     currentCardImages := []; uploads := []; notices := [] |}.

(** An uploader that accepts every upload and re-reads a card as an empty
    one of that identifier; and one that rejects everything. *)
Definition uploaderOk : Uploader :=
  {| reply_addAttachment := fun _ _ _ _ => true;
     reply_getCard := fun _ _ cardId =>
       Some {| card_id := cardId; card_name := []; card_desc := [];
               card_idList := EmptyString; card_idLabels := [] |};
     reply_getCardAttachments := fun _ _ _ => Some [] |}.

Definition uploaderDown : Uploader :=
  {| reply_addAttachment := fun _ _ _ _ => false;
     reply_getCard := fun _ _ _ => None;
     reply_getCardAttachments := fun _ _ _ => None |}.

(** Whether the redraw that ends [importProducts] throws in the state
    [a]: only the detail view is redrawn with [this.currentStore]. *)
Definition importRedrawThrows (a : App) : bool :=
  match currentView a with
  | ViewDetail => detailRedrawThrows a
  | _ => false
  end.

(** A product of a document duplicates a cached card: their names are equal
    up to letter case. *)
Definition duplicates {U : Unicode} (cs : list Card) (p : ImportProduct)
  : Prop :=
  exists c, In c cs /\ toLowerCase (card_name c) = toLowerCase (product_name p).

(** [l] dealt into [taken] and [left], each keeping the order of [l]. *)
Inductive Dealt {A : Type} : list A -> list A -> list A -> Prop :=
| dealt_nil : Dealt [] [] []
| dealt_take (x : A) (l taken left : list A) :
    Dealt l taken left -> Dealt (x :: l) (x :: taken) left
| dealt_leave (x : A) (l taken left : list A) :
    Dealt l taken left -> Dealt (x :: l) taken (x :: left).

(** The names under which the requests [rs] ask for a card. *)
Definition cardCreations (rs : list Request) : list jsstring :=
  flat_map (fun r => match r with
                     | ReqCreateCard _ name _ _ => [name]
                     | _ => []
                     end) rs.

(** ** The view state machine *)


Section ViewMachine.
Context {U : Unicode}.
Variable net : Remote.



End ViewMachine.


(** Two caches that agree on where the user is (view, store of the detail
    view, store of the shopping mode, search text) and on the recent log. *)
Definition sameNavigation (a a' : App) : Prop :=
  currentView a' = currentView a
  /\ currentStore a' = currentStore a
  /\ selectedStore a' = selectedStore a
  /\ searchQuery a' = searchQuery a
  /\ recentProducts a' = recentProducts a.

Unset Implicit Arguments.

(* ================================================================== *)
(** * Recent-products log *)
(* ================================================================== *)

Lemma pushRecent_length (id : string) (now : N) (log : list RecentItem) :
  List.length (pushRecent id now log) <= 10.
Proof.
  unfold pushRecent. apply firstn_le_length.
Qed.

Lemma addToRecentProducts_log (id : string) (now : N) (w : World) :
  recentProducts (app (snd (addToRecentProducts id now w)))
  = pushRecent id now (recentProducts (app w)).
Proof. reflexivity. Qed.

Lemma filter_all {A} (p : A -> bool) (l : list A) :
  (forall x, In x l -> p x = true) -> filter p l = l.
Proof.
  induction l as [|x l IH]; simpl; intros H; [reflexivity|].
  rewrite (H x (or_introl eq_refl)). f_equal. apply IH.
  intros y Hy. apply H. now right.
Qed.

Lemma pushRecent_new (id : string) (now : N) (log : list RecentItem) :
  (forall item, In item log -> cardId item <> id) ->
  pushRecent id now log
  = {| cardId := id; timestamp := now |} :: firstn 9 log.
Proof.
  intros Hnew. unfold pushRecent.
  rewrite filter_all; [reflexivity|].
  intros item Hin. apply negb_true_iff, String.eqb_neq. now apply Hnew.
Qed.

(** C4. The recent-products log never exceeds 10 entries: from a log of at
    most 10 entries every run of [addToRecentProducts] calls leaves at most
    10; and adding a card that is not in a full log of 10 puts the new entry
    first and drops the last (oldest) one. *)
Theorem recent_log_bounded :
  forall (calls : list (string * N)) (w : World),
    List.length (recentProducts (app w)) <= 10 ->
    List.length (recentProducts (app (addAllToRecentProducts calls w))) <= 10
    /\ forall (id : string) (now : N),
        List.length (recentProducts (app w)) = 10 ->
        (forall item, In item (recentProducts (app w)) -> cardId item <> id) ->
        recentProducts (app (snd (addToRecentProducts id now w)))
        = {| cardId := id; timestamp := now |}
            :: removelast (recentProducts (app w)).
Proof.
  intros calls w Hlen. split.
  - revert w Hlen. induction calls as [|[id now] calls IH]; intros w Hlen.
    + exact Hlen.
    + unfold addAllToRecentProducts in *. cbn [fold_left fst snd].
      apply IH. rewrite addToRecentProducts_log. apply pushRecent_length.
  - intros id now Hfull Hnew.
    rewrite addToRecentProducts_log, (pushRecent_new _ _ _ Hnew).
    f_equal. rewrite removelast_firstn_len, Hfull. reflexivity.
Qed.

Lemma recent_log_bounded_witness :
  let w := world (shopApp [] fullLog) in
  List.length
    (recentProducts
       (app (addAllToRecentProducts [("c1", 5%N); ("c2", 6%N)]%string w))) <= 10
  /\ recentProducts (app (snd (addToRecentProducts "c1" 7%N w)))
     = {| cardId := "c1"; timestamp := 7%N |} :: removelast fullLog.
Proof.
  intros w.
  destruct (recent_log_bounded [("c1", 5%N); ("c2", 6%N)]%string w)
    as [Hbound Hevict].
  - simpl. lia.
  - split; [exact Hbound|]. apply Hevict.
    + reflexivity.
    + intros item Hin. simpl in Hin.
      repeat (destruct Hin as [<-|Hin]; [discriminate|]). contradiction.
Defined.

(* ================================================================== *)
(** * Search normalization *)
(* ================================================================== *)

(** C8. With the Latin-1 tables, [normalizeString] maps "Café" (with
    U+00E9, or with e followed by U+0301) and "cafe" to the same key. *)
Theorem normalize_cafe :
  @normalizeString Latin1.tables (js "Caf" ++ [0xE9]%N)
  = @normalizeString Latin1.tables (js "cafe")
  /\ @normalizeString Latin1.tables (js "Cafe" ++ [0x301]%N)
     = @normalizeString Latin1.tables (js "cafe")
  /\ @normalizeString Latin1.tables (js "cafe") = js "cafe".
Proof. repeat split; reflexivity. Qed.

(* ================================================================== *)
(** * View transitions *)
(* ================================================================== *)


(* ================================================================== *)
(** * Delete all products *)
(* ================================================================== *)

Ltac run :=
  unfold bind, ret, this, assign, showToast, throw, tryCatch, trelloFetch;
  cbn [fst snd app sent toasts].

Lemma deleteLoop_spec (net : Remote) (cs : list Card) :
  forall (deleted failed : nat) (w : World),
  exists done : nat,
    done + List.length (rejectedDeletes net (sent w) cs) = List.length cs
    /\ deleteLoop net cs deleted failed w
       = (Returns (deleted + done,
                   failed + List.length (rejectedDeletes net (sent w) cs)),
          {| app := app w;
             sent := sent w ++ map (fun c => ReqDeleteCard (card_id c)) cs;
             toasts := toasts w |}).
Proof.
  induction cs as [|c cs IH]; intros deleted failed w.
  - exists 0. split; [reflexivity|]. cbn [deleteLoop rejectedDeletes map].
    unfold ret. rewrite app_nil_r, !Nat.add_0_r. now destruct w.
  - cbn [deleteLoop rejectedDeletes map]. unfold deleteCard. run.
    destruct (reply_deleteCard net (sent w) (card_id c)); cbn [ok].
    + match goal with |- context [deleteLoop net cs ?d ?f ?w'] =>
        destruct (IH d f w') as [done [Hlen Hrun]]; rewrite Hrun end.
      cbn [sent app toasts] in *.
      exists (S done). split; [simpl; lia|].
      rewrite <- app_assoc, Nat.add_succ_comm. reflexivity.
    + match goal with |- context [deleteLoop net cs ?d ?f ?w'] =>
        destruct (IH d f w') as [done [Hlen Hrun]]; rewrite Hrun end.
      cbn [sent app toasts] in *.
      exists done. split; [simpl; lia|].
      rewrite <- app_assoc. cbn [List.length].
      rewrite <- Nat.add_succ_comm. reflexivity.
Qed.

Lemma incl_rejected (net : Remote) (cs : list Card) :
  forall (h : list Request) (c : Card),
    In c (rejectedDeletes net h cs) -> In c cs.
Proof.
  induction cs as [|x cs IH]; intros h c Hin; [exact Hin|].
  cbn [rejectedDeletes] in Hin.
  destruct (reply_deleteCard net h (card_id x)).
  - right. eapply IH; eassumption.
  - destruct Hin as [<-|Hin]; [now left|]. right. eapply IH; eassumption.
Qed.

(** C9. [deleteAllProducts] always completes with an empty card cache,
    whatever the remote answers: one DELETE goes out per cached card, the
    rejected ones are only counted in the closing toast, and no card (a
    rejected one included) is left in the cache.  So a card whose deletion
    was rejected, which the remote therefore still has, can be missing from
    the cache. *)
Theorem deleteAll_clears_cache :
  (forall (net : Remote) (w : World),
      let w' := snd (deleteAllProducts net w) in
      let rejected := rejectedDeletes net (sent w) (cards (app w)) in
      fst (deleteAllProducts net w) = Returns tt
      /\ cards (app w') = []
      /\ (forall c, In c rejected ->
                    In c (cards (app w)) /\ ~ In c (cards (app w')))
      /\ sent w'
         = sent w ++ map (fun c => ReqDeleteCard (card_id c)) (cards (app w))
      /\ exists deleted : nat,
           deleted + List.length rejected = List.length (cards (app w))
           /\ toasts w'
              = toasts w
                  ++ [ToastDeleting;
                      ToastDeleted deleted (List.length rejected)])
  /\ exists (net : Remote) (w : World) (c : Card),
       In c (cards (app w))
       /\ In c (rejectedDeletes net (sent w) (cards (app w)))
       /\ cards (app (snd (deleteAllProducts net w))) = []
       /\ toasts (snd (deleteAllProducts net w))
          = [ToastDeleting; ToastDeleted 0 2].
Proof.
  split.
  - intros net w w' rejected. subst w'.
    unfold deleteAllProducts. run.
    match goal with |- context [deleteLoop net ?cs ?d ?f ?w0] =>
      destruct (deleteLoop_spec net cs d f w0) as [done [Hlen Hrun]];
      rewrite Hrun end.
    cbn [fst snd app sent toasts cards set_cards] in *.
    fold rejected in Hlen |- *.
    repeat split.
    + eapply incl_rejected; eassumption.
    + intros [].
    + exists done. split; [exact Hlen|].
      rewrite <- app_assoc. reflexivity.
  - exists offline, (world (shopApp [leche "L1"; pan "L2"] [])), (leche "L1").
    repeat split; now left.
Qed.

(* ================================================================== *)
(** * Optimistic toggle and rollback *)
(* ================================================================== *)

Lemma updateFirst_rollback (id target : string) (cs : list Card) :
  forall card,
    findCard id cs = Some card ->
    updateFirst (fun c => String.eqb (card_id c) id)
                (set_card_idList (card_idList card))
                (updateFirst (fun c => String.eqb (card_id c) id)
                             (set_card_idList target) cs)
    = cs.
Proof.
  unfold findCard.
  induction cs as [|x cs IH]; intros card Hfind; [reflexivity|].
  cbn [find updateFirst] in *.
  destruct (String.eqb (card_id x) id) eqn:Hid.
  - injection Hfind as <-. cbn [updateFirst set_card_idList card_id].
    rewrite Hid. now destruct x.
  - cbn [updateFirst]. rewrite Hid. f_equal. now apply IH.
Qed.

(** C1, as stated, fails on the shopping path: a rejected removal through
    [toggleCardActive] restores the membership and leaves no entry for the
    product in the recent-products log. *)
Lemma toggleCardActive_failure_not_logged :
  let w := world (shopApp [leche "L2"; pan "L1"] []) in
  let w' := snd (toggleCardActive offline "c1" 7%N w) in
  option_map card_idList (findCard "c1" (cards (app w))) = Some "L2"%string
  /\ activeList (app w) = Some shoppingList
  /\ sent w' = [ReqMoveCard "c1" "L1"]
  /\ option_map card_idList (findCard "c1" (cards (app w'))) = Some "L2"%string
  /\ ~ In "c1"%string (map cardId (recentProducts (app w'))).
Proof.
  repeat split. intros [].
Qed.

(** C1, amended.  When the remote rejects the move, both toggles leave the
    card cache as it was before the call.  [toggleProduct] (store detail)
    has by then put a removed product at the head of the recent-products
    log, and the entry stays; [toggleCardActive] (the other views) logs a
    removal only after the move succeeded, so on failure the log is
    unchanged. *)
Theorem toggle_rollback :
  forall (net : Remote) (w : World) (id : string) (now : N),
    (forall h l, reply_moveCard net h id l = false) ->
    (let w' := snd (toggleProduct net id now w) in
     cards (app w') = cards (app w)
     /\ forall card al ap,
          findCard id (cards (app w)) = Some card ->
          activeList (app w) = Some al ->
          allProductsList (app w) = Some ap ->
          (card_idList card = list_id al ->
           hd_error (recentProducts (app w'))
           = Some {| cardId := id; timestamp := now |})
          /\ (card_idList card <> list_id al ->
              recentProducts (app w') = recentProducts (app w)))
    /\ (let w' := snd (toggleCardActive net id now w) in
        cards (app w') = cards (app w)
        /\ recentProducts (app w') = recentProducts (app w)).
Proof.
  intros net w id now Hfail. split.
  - cbv zeta. unfold toggleProduct, setCardList, addToRecentProducts, moveCard.
    run.
    destruct (findCard id (cards (app w))) as [card|] eqn:Hfind;
      [|split; [reflexivity|discriminate]].
    destruct (activeList (app w)) as [al|] eqn:Hal;
      [|split; [reflexivity|discriminate]].
    destruct (String.eqb (card_idList card) (list_id al)) eqn:Hact.
    + destruct (allProductsList (app w)) as [ap|] eqn:Hap;
        [|split; [reflexivity|discriminate]].
      cbn [fst snd app sent toasts]. rewrite Hfail.
      cbn [ok fst snd app sent toasts cards set_cards set_recentProducts
           recentProducts].
      split.
      * now apply updateFirst_rollback.
      * intros card' al' ap' [= <-] [= <-] _. split; [reflexivity|].
        apply String.eqb_eq in Hact. contradiction.
    + cbn [fst snd app sent toasts]. rewrite Hfail.
      cbn [ok fst snd app sent toasts cards set_cards recentProducts].
      split.
      * now apply updateFirst_rollback.
      * intros card' al' ap' [= <-] [= <-] _. split; [|reflexivity].
        apply String.eqb_neq in Hact. contradiction.
  - cbv zeta.
    unfold toggleCardActive, setCardList, addToRecentProducts, moveCard.
    run.
    destruct (findCard id (cards (app w))) as [card|] eqn:Hfind;
      [|split; reflexivity].
    match goal with |- context [match (if ?b then _ else _) with _ => _ end] =>
      destruct b end.
    + destruct (allProductsList (app w)) as [ap|]; [|split; reflexivity].
      cbn [fst snd app sent toasts]. rewrite Hfail.
      cbn [ok fst snd app sent toasts cards set_cards recentProducts].
      split; [now apply updateFirst_rollback|reflexivity].
    + destruct (activeList (app w)) as [al|]; [|split; reflexivity].
      cbn [fst snd app sent toasts]. rewrite Hfail.
      cbn [ok fst snd app sent toasts cards set_cards recentProducts].
      split; [now apply updateFirst_rollback|reflexivity].
Qed.

Lemma toggle_rollback_witness :
  let w := world (shopApp [leche "L2"; pan "L1"] []) in
  cards (app (snd (toggleProduct offline "c1" 7%N w))) = cards (app w)
  /\ hd_error (recentProducts (app (snd (toggleProduct offline "c1" 7%N w))))
     = Some {| cardId := "c1"; timestamp := 7%N |}
  /\ cards (app (snd (toggleCardActive offline "c1" 7%N w))) = cards (app w)
  /\ recentProducts (app (snd (toggleCardActive offline "c1" 7%N w))) = [].
Proof.
  intros w.
  destruct (toggle_rollback offline w "c1" 7%N (fun _ _ => eq_refl))
    as [[Hcards Hlog] [Hcards' Hlog']].
  destruct (Hlog (leche "L2") shoppingList catalogList eq_refl eq_refl eq_refl)
    as [Hhead _].
  split; [exact Hcards|]. split; [exact (Hhead eq_refl)|].
  split; [exact Hcards'|exact Hlog'].
Defined.

(* ================================================================== *)
(** * Board bootstrap *)
(* ================================================================== *)

Lemma setupBoardStructure_steps (net : Remote) :
  setupBoardStructure net
  = (ensureAllProductsList net ;; ensureActiveList net ;;
     ensureLocationLabels net ;; ensureStoreLabels net).
Proof. reflexivity. Qed.

(** What a step may change: it sends [new], may append labels, and keeps
    the board identifier, the configuration and the toasts. *)
Definition stepFrame (w w' : World) (new : list Request) : Prop :=
  sent w' = sent w ++ new
  /\ selectedBoardId (app w') = selectedBoardId (app w)
  /\ config (app w') = config (app w)
  /\ exists extra, labels (app w') = labels (app w) ++ extra.

Lemma stepFrame_refl (w : World) : stepFrame w w [].
Proof.
  unfold stepFrame. rewrite app_nil_r. repeat split. exists []. 
  now rewrite app_nil_r.
Qed.

Lemma stepFrame_trans (w1 w2 w3 : World) (n1 n2 : list Request) :
  stepFrame w1 w2 n1 -> stepFrame w2 w3 n2 -> stepFrame w1 w3 (n1 ++ n2).
Proof.
  intros (Hs1 & Hb1 & Hc1 & e1 & Hl1) (Hs2 & Hb2 & Hc2 & e2 & Hl2).
  unfold stepFrame. rewrite Hs2, Hs1, Hb2, Hb1, Hc2, Hc1, Hl2, Hl1.
  rewrite <- !app_assoc. repeat split. now exists (e1 ++ e2).
Qed.

Lemma ensureAllProductsList_spec (net : Remote) (w : World) :
  let w' := snd (ensureAllProductsList net w) in
  exists new,
    stepFrame w w' new
    /\ labels (app w') = labels (app w)
    /\ activeList (app w') = activeList (app w)
    /\ incl new (listRequests (app w))
    /\ filter isCreateLabel new = [].
Proof.
  unfold ensureAllProductsList, createList. run.
  destruct (allProductsList (app w)) eqn:Hap.
  - exists []. cbn [snd]. split; [apply stepFrame_refl|].
    repeat split. apply incl_nil_l.
  - exists [ReqCreateList (selectedBoardId (app w))
                          (listNames_allProducts (config (app w))) 1].
    assert (Hin : incl [ReqCreateList (selectedBoardId (app w))
                          (listNames_allProducts (config (app w))) 1]
                       (listRequests (app w))).
    { unfold listRequests. rewrite Hap. apply incl_appl, incl_refl. }
    destruct (reply_createList net (sent w) (selectedBoardId (app w))
                               (listNames_allProducts (config (app w))) 1);
      cbn [snd app sent toasts]; (split; [|repeat split; assumption]);
      unfold stepFrame; cbn [app sent]; repeat split;
      exists []; now rewrite app_nil_r.
Qed.

Lemma ensureActiveList_spec (net : Remote) (w : World) :
  let w' := snd (ensureActiveList net w) in
  exists new,
    stepFrame w w' new
    /\ labels (app w') = labels (app w)
    /\ (new = []
        \/ activeList (app w) = None
           /\ new = [ReqCreateList (selectedBoardId (app w))
                                   (listNames_activeList (config (app w))) 2]).
Proof.
  unfold ensureActiveList, createList. run.
  destruct (activeList (app w)) eqn:Hal.
  - exists []. cbn [snd]. split; [apply stepFrame_refl|]. split; auto.
  - exists [ReqCreateList (selectedBoardId (app w))
                          (listNames_activeList (config (app w))) 2].
    destruct (reply_createList net (sent w) (selectedBoardId (app w))
                               (listNames_activeList (config (app w))) 2);
      cbn [snd app sent toasts]; (split; [|split; auto]);
      unfold stepFrame; cbn [app sent]; repeat split;
      exists []; now rewrite app_nil_r.
Qed.

Lemma createLabels_loop (net : Remote) {A : Type} (boardId : string)
      (nm : A -> jsstring) (col : A -> string) (items : list A) :
  forall w : World,
    let w' := snd (forEach items (fun x =>
                     label <- createLabel net boardId (nm x) (col x) ;;
                     pushLabel label) w) in
    exists k,
      stepFrame w w'
        (firstn k (map (fun x => ReqCreateLabel boardId (nm x) (col x)) items)).
Proof.
  induction items as [|x items IH]; intros w; cbn [forEach].
  - exists 0. apply stepFrame_refl.
  - unfold createLabel, pushLabel. run.
    destruct (reply_createLabel net (sent w) boardId (nm x) (col x))
      as [label|].
    + match goal with |- context [forEach items ?body ?w1] =>
        destruct (IH w1) as [k Hk]; exists (S k) end.
      cbn [map firstn].
      change (?r :: ?l) with ([r] ++ l).
      eapply stepFrame_trans; [|exact Hk].
      unfold stepFrame. cbn [app sent labels set_labels selectedBoardId config].
      repeat split. now exists [label].
    + exists 1. cbn [map firstn snd].
      unfold stepFrame. cbn [app sent]. repeat split. exists [].
      now rewrite app_nil_r.
Qed.

Lemma filter_nil_existsb {A} (p : A -> bool) (l : list A) :
  filter p l = [] <-> existsb p l = false.
Proof.
  induction l as [|x l IH]; cbn [filter existsb]; [tauto|].
  destruct (p x); cbn [orb]; [split; discriminate|exact IH].
Qed.

Lemma ensureLocationLabels_spec (net : Remote) (w : World) :
  let w' := snd (ensureLocationLabels net w) in
  exists k,
    stepFrame w w' (firstn k (locationRequests (app w)))
    /\ (hasColor locationColors (labels (app w)) = true -> k = 0).
Proof.
  unfold ensureLocationLabels. run.
  destruct (filter (fun l => includes locationColors (label_color l))
                   (labels (app w))) eqn:Hf.
  - destruct (createLabels_loop net (selectedBoardId (app w))
                location_name location_color (locations (config (app w))) w)
      as [k Hk].
    exists k. split; [exact Hk|].
    apply filter_nil_existsb in Hf. unfold hasColor. congruence.
  - exists 0. split; [apply stepFrame_refl|reflexivity].
Qed.

Lemma ensureStoreLabels_spec (net : Remote) (w : World) :
  let w' := snd (ensureStoreLabels net w) in
  exists k,
    stepFrame w w' (firstn k (storeRequests (app w)))
    /\ (hasColor storeColors (labels (app w)) = true -> k = 0).
Proof.
  unfold ensureStoreLabels. run.
  destruct (filter (fun l => includes storeColors (label_color l))
                   (labels (app w))) eqn:Hf.
  - destruct (createLabels_loop net (selectedBoardId (app w))
                store_name store_color (stores (config (app w))) w)
      as [k Hk].
    exists k. split; [exact Hk|].
    apply filter_nil_existsb in Hf. unfold hasColor. congruence.
  - exists 0. split; [apply stepFrame_refl|reflexivity].
Qed.

Lemma hasColor_app (colors : list string) (lbs extra : list Label) :
  hasColor colors lbs = true -> hasColor colors (lbs ++ extra) = true.
Proof.
  unfold hasColor. rewrite existsb_app. intros ->. reflexivity.
Qed.

Lemma filter_label_requests {A} (f : A -> Request) (items : list A) (k : nat) :
  (forall x, isCreateLabel (f x) = true) ->
  (forall x, isCreateList (f x) = false) ->
  filter isCreateLabel (firstn k (map f items)) = firstn k (map f items)
  /\ filter isCreateList (firstn k (map f items)) = [].
Proof.
  intros Hlabel Hlist. revert k.
  induction items as [|x items IH]; intros [|k]; cbn [map firstn filter];
    try (split; reflexivity).
  rewrite Hlabel, Hlist. destruct (IH k) as [-> ->]. split; reflexivity.
Qed.

Lemma stepFrame_requests (w w' : World) (new : list Request) :
  stepFrame w w' new ->
  locationRequests (app w') = locationRequests (app w)
  /\ storeRequests (app w') = storeRequests (app w).
Proof.
  intros (_ & Hb & Hc & _). unfold locationRequests, storeRequests.
  now rewrite Hb, Hc.
Qed.

Lemma bootstrap_requests (a : App) (n1 n2 : list Request) (k1 k2 : nat) :
  incl n1 (listRequests a) ->
  filter isCreateLabel n1 = [] ->
  (n2 = []
   \/ activeList a = None
      /\ n2 = [ReqCreateList (selectedBoardId a)
                             (listNames_activeList (config a)) 2]) ->
  let new := n1 ++ n2 ++ firstn k1 (locationRequests a)
                ++ firstn k2 (storeRequests a) in
  incl (filter isCreateList new) (listRequests a)
  /\ filter isCreateLabel new
     = firstn k1 (locationRequests a) ++ firstn k2 (storeRequests a).
Proof.
  intros Hn1 Hl1 Hn2 new. subst new.
  destruct (filter_label_requests
              (fun loc => ReqCreateLabel (selectedBoardId a)
                            (location_name loc) (location_color loc))
              (locations (config a)) k1) as [Hloc1 Hloc2]; try reflexivity.
  destruct (filter_label_requests
              (fun store => ReqCreateLabel (selectedBoardId a)
                              (store_name store) (store_color store))
              (stores (config a)) k2) as [Hst1 Hst2]; try reflexivity.
  fold (locationRequests a) in Hloc1, Hloc2.
  fold (storeRequests a) in Hst1, Hst2.
  rewrite !filter_app, Hl1, Hloc1, Hloc2, Hst1, Hst2, !app_nil_r.
  split.
  - apply incl_app.
    + intros r Hr. apply filter_In in Hr. now apply Hn1.
    + destruct Hn2 as [->|[Hal ->]]; [apply incl_nil_l|].
      cbn [filter isCreateList]. unfold listRequests. rewrite Hal.
      apply incl_appr, incl_refl.
  - destruct Hn2 as [->|[_ ->]]; reflexivity.
Qed.

Lemma setupBoardStructure_spec (net : Remote) (w : World) :
  let w' := snd (setupBoardStructure net w) in
  exists new k1 k2,
    sent w' = sent w ++ new
    /\ incl (filter isCreateList new) (listRequests (app w))
    /\ filter isCreateLabel new
       = firstn k1 (locationRequests (app w))
           ++ firstn k2 (storeRequests (app w))
    /\ (hasColor locationColors (labels (app w)) = true -> k1 = 0)
    /\ (hasColor storeColors (labels (app w)) = true -> k2 = 0).
Proof.
  rewrite setupBoardStructure_steps. unfold bind.
  destruct (ensureAllProductsList_spec net w)
    as (n1 & F1 & L1 & A1 & I1 & N1).
  assert (Hfinish : forall w' n2 k1 k2,
    stepFrame w w' (n1 ++ n2 ++ firstn k1 (locationRequests (app w))
                       ++ firstn k2 (storeRequests (app w))) ->
    (n2 = []
     \/ activeList (app w) = None
        /\ n2 = [ReqCreateList (selectedBoardId (app w))
                               (listNames_activeList (config (app w))) 2]) ->
    (hasColor locationColors (labels (app w)) = true -> k1 = 0) ->
    (hasColor storeColors (labels (app w)) = true -> k2 = 0) ->
    exists new k1 k2,
      sent w' = sent w ++ new
      /\ incl (filter isCreateList new) (listRequests (app w))
      /\ filter isCreateLabel new
         = firstn k1 (locationRequests (app w))
             ++ firstn k2 (storeRequests (app w))
      /\ (hasColor locationColors (labels (app w)) = true -> k1 = 0)
      /\ (hasColor storeColors (labels (app w)) = true -> k2 = 0)).
  { intros w' n2 k1 k2 (Hs & _) Hn2 Hk1 Hk2.
    destruct (bootstrap_requests (app w) n1 n2 k1 k2 I1 N1 Hn2) as [Hi Hf].
    eexists _, k1, k2. repeat split; eassumption. }
  destruct (ensureAllProductsList net w) as [[[]|e] w1]; cbn [snd] in *.
  2:{ apply (Hfinish w1 [] 0 0); auto.
      cbn [firstn List.app]. now rewrite app_nil_r. }
  destruct (ensureActiveList_spec net w1) as (n2 & F2 & L2 & D2).
  assert (D2' : n2 = []
     \/ activeList (app w) = None
        /\ n2 = [ReqCreateList (selectedBoardId (app w))
                               (listNames_activeList (config (app w))) 2]).
  { destruct D2 as [->|[Hal ->]]; [now left|right].
    destruct F1 as (_ & -> & -> & _). rewrite <- A1. auto. }
  destruct (ensureActiveList net w1) as [[[]|e] w2]; cbn [snd] in *.
  2:{ apply (Hfinish w2 n2 0 0); auto.
      cbn [firstn List.app]. rewrite app_nil_r.
      eapply stepFrame_trans; eassumption. }
  pose proof (stepFrame_trans _ _ _ _ _ F1 F2) as F12.
  destruct (stepFrame_requests _ _ _ F12) as [Rl Rs].
  destruct (ensureLocationLabels_spec net w2) as (k1 & F3 & C3).
  rewrite Rl, L2, L1 in *.
  pose proof (stepFrame_trans _ _ _ _ _ F12 F3) as F123.
  rewrite <- app_assoc in F123.
  destruct (ensureLocationLabels net w2) as [[[]|e] w3]; cbn [snd] in *.
  2:{ apply (Hfinish w3 n2 k1 0); auto.
      cbn [firstn]. now rewrite app_nil_r. }
  destruct (stepFrame_requests _ _ _ F123) as [_ Rs3].
  destruct (ensureStoreLabels_spec net w3) as (k2 & F4 & C4).
  rewrite Rs3 in *.
  pose proof (stepFrame_trans _ _ _ _ _ F123 F4) as F1234.
  rewrite <- !app_assoc in F1234.
  assert (C4' : hasColor storeColors (labels (app w)) = true -> k2 = 0).
  { intros Hc. apply C4. destruct F123 as (_ & _ & _ & extra & ->).
    now apply hasColor_app. }
  destruct (ensureStoreLabels net w3) as [[[]|e] w4]; cbn [snd] in *;
    apply (Hfinish w4 n2 k1 k2); auto.
Qed.

Lemma loadBoard_lists_present (net : Remote) (w : World)
      (ls : list TList) (l1 l2 : TList) :
  let boardId := selectedBoardId (app w) in
  reply_getLists net (sent w ++ [ReqGetBoard boardId]) boardId = Some ls ->
  find (fun l => jsstring_eqb (list_name l)
                   (listNames_allProducts (config (app w)))) ls = Some l1 ->
  find (fun l => jsstring_eqb (list_name l)
                   (listNames_activeList (config (app w)))) ls = Some l2 ->
  sent (snd (loadBoard net w)) = sent w ++ boardReads boardId.
Proof.
  intros boardId Hls H1 H2. subst boardId.
  unfold loadBoard, fetchBoardData. run. rewrite Hls.
  destruct (reply_getBoard net (sent w) (selectedBoardId (app w)));
    [|reflexivity].
  destruct (reply_getCards net _ (selectedBoardId (app w))); [|reflexivity].
  destruct (reply_getLabels net _ (selectedBoardId (app w))); [|reflexivity].
  cbn [fst snd app sent toasts allProductsList activeList set_activeList
       set_allProductsList].
  rewrite H1, H2. reflexivity.
Qed.

(** C2.  [setupBoardStructure] decides by colour whether a label group is
    there (app.js 635, 645), although its own comment reads "Create default
    store labels if none exist", the seed gives the store "Fruteria" the
    colour lime, which is none of the tested store colours, and every view
    tells the stores by name.  On a board that has the catalog list, lacks
    the active list and has one configured store label, "Fruteria" in its
    seed colour, the store group is partially present; [loadBoard] still
    creates all six store labels, "Fruteria" a second time. *)
Lemma bootstrap_partial_store_group_counterexample :
  let w := world (initialApp "b") in
  let w' := snd (loadBoard halfConfigured w) in
  reply_getLabels halfConfigured
    [ReqGetBoard "b"; ReqGetLists "b"; ReqGetCards "b"] "b" = Some [fruteria]
  /\ isStoreLabel (app w) fruteria = true
  /\ filter isCreateLabel (sent w') = storeRequests (app w)
  /\ List.length (storeRequests (app w)) = 6
  /\ List.length (filter (fun l => jsstring_eqb (label_name l) (js "Fruteria"))
                         (labels (app w'))) = 2.
Proof. repeat split. Qed.

(** What the bootstrap does guarantee.  [loadBoard] sends nothing but its
    four reads when the fetched lists contain the catalog list and the active
    list, whatever the labels are.  When a list is missing,
    [setupBoardStructure] creates lists only for the missing ones, and the
    label creations it sends are a run of the configured locations followed
    by a run of the configured stores, the run of a group being empty when
    the cache already has a label of one of the colours tested for that group
    ([locationColors], [storeColors]). *)
Theorem bootstrap_idempotent :
  forall (net : Remote) (w : World),
    (forall ls l1 l2,
        reply_getLists net (sent w ++ [ReqGetBoard (selectedBoardId (app w))])
                       (selectedBoardId (app w)) = Some ls ->
        find (fun l => jsstring_eqb (list_name l)
                         (listNames_allProducts (config (app w)))) ls
        = Some l1 ->
        find (fun l => jsstring_eqb (list_name l)
                         (listNames_activeList (config (app w)))) ls
        = Some l2 ->
        sent (snd (loadBoard net w))
        = sent w ++ boardReads (selectedBoardId (app w)))
    /\ exists new k1 k2,
         sent (snd (setupBoardStructure net w)) = sent w ++ new
         /\ incl (filter isCreateList new) (listRequests (app w))
         /\ filter isCreateLabel new
            = firstn k1 (locationRequests (app w))
                ++ firstn k2 (storeRequests (app w))
         /\ (hasColor locationColors (labels (app w)) = true -> k1 = 0)
         /\ (hasColor storeColors (labels (app w)) = true -> k2 = 0).
Proof.
  intros net w. split.
  - intros ls l1 l2. apply loadBoard_lists_present.
  - apply setupBoardStructure_spec.
Qed.

Lemma bootstrap_idempotent_witness :
  let net := online {| board_id := "b"; board_name := js "Compras" |}
                    [catalogList; shoppingList] [] [mercadona; nevera] in
  sent (snd (loadBoard net (world (initialApp "b")))) = boardReads "b".
Proof.
  intros net.
  destruct (bootstrap_idempotent net (world (initialApp "b"))) as [Hlists _].
  apply (Hlists [catalogList; shoppingList] catalogList shoppingList);
    reflexivity.
Defined.

(* ================================================================== *)
(** * Ordering of the available products *)
(* ================================================================== *)

Lemma findIndex_range {A} (p : A -> bool) (l : list A) :
  findIndex p l = (-1)%Z \/ (0 <= findIndex p l)%Z.
Proof.
  induction l as [|x l IH]; cbn [findIndex]; [now left|].
  destruct (p x); [right; lia|].
  destruct (findIndex p l =? -1)%Z eqn:E; [now left|right].
  apply Z.eqb_neq in E. lia.
Qed.

Lemma findIndex_tail {A} (p : A -> bool) (x : A) (l : list A) :
  p x = false ->
  findIndex p (x :: l) = (-1)%Z \/ (1 <= findIndex p (x :: l))%Z.
Proof.
  intros Hx. cbn [findIndex]. rewrite Hx.
  destruct (findIndex_range p l) as [->|Hpos]; [now left|].
  destruct (findIndex p l =? -1)%Z eqn:E; [now left|right]. lia.
Qed.

(** A card whose identifier heads the log sorts before every card. *)
Lemma compareRecent_head_le (id : string) (now : N) (log : list RecentItem)
      (x y : Card) :
  card_id x = id ->
  (compareRecent ({| cardId := id; timestamp := now |} :: log) x y <= 0)%Z.
Proof.
  intros Hx. unfold compareRecent.
  cbn [findIndex cardId]. rewrite Hx, String.eqb_refl.
  destruct (String.eqb id (card_id y)); cbn [Z.eqb negb andb]; [lia|].
  match goal with |- context [findIndex ?p log] =>
    destruct (findIndex_range p log) as [->|Hpos];
    [cbn; lia|destruct (findIndex p log =? -1)%Z eqn:E] end.
  - cbn. lia.
  - replace (findIndex _ log + 1 =? -1)%Z with false by (symmetry; lia).
    cbn [negb andb]. lia.
Qed.

(** Any other card sorts strictly after it. *)
Lemma compareRecent_head_gt (id : string) (now : N) (log : list RecentItem)
      (x y : Card) :
  card_id x = id -> card_id y <> id ->
  (0 < compareRecent ({| cardId := id; timestamp := now |} :: log) y x)%Z.
Proof.
  intros Hx Hy. unfold compareRecent.
  match goal with |- context [findIndex ?p (?i :: log)] =>
    destruct (findIndex_tail p i log) as [Ha|Ha];
    [cbn [cardId]; apply String.eqb_neq; congruence| |] end.
  - rewrite Ha. cbn [findIndex cardId]. rewrite Hx, String.eqb_refl.
    cbn. lia.
  - cbn [findIndex cardId] in *. rewrite Hx, String.eqb_refl.
    match type of Ha with (1 <= ?i)%Z =>
      replace (i =? -1)%Z with false by (symmetry; lia) end.
    cbn [negb andb Z.eqb]. lia.
Qed.

Lemma sort_insert_front {A} (cmp : A -> A -> Z) (x : A) (l : list A) :
  (forall y, (cmp x y <= 0)%Z) -> sort_insert cmp x l = x :: l.
Proof.
  intros Hx. destruct l as [|y l]; cbn [sort_insert]; [reflexivity|].
  now rewrite (proj2 (Z.leb_le _ _) (Hx y)).
Qed.

(** An element that compares below every element, and strictly below the
    ones in front of it, is moved to the front. *)
Lemma sort_front {A} (cmp : A -> A -> Z) (x : A) (l1 l2 : list A) :
  (forall y, (cmp x y <= 0)%Z) ->
  (forall y, In y l1 -> (0 < cmp y x)%Z) ->
  sort cmp (l1 ++ x :: l2) = x :: sort cmp (l1 ++ l2).
Proof.
  intros Hx. induction l1 as [|y l1 IH]; intros Hl1; cbn [List.app].
  - unfold sort. cbn [fold_right]. now apply sort_insert_front.
  - unfold sort in *. cbn [fold_right]. rewrite IH.
    + cbn [sort_insert].
      replace (cmp y x <=? 0)%Z with false; [reflexivity|].
      symmetry. apply Z.leb_gt. apply Hl1. now left.
    + intros z Hz. apply Hl1. now right.
Qed.

Lemma findIndex_none {A} (p : A -> bool) (l : list A) :
  findIndex p l = (-1)%Z <-> existsb p l = false.
Proof.
  induction l as [|x l IH]; cbn [findIndex existsb]; [tauto|].
  destruct (p x); cbn [orb]; [split; discriminate|].
  destruct (findIndex_range p l) as [E|E].
  - rewrite E. cbn. tauto.
  - replace (findIndex p l =? -1)%Z with false by (symmetry; lia).
    rewrite <- IH. split; lia.
Qed.

(** [compareRecent] compares the positions in the log, a card without an
    entry counting as last. *)
Lemma compareRecent_le (log : list RecentItem) (x y : Card) :
  let ix := findIndex (fun item => String.eqb (cardId item) (card_id x)) log in
  let iy := findIndex (fun item => String.eqb (cardId item) (card_id y)) log in
  (compareRecent log x y <= 0)%Z
  <-> (iy = (-1)%Z /\ ix = (-1)%Z) \/ (ix <> (-1)%Z /\ (iy = (-1)%Z \/ ix <= iy)%Z).
Proof.
  intros ix iy. unfold compareRecent. fold ix iy.
  destruct (ix =? -1)%Z eqn:Ex; destruct (iy =? -1)%Z eqn:Ey;
    cbn [negb andb]; lia.
Qed.

Lemma compareRecent_trans (log : list RecentItem) (x y z : Card) :
  (compareRecent log x y <= 0)%Z -> (compareRecent log y z <= 0)%Z ->
  (compareRecent log x z <= 0)%Z.
Proof.
  rewrite !compareRecent_le. cbv zeta.
  pose proof (findIndex_range
    (fun item => String.eqb (cardId item) (card_id x)) log).
  pose proof (findIndex_range
    (fun item => String.eqb (cardId item) (card_id y)) log).
  pose proof (findIndex_range
    (fun item => String.eqb (cardId item) (card_id z)) log).
  lia.
Qed.

Lemma compareRecent_total (log : list RecentItem) (x y : Card) :
  (0 < compareRecent log x y)%Z -> (compareRecent log y x <= 0)%Z.
Proof.
  intros Hpos. assert (Hnot : ~ (compareRecent log x y <= 0)%Z) by lia.
  revert Hnot. rewrite !compareRecent_le. cbv zeta. lia.
Qed.

Lemma sort_insert_perm {A} (cmp : A -> A -> Z) (x : A) (l : list A) :
  Permutation (sort_insert cmp x l) (x :: l).
Proof.
  induction l as [|y l IH]; cbn [sort_insert]; [reflexivity|].
  destruct (cmp x y <=? 0)%Z; [reflexivity|].
  rewrite IH. apply perm_swap.
Qed.

Lemma sort_perm {A} (cmp : A -> A -> Z) (l : list A) :
  Permutation (sort cmp l) l.
Proof.
  induction l as [|x l IH]; [reflexivity|].
  unfold sort in *. cbn [fold_right].
  rewrite sort_insert_perm. now constructor.
Qed.

Lemma sort_insert_sorted_by {A} (cmp : A -> A -> Z) (x : A) (l : list A) :
  (forall u v, (0 < cmp u v)%Z -> (cmp v u <= 0)%Z) ->
  Sorted (fun u v => (cmp u v <= 0)%Z) l ->
  Sorted (fun u v => (cmp u v <= 0)%Z) (sort_insert cmp x l).
Proof.
  intros Htotal.
  induction l as [|y l IH]; intros Hs; cbn [sort_insert].
  - repeat constructor.
  - destruct (cmp x y <=? 0)%Z eqn:E.
    + constructor; [exact Hs|]. constructor. now apply Z.leb_le.
    + apply Z.leb_gt in E. inversion Hs as [|? ? Hs' Hhd]; subst.
      constructor; [now apply IH|].
      destruct l as [|z l]; cbn [sort_insert].
      * constructor. now apply Htotal.
      * destruct (cmp x z <=? 0)%Z; constructor;
          [now apply Htotal|now inversion Hhd].
Qed.

Lemma sort_sorted_by {A} (cmp : A -> A -> Z) (l : list A) :
  (forall u v, (0 < cmp u v)%Z -> (cmp v u <= 0)%Z) ->
  (forall u v t, (cmp u v <= 0)%Z -> (cmp v t <= 0)%Z -> (cmp u t <= 0)%Z) ->
  StronglySorted (fun u v => (cmp u v <= 0)%Z) (sort cmp l).
Proof.
  intros Htotal Htrans. apply Sorted_StronglySorted.
  - intros u v t. apply Htrans.
  - induction l as [|x l IH]; [constructor|].
    unfold sort in *. cbn [fold_right]. now apply sort_insert_sorted_by.
Qed.

Lemma sort_insert_absent (log : list RecentItem) (x : Card) (s : list Card) :
  filter (fun c => negb (inRecentLog log c))
         (sort_insert (compareRecent log) x s)
  = filter (fun c => negb (inRecentLog log c)) (x :: s).
Proof.
  induction s as [|y s IHs]; cbn [sort_insert]; [reflexivity|].
  destruct (compareRecent log x y <=? 0)%Z eqn:E; [reflexivity|].
  cbn [filter] in *. rewrite IHs.
  destruct (inRecentLog log x) eqn:Hx; cbn [negb]; [reflexivity|].
  destruct (inRecentLog log y) eqn:Hy; cbn [negb]; [reflexivity|].
  exfalso. apply Z.leb_gt in E.
  unfold inRecentLog in Hx, Hy. apply findIndex_none in Hx, Hy.
  unfold compareRecent in E. rewrite Hx, Hy in E. cbn in E. lia.
Qed.

(** Cards without an entry in the log keep their relative order. *)
Lemma sort_absent_stable (log : list RecentItem) (l : list Card) :
  filter (fun c => negb (inRecentLog log c)) (sort (compareRecent log) l)
  = filter (fun c => negb (inRecentLog log c)) l.
Proof.
  induction l as [|x l IH]; [reflexivity|].
  unfold sort in *. cbn [fold_right]. rewrite sort_insert_absent.
  cbn [filter]. now rewrite IH.
Qed.

(** [findIndex] on the log and the place of the specification agree. *)
Lemma findIndex_logPosition (log : list RecentItem) (id : string) :
  findIndex (fun item => String.eqb (cardId item) id) log
  = match logPosition log id with
    | Some place => Z.of_nat place
    | None => (-1)%Z
    end.
Proof.
  induction log as [|entry older IH]; cbn [findIndex logPosition];
    [reflexivity|].
  destruct (String.eqb (cardId entry) id); [reflexivity|].
  rewrite IH. destruct (logPosition older id) as [place|]; [|reflexivity].
  replace (Z.of_nat place =? -1)%Z with false by (symmetry; lia).
  lia.
Qed.

Lemma inRecentLog_logPosition (log : list RecentItem) (c : Card) :
  inRecentLog log c = true <-> exists place, logPosition log (card_id c) = Some place.
Proof.
  unfold inRecentLog.
  pose proof (findIndex_none
                (fun item => String.eqb (cardId item) (card_id c)) log) as Hnone.
  rewrite findIndex_logPosition in Hnone.
  destruct (logPosition log (card_id c)) as [place|].
  - split; [intros _; now exists place|intros _].
    destruct (existsb _ log); [reflexivity|].
    destruct Hnone as [_ Hnone]. specialize (Hnone eq_refl). lia.
  - split; [intros Hin|intros [place Hplace]; discriminate].
    destruct Hnone as [Hnone _]. rewrite (Hnone eq_refl) in Hin. discriminate.
Qed.

(** What the comparator says of two cards, in the words of the
    specification. *)
Lemma compareRecent_order (log : list RecentItem) (x y : Card) :
  (compareRecent log x y <= 0)%Z ->
  (inRecentLog log y = true -> inRecentLog log x = true)
  /\ (inRecentLog log x = true -> inRecentLog log y = true ->
      atLeastAsRecent log x y).
Proof.
  intros Hle. apply compareRecent_le in Hle. cbv zeta in Hle.
  rewrite !findIndex_logPosition in Hle.
  rewrite !inRecentLog_logPosition. unfold atLeastAsRecent.
  destruct (logPosition log (card_id x)) as [i|];
    destruct (logPosition log (card_id y)) as [j|].
  - split; [intros _; now exists i|]. intros _ _. exists i, j.
    repeat split. lia.
  - split; [intros [place Hplace]; discriminate|].
    intros _ [place Hplace]. discriminate.
  - exfalso. lia.
  - split; [intros [place Hplace]; discriminate|].
    intros [place Hplace]. discriminate.
Qed.

Lemma filter_absent {A} (p : A -> bool) (l : list A) :
  Forall (fun y => p y = false) l ->
  filter p l = [] /\ filter (fun y => negb (p y)) l = l.
Proof.
  induction 1 as [|y l Hy Hall [IH1 IH2]]; [now split|].
  cbn [filter]. rewrite Hy. cbn [negb]. split; [exact IH1|now rewrite IH2].
Qed.

(** In a list sorted by the comparator the cards of the log come first. *)
Lemma sorted_members_first (log : list RecentItem) (l : list Card) :
  StronglySorted (fun x y => (compareRecent log x y <= 0)%Z) l ->
  l = filter (inRecentLog log) l
      ++ filter (fun c => negb (inRecentLog log c)) l.
Proof.
  induction 1 as [|x l Hs IH Hall]; [reflexivity|].
  cbn [filter]. destruct (inRecentLog log x) eqn:Hx; cbn [negb].
  - cbn [List.app]. now rewrite <- IH.
  - assert (Habsent : Forall (fun y => inRecentLog log y = false) l).
    { eapply Forall_impl; [|exact Hall]. intros y Hle.
      destruct (inRecentLog log y) eqn:Hy; [|reflexivity].
      destruct (compareRecent_order log x y Hle) as [Hin _].
      rewrite (Hin Hy) in Hx. discriminate. }
    destruct (filter_absent _ _ Habsent) as [-> ->]. reflexivity.
Qed.

(** ... and are ordered by their places in the log. *)
Lemma sorted_members_by_recency (log : list RecentItem) (l : list Card) :
  StronglySorted (fun x y => (compareRecent log x y <= 0)%Z) l ->
  StronglySorted (atLeastAsRecent log) (filter (inRecentLog log) l).
Proof.
  induction 1 as [|x l Hs IH Hall]; [constructor|].
  cbn [filter]. destruct (inRecentLog log x) eqn:Hx; [|exact IH].
  constructor; [exact IH|].
  apply Forall_forall. intros y Hy. apply filter_In in Hy as [Hy Hin].
  rewrite Forall_forall in Hall.
  destruct (compareRecent_order log x y (Hall y Hy)) as [_ Horder].
  now apply Horder.
Qed.

(** The stable sort by [compareRecent] arranges a list as the
    specification words it. *)
Lemma sort_orderedByRecency (log : list RecentItem) (l : list Card) :
  orderedByRecency log l (sort (compareRecent log) l).
Proof.
  assert (Hsorted : StronglySorted
                      (fun x y => (compareRecent log x y <= 0)%Z)
                      (sort (compareRecent log) l)).
  { apply sort_sorted_by.
    - intros u v. apply compareRecent_total.
    - intros u v t. apply compareRecent_trans. }
  repeat split.
  - apply sort_perm.
  - now apply sorted_members_first.
  - now apply sorted_members_by_recency.
  - apply sort_absent_stable.
Qed.

(* ================================================================== *)
(** * Adding a product to the list and removing it again *)
(* ================================================================== *)

Lemma findCard_split (id : string) (cs : list Card) (card : Card) :
  findCard id cs = Some card ->
  card_id card = id
  /\ exists c1 c2,
       cs = c1 ++ card :: c2 /\ forall y, In y c1 -> card_id y <> id.
Proof.
  unfold findCard. induction cs as [|x cs IH]; cbn [find]; [discriminate|].
  destruct (String.eqb (card_id x) id) eqn:E.
  - intros [= <-]. split; [now apply String.eqb_eq|].
    exists [], cs. split; [reflexivity|]. intros y [].
  - intros Hfind. destruct (IH Hfind) as [Hid (c1 & c2 & -> & Hc1)].
    split; [exact Hid|]. exists (x :: c1), c2. split; [reflexivity|].
    intros y [<-|Hy]; [now apply String.eqb_neq|now apply Hc1].
Qed.

Lemma updateFirst_split (id : string) (f : Card -> Card)
      (c1 c2 : list Card) (card : Card) :
  card_id card = id ->
  (forall y, In y c1 -> card_id y <> id) ->
  updateFirst (fun c => String.eqb (card_id c) id) f (c1 ++ card :: c2)
  = c1 ++ f card :: c2.
Proof.
  intros Hid. induction c1 as [|x c1 IH]; intros Hc1; cbn [List.app updateFirst].
  - now rewrite Hid, String.eqb_refl.
  - rewrite (proj2 (String.eqb_neq _ _) (Hc1 x (or_introl eq_refl))).
    f_equal. apply IH. intros y Hy. apply Hc1. now right.
Qed.

Lemma findCard_at (id : string) (c1 c2 : list Card) (card : Card) :
  card_id card = id ->
  (forall y, In y c1 -> card_id y <> id) ->
  findCard id (c1 ++ card :: c2) = Some card.
Proof.
  intros Hid. unfold findCard.
  induction c1 as [|x c1 IH]; intros Hc1; cbn [List.app find].
  - now rewrite Hid, String.eqb_refl.
  - rewrite (proj2 (String.eqb_neq _ _) (Hc1 x (or_introl eq_refl))).
    apply IH. intros y Hy. apply Hc1. now right.
Qed.

(** The application object after a toggle in the store detail whose move
    the remote accepts. *)
Lemma toggleProduct_moved (net : Remote) (w : World) (id : string) (now : N)
      (card : Card) (al ap : TList) :
  findCard id (cards (app w)) = Some card ->
  activeList (app w) = Some al ->
  allProductsList (app w) = Some ap ->
  (forall h l, reply_moveCard net h id l = true) ->
  app (snd (toggleProduct net id now w))
  = if String.eqb (card_idList card) (list_id al)
    then set_recentProducts
           (pushRecent id now (recentProducts (app w)))
           (set_cards (updateFirst (fun c => String.eqb (card_id c) id)
                                   (set_card_idList (list_id ap))
                                   (cards (app w))) (app w))
    else set_cards (updateFirst (fun c => String.eqb (card_id c) id)
                                (set_card_idList (list_id al))
                                (cards (app w))) (app w).
Proof.
  intros Hfind Hal Hap Hok.
  unfold toggleProduct, setCardList, addToRecentProducts, moveCard. run.
  rewrite Hfind, Hal.
  destruct (String.eqb (card_idList card) (list_id al)).
  - rewrite Hap. cbn [fst snd app sent toasts]. rewrite Hok. reflexivity.
  - cbn [fst snd app sent toasts]. rewrite Hok. reflexivity.
Qed.

(** C3.  The available products are the listed cards arranged as the
    specification says: the cards with an entry in the recent-products log
    come before all others, the more recent entry first, and the cards
    without an entry keep their original relative order.  Toggling a product
    that is not on the list twice in the store detail, both moves accepted,
    puts it on the list and then back in the catalog list with its entry at
    the head of the log; in the detail of any store whose label it carries
    it is then the first available product (provided the search text does
    not hide it). *)
Theorem toggle_twice_front :
  forall (U : Unicode) (net : Remote) (w : World) (id : string) (t1 t2 : N)
         (card : Card) (al ap : TList),
    (forall a storeLabel,
        orderedByRecency (recentProducts a)
                         (availableCards a ap storeLabel)
                         (sortedAvailableCards a ap storeLabel))
    /\ (findCard id (cards (app w)) = Some card ->
        activeList (app w) = Some al ->
        allProductsList (app w) = Some ap ->
        card_idList card <> list_id al ->
        (forall h l, reply_moveCard net h id l = true) ->
        let w1 := snd (toggleProduct net id t1 w) in
        let w2 := snd (toggleProduct net id t2 w1) in
        let card' := set_card_idList (list_id ap) card in
        findCard id (cards (app w1))
        = Some (set_card_idList (list_id al) card)
        /\ findCard id (cards (app w2)) = Some card'
        /\ hd_error (recentProducts (app w2))
           = Some {| cardId := id; timestamp := t2 |}
        /\ forall storeLabel,
             includes (card_idLabels card) (label_id storeLabel) = true ->
             matchesSearch (searchQuery (app w)) (card_name card) = true ->
             hd_error (sortedAvailableCards (app w2) ap storeLabel)
             = Some card').
Proof.
  intros U net w id t1 t2 card al ap. split.
  { intros a storeLabel. unfold sortedAvailableCards.
    apply sort_orderedByRecency. }
  intros Hfind Hal Hap Hnot Hok w1 w2 card'.
  destruct (findCard_split _ _ _ Hfind) as [Hid (c1 & c2 & Hcs & Hc1)].
  assert (Happ1 : app w1
                  = set_cards (c1 ++ set_card_idList (list_id al) card :: c2)
                              (app w)).
  { subst w1. rewrite (toggleProduct_moved net w id t1 card al ap) by assumption.
    rewrite (proj2 (String.eqb_neq _ _) Hnot), Hcs.
    now rewrite updateFirst_split. }
  assert (Hfind1 : findCard id (cards (app w1))
                   = Some (set_card_idList (list_id al) card)).
  { rewrite Happ1. cbn [cards set_cards]. now apply findCard_at. }
  assert (Happ2 : app w2
                  = set_recentProducts
                      (pushRecent id t2 (recentProducts (app w)))
                      (set_cards (c1 ++ card' :: c2) (app w))).
  { subst w2.
    rewrite (toggleProduct_moved net w1 id t2
               (set_card_idList (list_id al) card) al ap); try assumption.
    - cbn [card_idList set_card_idList]. rewrite String.eqb_refl, Happ1.
      cbn [cards set_cards recentProducts].
      rewrite updateFirst_split by assumption. reflexivity.
    - rewrite Happ1. exact Hal.
    - rewrite Happ1. exact Hap. }
  split; [exact Hfind1|]. rewrite Happ2.
  cbn [cards set_cards set_recentProducts recentProducts].
  split; [now apply findCard_at|]. split; [reflexivity|].
  intros storeLabel Hlabel Hsearch.
  unfold sortedAvailableCards, availableCards.
  cbn [cards set_cards set_recentProducts recentProducts searchQuery].
  rewrite !filter_app. cbn [filter].
  replace (includes (card_idLabels card') (label_id storeLabel)) with true
    by (symmetry; exact Hlabel).
  cbn [filter].
  replace (String.eqb (card_idList card') (list_id ap)) with true
    by (symmetry; apply String.eqb_refl).
  cbn [filter].
  replace (matchesSearch (searchQuery (app w)) (card_name card')) with true
    by (symmetry; exact Hsearch).
  unfold pushRecent. cbn [firstn].
  rewrite sort_front; [reflexivity| |].
  - intros y. now apply compareRecent_head_le.
  - intros y Hy. apply compareRecent_head_gt; [exact Hid|].
    apply Hc1.
    repeat (apply filter_In in Hy; destruct Hy as [Hy _]). exact Hy.
Qed.

Lemma toggle_twice_front_witness :
  let net := online {| board_id := "b"; board_name := js "Compras" |}
                    [catalogList; shoppingList] [] [mercadona; nevera] in
  let w := world (shopApp [pan "L1"; leche "L1"] []) in
  let w2 := snd (toggleProduct net "c1" 2%N
                   (snd (toggleProduct net "c1" 1%N w))) in
  hd_error (@sortedAvailableCards Latin1.tables (app w2) catalogList mercadona)
  = Some (leche "L1").
Proof.
  intros net w w2.
  destruct (toggle_twice_front Latin1.tables net w "c1" 1%N 2%N (leche "L1")
              shoppingList catalogList) as [_ Htwice].
  destruct Htwice as (_ & _ & _ & Hfront);
    [reflexivity|reflexivity|reflexivity|discriminate|reflexivity|].
  apply (Hfront mercadona); reflexivity.
Defined.

(* ================================================================== *)
(** * Import *)
(* ================================================================== *)

Lemma jsstring_eqb_eq (a b : jsstring) : jsstring_eqb a b = true <-> a = b.
Proof.
  unfold jsstring_eqb. destruct (list_eq_dec N.eq_dec a b); split;
    congruence.
Qed.

Section ImportFacts.
Context {U : Unicode}.
Variable net : Remote.

  (** Resolving labels never throws and touches neither the cards, nor the
      two lists, nor the toasts. *)
Lemma resolveLabels_frame (dflt : string) (refs : list LabelRef) :
    forall (ids : list string) (n : nat) (w : World),
    exists r w',
      resolveLabels net dflt refs ids n w = (Returns r, w')
      /\ cards (app w') = cards (app w)
      /\ activeList (app w') = activeList (app w)
      /\ allProductsList (app w') = allProductsList (app w)
      /\ toasts w' = toasts w.
Proof.
    induction refs as [|r refs IH]; intros ids n w; cbn [resolveLabels].
    - exists (ids, n), w. repeat split.
    - unfold createLabel, pushLabel. run.
      destruct (find _ (labels (app w))) as [label|].
      + apply IH.
      + destruct (reply_createLabel net (sent w) (selectedBoardId (app w))
                                    (ref_name r) (ref_color dflt r))
          as [label|]; cbn [fst snd app sent toasts].
        * match goal with |- context [resolveLabels net dflt refs ?i ?m ?w1] =>
            destruct (IH i m w1) as (r' & w' & -> & Hc & Ha & Hp & Ht) end.
          exists r', w'. repeat split; assumption.
        * match goal with |- context [resolveLabels net dflt refs ?i ?m ?w1] =>
            destruct (IH i m w1) as (r' & w' & -> & Hc & Ha & Hp & Ht) end.
          exists r', w'. repeat split; assumption.
Qed.

Lemma productExists_app (a a' : App) (name : jsstring) (extra : list Card) :
    cards a' = cards a ++ extra ->
    productExists a name = true -> productExists a' name = true.
Proof.
    unfold productExists. intros ->. rewrite existsb_app. now intros ->.
Qed.

  (** Products that are all cached already are all skipped: nothing is
      sent and the world is unchanged. *)
Lemma importLoop_skip_all (products : list ImportProduct) :
    forall (imported skipped labelsCreated : nat) (w : World),
      (forall p, In p products ->
                 productExists (app w) (product_name p) = true) ->
      importLoop net products imported skipped labelsCreated w
      = (Returns (imported, skipped + List.length products, labelsCreated), w).
Proof.
    induction products as [|p ps IH]; intros i s l w Hall; cbn [importLoop].
    - unfold ret. cbn [List.length]. now rewrite Nat.add_0_r.
    - run. rewrite (Hall p (or_introl eq_refl)).
      rewrite IH by (intros q Hq; apply Hall; now right).
      cbn [List.length]. now rewrite Nat.add_succ_comm.
Qed.

  (** An import loop that returns leaves the toasts alone, keeps every
      cached name and has every product of the document cached, provided the
      remote answers a card creation with a card of the requested name. *)
Lemma importLoop_returns (products : list ImportProduct) :
    (forall h l n ids d c,
        reply_createCard net h l n ids d = Some c -> card_name c = n) ->
    forall (imported skipped labelsCreated : nat) (w w' : World) r,
      importLoop net products imported skipped labelsCreated w
      = (Returns r, w') ->
      (forall name, productExists (app w) name = true ->
                    productExists (app w') name = true)
      /\ (forall p, In p products ->
                    productExists (app w') (product_name p) = true).
Proof.
    intros Hecho.
    induction products as [|p ps IH]; intros i s l w w' r; cbn [importLoop].
    - unfold ret. intros [= _ <-]. split; [auto|intros p []].
    - run. destruct (productExists (app w) (product_name p)) eqn:Hex.
      + intros Hrun. destruct (IH _ _ _ _ _ _ Hrun) as [Hkeep Hall].
        split; [exact Hkeep|].
        intros q [<-|Hq]; [now apply Hkeep|now apply Hall].
      + destruct (resolveLabels_frame "orange" (product_stores p) [] l w)
          as (r1 & w1 & -> & Hc1 & Ha1 & Hp1 & _).
        destruct (resolveLabels_frame "green" (product_locations p)
                                      (fst r1) (snd r1) w1)
          as (r2 & w2 & -> & Hc2 & Ha2 & Hp2 & _).
        destruct (if product_inList p then activeList (app w2)
                  else allProductsList (app w2)) as [targetList|];
          [|discriminate].
        unfold createCard. run.
        destruct (reply_createCard net (sent w2) (list_id targetList)
                    (product_name p) (fst r2) (product_desc p))
          as [card|] eqn:Hcard; [|discriminate].
        cbn [fst snd app sent toasts]. intros Hrun.
        destruct (IH _ _ _ _ _ _ Hrun) as [Hkeep Hall].
        assert (Hgrow : forall name,
                   productExists (app w) name = true ->
                   productExists (app w') name = true).
        { intros name Hname. apply Hkeep.
          eapply productExists_app; [|exact Hname].
          cbn [app cards set_cards]. now rewrite Hc2, Hc1. }
        split; [exact Hgrow|].
        intros q [<-|Hq]; [|now apply Hall].
        apply Hkeep. unfold productExists. cbn [app cards set_cards].
        rewrite existsb_app. cbn [existsb].
        rewrite (Hecho _ _ _ _ _ _ Hcard).
        rewrite (proj2 (jsstring_eqb_eq _ _) eq_refl).
        now rewrite orb_true_r.
Qed.

Lemma importLoop_toasts (products : list ImportProduct) :
    forall (imported skipped labelsCreated : nat) (w : World),
      toasts (snd (importLoop net products imported skipped labelsCreated w))
      = toasts w.
Proof.
    induction products as [|p ps IH]; intros i s l w; cbn [importLoop].
    - reflexivity.
    - run. destruct (productExists (app w) (product_name p)).
      + apply IH.
      + destruct (resolveLabels_frame "orange" (product_stores p) [] l w)
          as (r1 & w1 & -> & _ & _ & _ & Ht1).
        destruct (resolveLabels_frame "green" (product_locations p)
                                      (fst r1) (snd r1) w1)
          as (r2 & w2 & -> & _ & _ & _ & Ht2).
        destruct (if product_inList p then activeList (app w2)
                  else allProductsList (app w2)) as [targetList|];
          [|cbn [snd]; congruence].
        unfold createCard. run.
        destruct (reply_createCard net (sent w2) (list_id targetList)
                    (product_name p) (fst r2) (product_desc p))
          as [card|]; cbn [fst snd app sent toasts]; [|congruence].
        rewrite IH. cbn [toasts]. congruence.
Qed.

End ImportFacts.

(** [importProducts] on a valid document, in terms of its product loop:
    the report follows a loop that returns, and the redraw that follows the
    report adds the error toast when it throws. *)
Lemma importProducts_run {U : Unicode} (net : Remote)
      (file : option ImportDoc) (products : list ImportProduct) (w : World) :
  validProducts file = Some products ->
  importProducts net file w
  = match importLoop net products 0 0 0
            {| app := app w; sent := sent w;
               toasts := toasts w ++ [ToastImporting] |} with
    | (Returns (imported, skipped, labelsCreated), wl) =>
        (Returns tt,
         {| app := app wl; sent := sent wl;
            toasts := toasts wl
                        ++ ToastImported imported skipped labelsCreated
                        :: (if importRedrawThrows (app wl)
                            then [ToastImportError] else []) |})
    | (Throws _, wl) =>
        (Returns tt,
         {| app := app wl; sent := sent wl;
            toasts := toasts wl ++ [ToastImportError] |})
    end.
Proof.
  intros Hvalid. unfold importProducts, rerenderStoreDetail. rewrite Hvalid.
  run.
  destruct (importLoop net products 0 0 0 _) as [[[[i s] l]|e] wl];
    [|reflexivity].
  cbn [fst snd app sent toasts]. unfold importRedrawThrows, detailRedrawThrows.
  destruct (currentView (app wl)); cbn [fst snd app sent toasts].
  - reflexivity.
  - destruct (currentStore (app wl)); [reflexivity|].
    destruct (activeList (app wl)); [|reflexivity].
    destruct (allProductsList (app wl)); [|reflexivity].
    destruct (cards (app wl)); [reflexivity|].
    cbn [fst snd app sent toasts]. now rewrite <- app_assoc.
  - reflexivity.
Qed.

Lemma importProducts_all_cached {U : Unicode} (net : Remote)
      (file : option ImportDoc) (products : list ImportProduct) (w : World) :
  validProducts file = Some products ->
  (forall p, In p products ->
             productExists (app w) (product_name p) = true) ->
  let w' := snd (importProducts net file w) in
  sent w' = sent w
  /\ cards (app w') = cards (app w)
  /\ toasts w'
     = toasts w
         ++ [ToastImporting; ToastImported 0 (List.length products) 0]
         ++ (if importRedrawThrows (app w) then [ToastImportError] else []).
Proof.
  intros Hvalid Hall. rewrite (importProducts_run net file products w Hvalid).
  rewrite importLoop_skip_all by exact Hall.
  cbn [fst snd app sent toasts]. repeat split.
  now rewrite <- app_assoc.
Qed.

Lemma find_all_false {A} (p : A -> bool) (l : list A) :
  (forall x, In x l -> p x = false) -> find p l = None.
Proof.
  induction l as [|x l IH]; cbn [find]; intros H; [reflexivity|].
  rewrite (H x (or_introl eq_refl)). apply IH. intros y Hy. apply H. now right.
Qed.

Lemma find_first {A} (p : A -> bool) (before after : list A) (x : A) :
  p x = true -> (forall y, In y before -> p y = false) ->
  find p (before ++ x :: after) = Some x.
Proof.
  intros Hx. induction before as [|y before IH]; intros Hbefore;
    cbn [List.app find].
  - now rewrite Hx.
  - rewrite (Hbefore y (or_introl eq_refl)). apply IH.
    intros z Hz. apply Hbefore. now right.
Qed.

(** C10.  Import resolves a referenced label (of a store or of a location)
    by exact name against the cached labels.  When a cached label has the
    name itself, the first such label is the one used and nothing is
    requested or created.  When none has, be there one whose name differs
    only in letter case, the label is requested; if the remote creates it,
    it is appended to the cache, counted, and its identifier is the one
    used; if the remote rejects it, the reference is left out.  The
    duplicate check of the products compares lower-cased names: a product
    whose name differs only in case from a cached card's is skipped without
    a request. *)
Theorem import_label_case_sensitive :
  forall (U : Unicode) (net : Remote) (w : World),
    (forall dflt r refs ids n before label after,
        labels (app w) = before ++ label :: after ->
        label_name label = ref_name r ->
        (forall l, In l before -> label_name l <> ref_name r) ->
        resolveLabels net dflt (r :: refs) ids n w
        = resolveLabels net dflt refs (ids ++ [label_id label]) n w)
    /\ (forall dflt r refs ids n existing created,
           In existing (labels (app w)) ->
           toLowerCase (label_name existing) = toLowerCase (ref_name r) ->
           (forall l, In l (labels (app w)) -> label_name l <> ref_name r) ->
           reply_createLabel net (sent w) (selectedBoardId (app w))
                             (ref_name r) (ref_color dflt r) = Some created ->
           resolveLabels net dflt (r :: refs) ids n w
           = resolveLabels net dflt refs (ids ++ [label_id created]) (S n)
               {| app := set_labels (labels (app w) ++ [created]) (app w);
                  sent := sent w ++ [ReqCreateLabel (selectedBoardId (app w))
                                        (ref_name r) (ref_color dflt r)];
                  toasts := toasts w |})
    /\ (forall dflt r refs ids n,
           (forall l, In l (labels (app w)) -> label_name l <> ref_name r) ->
           reply_createLabel net (sent w) (selectedBoardId (app w))
                             (ref_name r) (ref_color dflt r) = None ->
           resolveLabels net dflt (r :: refs) ids n w
           = resolveLabels net dflt refs ids n
               {| app := app w;
                  sent := sent w ++ [ReqCreateLabel (selectedBoardId (app w))
                                        (ref_name r) (ref_color dflt r)];
                  toasts := toasts w |})
    /\ (forall p rest imported skipped labelsCreated c,
           In c (cards (app w)) ->
           toLowerCase (card_name c) = toLowerCase (product_name p) ->
           importLoop net (p :: rest) imported skipped labelsCreated w
           = importLoop net rest imported (S skipped) labelsCreated w).
Proof.
  intros U net w.
  assert (Hnone : forall r,
             (forall l, In l (labels (app w)) -> label_name l <> ref_name r) ->
             find (fun l => jsstring_eqb (label_name l) (ref_name r))
                  (labels (app w)) = None).
  { intros r Hno. apply find_all_false. intros l Hl.
    destruct (jsstring_eqb (label_name l) (ref_name r)) eqn:E;
      [|reflexivity].
    apply jsstring_eqb_eq in E. now apply Hno in Hl. }
  split; [|split; [|split]].
  - intros dflt r refs ids n before label after Hlabels Hname Hbefore.
    cbn [resolveLabels]. run. rewrite Hlabels.
    rewrite find_first; [reflexivity| |].
    + now apply jsstring_eqb_eq.
    + intros l Hl. destruct (jsstring_eqb (label_name l) (ref_name r)) eqn:E;
        [|reflexivity].
      apply jsstring_eqb_eq in E. now apply Hbefore in Hl.
  - intros dflt r refs ids n existing created _ _ Hno Hreply.
    cbn [resolveLabels]. unfold createLabel, pushLabel. run.
    rewrite (Hnone r Hno), Hreply. reflexivity.
  - intros dflt r refs ids n Hno Hreply.
    cbn [resolveLabels]. unfold createLabel, pushLabel. run.
    rewrite (Hnone r Hno), Hreply. reflexivity.
  - intros p rest i s l c Hc Hlower. cbn [importLoop]. run.
    replace (productExists (app w) (product_name p)) with true; [reflexivity|].
    symmetry. unfold productExists. apply existsb_exists.
    exists c. split; [exact Hc|]. now apply jsstring_eqb_eq.
Qed.

Lemma import_label_case_sensitive_witness :
  let net := online {| board_id := "b"; board_name := js "Compras" |}
                    [catalogList; shoppingList] [] [mercadona; nevera] in
  let w := world (shopApp [leche "L1"] []) in
  fst (@resolveLabels net "orange" [RefName (js "Mercadona")] [] 0 w)
  = Returns (["S1"%string], 0)
  /\ fst (@resolveLabels net "orange" [RefName (js "mercadona")] [] 0 w)
     = Returns (["n"%string], 1)
  /\ fst (@importLoop Latin1.tables net
            [{| product_name := js "LECHE ENTERA"; product_desc := [];
                product_stores := []; product_locations := [];
                product_inList := false |}] 0 0 0 w)
     = Returns (0, 1, 0).
Proof.
  intros net w.
  destruct (import_label_case_sensitive Latin1.tables net w)
    as (Hreuse & Hlabel & _ & Hcard).
  split; [|split].
  - rewrite (Hreuse "orange"%string (RefName (js "Mercadona")) [] [] 0
               [] mercadona [nevera]).
    + reflexivity.
    + reflexivity.
    + reflexivity.
    + intros l [].
  - rewrite (Hlabel "orange"%string (RefName (js "mercadona")) [] [] 0
               mercadona
               {| label_id := "n"; label_name := js "mercadona";
                  label_color := "orange" |}).
    + reflexivity.
    + now left.
    + reflexivity.
    + intros l [<-|[<-|[]]]; discriminate.
    + reflexivity.
  - rewrite (Hcard _ [] 0 0 0 (leche "L1")).
    + reflexivity.
    + now left.
    + reflexivity.
Defined.

(* ================================================================== *)
(** * Search: prefix match on words *)
(* ================================================================== *)

Lemma startsWith_prefix (w q : jsstring) :
  startsWith w q = true <-> isPrefixOf q w.
Proof.
  unfold isPrefixOf. revert w.
  induction q as [|c q IH]; intros w; cbn [startsWith].
  - split; [intros _; now exists w|reflexivity].
  - destruct w as [|d w].
    + split; [discriminate|intros [r Hr]; discriminate].
    + rewrite andb_true_iff, N.eqb_eq, IH. split.
      * intros [-> [r ->]]. now exists r.
      * intros [r [= -> ->]]. split; [reflexivity|now exists r].
Qed.

Lemma endsWithWhiteSpace_cons (c : N) (s : jsstring) :
  endsWithWhiteSpace s -> endsWithWhiteSpace (c :: s).
Proof. intros (p & d & -> & Hd). now exists (c :: p), d. Qed.

(** A string that starts with white space splits into an empty first
    piece. *)
Lemma split_ws_leading (s : jsstring) :
  startsWithWhiteSpace s -> exists rest, split_ws s = [] :: rest.
Proof.
  induction s as [|c s IH]; intros (d & p & Hs & Hd); [discriminate|].
  injection Hs as -> ->. cbn [split_ws]. rewrite Hd.
  destruct p as [|c' p]; [now eexists|].
  destruct (isWhiteSpace c') eqn:Hc'; [|now eexists].
  apply IH. now exists c', p.
Qed.

(** The first piece is the stretch up to the first white space. *)
Lemma split_ws_first (w post : jsstring) :
  noWhiteSpace w ->
  post = [] \/ startsWithWhiteSpace post ->
  exists rest, split_ws (w ++ post) = w :: rest.
Proof.
  intros Hw Hpost. induction Hw as [|c w Hc Hw IH]; cbn [List.app].
  - destruct Hpost as [->|Hpost]; [now exists []|].
    now apply split_ws_leading.
  - cbn [split_ws]. rewrite Hc. destruct IH as [rest ->]. now exists rest.
Qed.

Lemma split_ws_head (s : jsstring) :
  exists w0 rest post,
    split_ws s = w0 :: rest /\ s = w0 ++ post /\ noWhiteSpace w0
    /\ (post = [] \/ startsWithWhiteSpace post).
Proof.
  induction s as [|c s IH].
  - exists [], [], []. repeat split; [constructor|now left].
  - cbn [split_ws]. destruct (isWhiteSpace c) eqn:Hc.
    + assert (Hlead : startsWithWhiteSpace (c :: s)) by now exists c, s.
      destruct s as [|c' s']; [|destruct (isWhiteSpace c') eqn:Hc'].
      * exists [], [[]], [c]. repeat split; [constructor|now right].
      * destruct (split_ws_leading (c' :: s')) as [rest Hrest];
          [now exists c', s'|].
        exists [], rest, (c :: c' :: s').
        repeat split; [exact Hrest|constructor|now right].
      * exists [], (split_ws (c' :: s')), (c :: c' :: s').
        repeat split; [constructor|now right].
    + destruct IH as (w0 & rest & post & -> & -> & Hw0 & Hpost).
      exists (c :: w0), rest, post.
      repeat split; [now constructor|exact Hpost].
Qed.

(** Every later piece is a word with white space in front of it. *)
Lemma split_ws_tail (s : jsstring) :
  forall w, In w (tl (split_ws s)) ->
    exists pre post,
      s = pre ++ w ++ post /\ noWhiteSpace w /\ endsWithWhiteSpace pre
      /\ (post = [] \/ startsWithWhiteSpace post).
Proof.
  induction s as [|c s IH]; intros w Hin; [destruct Hin|].
  cbn [split_ws] in Hin.
  assert (Hcons : forall pre post,
             s = pre ++ w ++ post /\ noWhiteSpace w /\ endsWithWhiteSpace pre
             /\ (post = [] \/ startsWithWhiteSpace post) ->
             exists pre post,
               c :: s = pre ++ w ++ post /\ noWhiteSpace w
               /\ endsWithWhiteSpace pre
               /\ (post = [] \/ startsWithWhiteSpace post)).
  { intros pre post (-> & Hw & Hpre & Hpost). exists (c :: pre), post.
    repeat split; [exact Hw|now apply endsWithWhiteSpace_cons|exact Hpost]. }
  destruct (isWhiteSpace c) eqn:Hc.
  - assert (Hall : In w (split_ws s) ->
               exists pre post,
                 c :: s = pre ++ w ++ post /\ noWhiteSpace w
                 /\ endsWithWhiteSpace pre
                 /\ (post = [] \/ startsWithWhiteSpace post)).
    { intros Hw.
      destruct (split_ws_head s) as (w0 & rest & post & Hsplit & Hs & Hw0 & Hp).
      rewrite Hsplit in Hw. destruct Hw as [<-|Hw].
      - exists [c], post. rewrite Hs.
        repeat split; [exact Hw0|now exists [], c|exact Hp].
      - destruct (IH w) as (pre' & post' & H'); [now rewrite Hsplit|].
        now apply (Hcons pre' post'). }
    destruct s as [|c' s']; [exact (Hall Hin)|].
    destruct (isWhiteSpace c') eqn:Hc'; [|exact (Hall Hin)].
    destruct (IH w Hin) as (pre' & post' & H'). now apply (Hcons pre' post').
  - destruct (split_ws_head s) as (w0 & rest & post & Hsplit & _).
    rewrite Hsplit in Hin. cbn [tl] in Hin.
    destruct (IH w) as (pre' & post' & H'); [now rewrite Hsplit|].
    now apply (Hcons pre' post').
Qed.

Lemma split_ws_words (s w : jsstring) : In w (split_ws s) -> WordOf w s.
Proof.
  intros Hin.
  destruct (split_ws_head s) as (w0 & rest & post & Hsplit & Hs & Hw0 & Hp).
  pose proof (split_ws_tail s w) as Htail. rewrite Hsplit in Hin, Htail.
  destruct Hin as [<-|Hin].
  - exists [], post. repeat split; [exact Hs|exact Hw0|now left|exact Hp].
  - destruct (Htail Hin) as (pre' & post' & Hs' & Hw & Hpre & Hpost).
    exists pre', post'. repeat split; [exact Hs'|exact Hw|now right|exact Hpost].
Qed.

(** A non-empty word preceded by white space is one of the later pieces. *)
Lemma split_ws_later (p : jsstring) (c : N) (w post : jsstring) :
  isWhiteSpace c = true -> noWhiteSpace w -> w <> [] ->
  post = [] \/ startsWithWhiteSpace post ->
  In w (tl (split_ws (p ++ c :: w ++ post))).
Proof.
  intros Hc Hw Hne Hpost.
  destruct (split_ws_first w post Hw Hpost) as [rest Hfirst].
  induction p as [|d p IH]; cbn [List.app].
  - cbn [split_ws]. rewrite Hc.
    destruct w as [|x w]; [contradiction|]. cbn [List.app] in *.
    inversion Hw as [|? ? Hx _]; subst. rewrite Hx, Hfirst. now left.
  - cbn [split_ws]. remember (p ++ c :: w ++ post) as s eqn:Hs.
    destruct (isWhiteSpace d).
    + destruct s as [|c' s']; [destruct p; discriminate|].
      destruct (isWhiteSpace c'); [exact IH|].
      cbn [tl]. destruct (split_ws (c' :: s')); [destruct IH|].
      right. exact IH.
    + destruct (split_ws s) as [|w0 rest0]; [destruct IH|exact IH].
Qed.

Lemma words_split_ws (s w : jsstring) :
  WordOf w s -> w <> [] -> In w (split_ws s).
Proof.
  intros (pre & post & -> & Hw & Hpre & Hpost) Hne.
  destruct Hpre as [->|(p & c & -> & Hc)].
  - destruct (split_ws_first w post Hw Hpost) as [rest Hfirst].
    cbn [List.app]. rewrite Hfirst. now left.
  - rewrite <- app_assoc. cbn [List.app].
    pose proof (split_ws_later p c w post Hc Hw Hne Hpost) as Hin.
    destruct (split_ws (p ++ c :: w ++ post)); [destruct Hin|].
    right. exact Hin.
Qed.

Lemma normalizeString_empty {U : Unicode} : normalizeString [] = [].
Proof.
  unfold normalizeString. rewrite normalizeNFD_empty. cbn [stripCombiningMarks filter].
  apply toLowerCase_empty.
Qed.

Lemma existsb_startsWith (words : list jsstring) (query : jsstring) :
  existsb (fun word => startsWith word query) words = true
  <-> exists w, In w words /\ isPrefixOf query w.
Proof.
  rewrite existsb_exists. split; intros (w & Hin & Hw); exists w;
    (split; [exact Hin|now apply startsWith_prefix]).
Qed.

Lemma words_prefix_split_ws (s q : jsstring) :
  (exists w, WordOf w s /\ isPrefixOf q w)
  <-> exists w, In w (split_ws s) /\ isPrefixOf q w.
Proof.
  split.
  - intros (w & Hword & Hq). destruct w as [|c w].
    + destruct Hq as [r Hr]. symmetry in Hr.
      apply app_eq_nil in Hr as [-> _].
      destruct (split_ws_head s) as (w0 & rest & _ & -> & _).
      exists w0. split; [now left|now exists w0].
    + exists (c :: w). split; [|exact Hq].
      apply words_split_ws; [exact Hword|discriminate].
  - intros (w & Hin & Hq). exists w. split; [|exact Hq].
    now apply split_ws_words.
Qed.

(** C6, as stated, fails: the code trims the search text before it
    normalizes it, so "le " (with a trailing space) matches "Leche Entera",
    although "le " normalized is a prefix of no word. *)
Lemma search_trailing_space_counterexample :
  @matchesSearch Latin1.tables (js "le ") (js "Leche Entera") = true
  /\ ~ @matchesAsStated Latin1.tables (js "le ") (js "Leche Entera").
Proof.
  split; [reflexivity|].
  intros (w & (_ & _ & _ & Hw & _) & (r & ->)).
  change (@normalizeString Latin1.tables (js "le "))
    with [108; 101; 32]%N in Hw.
  cbn [List.app] in Hw.
  inversion Hw as [|? ? _ Hw1]; subst.
  inversion Hw1 as [|? ? _ Hw2]; subst.
  inversion Hw2 as [|? ? Hspace _]; subst.
  discriminate Hspace.
Qed.

(** C6, amended.  A product matches the search text if and only if the
    normalized form of the trimmed search text is a prefix of a
    white-space-delimited word of the normalized product name; "le" matches
    "Leche Entera" and "che" does not. *)
Theorem search_prefix_match :
  forall (U : Unicode) (searchQuery name : jsstring),
    (matchesSearch searchQuery name = true
     <-> exists w, WordOf w (normalizeString name)
                   /\ isPrefixOf (normalizeString (trim searchQuery)) w)
    /\ @matchesSearch Latin1.tables (js "le") (js "Leche Entera") = true
    /\ @matchesSearch Latin1.tables (js "che") (js "Leche Entera") = false.
Proof.
  intros U searchQuery name. split; [|split; reflexivity].
  rewrite words_prefix_split_ws.
  destruct searchQuery as [|c q]; cbn [matchesSearch].
  - split; [intros _|reflexivity].
    change (trim []) with (@nil N). rewrite normalizeString_empty.
    destruct (split_ws_head (normalizeString name)) as (w0 & rest & _ & -> & _).
    exists w0. split; [now left|now exists w0].
  - apply existsb_startsWith.
Qed.

(* ================================================================== *)
(** * Toggles: further properties *)
(* ================================================================== *)

(** The application object and the requests after a toggle in the other
    views whose move the remote accepts. *)
Lemma toggleCardActive_moved (net : Remote) (w : World) (id : string) (now : N)
      (card : Card) (al ap : TList) :
  findCard id (cards (app w)) = Some card ->
  activeList (app w) = Some al ->
  allProductsList (app w) = Some ap ->
  (forall h l, reply_moveCard net h id l = true) ->
  app (snd (toggleCardActive net id now w))
  = (if String.eqb (card_idList card) (list_id al)
     then set_recentProducts
            (pushRecent id now (recentProducts (app w)))
            (set_cards (updateFirst (fun c => String.eqb (card_id c) id)
                                    (set_card_idList (list_id ap))
                                    (cards (app w))) (app w))
     else set_cards (updateFirst (fun c => String.eqb (card_id c) id)
                                 (set_card_idList (list_id al))
                                 (cards (app w))) (app w)).
Proof.
  intros Hfind Hal Hap Hok.
  unfold toggleCardActive, setCardList, addToRecentProducts, moveCard. run.
  rewrite Hfind, Hal.
  destruct (String.eqb (card_idList card) (list_id al)).
  - rewrite Hap. cbn [fst snd app sent toasts]. rewrite Hok. reflexivity.
  - cbn [fst snd app sent toasts]. rewrite Hok. reflexivity.
Qed.

Lemma set_card_idList_twice (u v : string) (c : Card) :
  set_card_idList u (set_card_idList v c) = set_card_idList u c.
Proof. reflexivity. Qed.

Lemma set_card_idList_same (c : Card) : set_card_idList (card_idList c) c = c.
Proof. now destruct c. Qed.

(** The card cache after two accepted toggles through [step], a function
    that behaves on the application object as [toggleProduct_moved] and
    [toggleCardActive_moved] say. *)
Lemma two_moves_restore (a : App) (id : string) (card : Card) (al ap : TList)
      (c1 c2 : list Card) :
  card_id card = id ->
  (forall y, In y c1 -> card_id y <> id) ->
  card_idList card = list_id al \/ card_idList card = list_id ap ->
  let target c := if String.eqb (card_idList c) (list_id al)
                  then list_id ap else list_id al in
  let card1 := set_card_idList (target card) card in
  updateFirst (fun c => String.eqb (card_id c) id)
              (set_card_idList (target card1))
              (c1 ++ card1 :: c2)
  = c1 ++ card :: c2.
Proof.
  intros Hid Hc1 Hin target card1.
  rewrite updateFirst_split by assumption.
  f_equal. f_equal. subst card1 target. cbn [card_idList set_card_idList].
  rewrite set_card_idList_twice.
  destruct (String.eqb (card_idList card) (list_id al)) eqn:E1.
  - apply String.eqb_eq in E1.
    destruct (String.eqb (list_id ap) (list_id al)) eqn:E2.
    + apply String.eqb_eq in E2. rewrite E2, <- E1.
      apply set_card_idList_same.
    + rewrite <- E1. apply set_card_idList_same.
  - rewrite String.eqb_refl.
    destruct Hin as [Hin|Hin].
    + rewrite Hin, String.eqb_refl in E1. discriminate.
    + rewrite <- Hin. apply set_card_idList_same.
Qed.

Lemma movesCard_twice (toggle : Remote -> string -> N -> M unit) :
  movesCard toggle ->
  forall net w id t1 t2 card al ap,
    findCard id (cards (app w)) = Some card ->
    activeList (app w) = Some al ->
    allProductsList (app w) = Some ap ->
    list_id al <> list_id ap ->
    card_idList card = list_id al \/ card_idList card = list_id ap ->
    (forall h l, reply_moveCard net h id l = true) ->
    let w2 := snd (toggle net id t2 (snd (toggle net id t1 w))) in
    cards (app w2) = cards (app w)
    /\ recentProducts (app w2)
       = pushRecent id (if String.eqb (card_idList card) (list_id al)
                        then t1 else t2)
                    (recentProducts (app w)).
Proof.
  intros Hmoves net w id t1 t2 card al ap Hfind Hal Hap Hneq Hin Hok w2.
  destruct (findCard_split _ _ _ Hfind) as [Hid (c1 & c2 & Hcs & Hc1)].
  pose proof (two_moves_restore (app w) id card al ap c1 c2 Hid Hc1 Hin)
    as Hrestore. cbv zeta in Hrestore.
  pose proof (Hmoves net w id t1 card al ap Hfind Hal Hap Hok) as H1.
  set (w1 := snd (toggle net id t1 w)) in *.
  set (card1 := set_card_idList
                  (if String.eqb (card_idList card) (list_id al)
                   then list_id ap else list_id al) card) in *.
  assert (Hcards1 : cards (app w1) = c1 ++ card1 :: c2).
  { rewrite H1, Hcs. subst card1.
    destruct (String.eqb (card_idList card) (list_id al));
      cbn [cards set_cards set_recentProducts];
      now rewrite updateFirst_split. }
  assert (Hlists1 : activeList (app w1) = Some al
                    /\ allProductsList (app w1) = Some ap).
  { rewrite H1.
    destruct (String.eqb (card_idList card) (list_id al)); now split. }
  assert (Hfind1 : findCard id (cards (app w1)) = Some card1).
  { rewrite Hcards1. now apply findCard_at. }
  pose proof (Hmoves net w1 id t2 card1 al ap Hfind1 (proj1 Hlists1)
                (proj2 Hlists1) Hok) as H2.
  subst w2. rewrite H2. rewrite Hcards1, Hcs.
  assert (Hrec1 : recentProducts (app w1)
                  = if String.eqb (card_idList card) (list_id al)
                    then pushRecent id t1 (recentProducts (app w))
                    else recentProducts (app w)).
  { rewrite H1.
    destruct (String.eqb (card_idList card) (list_id al)); reflexivity. }
  subst card1. cbn [card_idList set_card_idList] in *.
  destruct (String.eqb (card_idList card) (list_id al)) eqn:E.
  - replace (String.eqb (list_id ap) (list_id al)) with false in *
      by (symmetry; apply String.eqb_neq; congruence).
    cbn [cards set_cards recentProducts]. split; [exact Hrestore|exact Hrec1].
  - rewrite String.eqb_refl in *.
    cbn [cards set_cards set_recentProducts recentProducts].
    split; [exact Hrestore|now rewrite Hrec1].
Qed.

(** X1.  Toggling a product of one of the two lists twice, both moves
    accepted, gives back the card cache as it was, through either toggle;
    the product is pushed to the recent-products log once, by the toggle
    that removed it from the active list. *)
Theorem toggle_twice_restores :
  forall (net : Remote) (w : World) (id : string) (t1 t2 : N) (card : Card)
         (al ap : TList),
    findCard id (cards (app w)) = Some card ->
    activeList (app w) = Some al ->
    allProductsList (app w) = Some ap ->
    list_id al <> list_id ap ->
    card_idList card = list_id al \/ card_idList card = list_id ap ->
    (forall h l, reply_moveCard net h id l = true) ->
    let removedAt :=
      if String.eqb (card_idList card) (list_id al) then t1 else t2 in
    let w2 := snd (toggleProduct net id t2 (snd (toggleProduct net id t1 w))) in
    let w2' := snd (toggleCardActive net id t2
                      (snd (toggleCardActive net id t1 w))) in
    (cards (app w2) = cards (app w)
     /\ recentProducts (app w2)
        = pushRecent id removedAt (recentProducts (app w)))
    /\ (cards (app w2') = cards (app w)
        /\ recentProducts (app w2')
           = pushRecent id removedAt (recentProducts (app w))).
Proof.
  intros net w id t1 t2 card al ap Hfind Hal Hap Hneq Hin Hok
         removedAt w2 w2'.
  split.
  - apply (movesCard_twice toggleProduct toggleProduct_moved
             net w id t1 t2 card al ap); assumption.
  - apply (movesCard_twice toggleCardActive toggleCardActive_moved
             net w id t1 t2 card al ap); assumption.
Qed.

Lemma toggle_twice_restores_witness :
  let net := online {| board_id := "b"; board_name := js "Compras" |}
                    [catalogList; shoppingList] [] [mercadona; nevera] in
  let w := world (shopApp [pan "L1"; leche "L2"] []) in
  cards (app (snd (toggleCardActive net "c1" 2%N
                     (snd (toggleCardActive net "c1" 1%N w)))))
  = [pan "L1"; leche "L2"]
  /\ recentProducts (app (snd (toggleCardActive net "c1" 2%N
                                 (snd (toggleCardActive net "c1" 1%N w)))))
     = [{| cardId := "c1"; timestamp := 1%N |}].
Proof.
  intros net w.
  destruct (toggle_twice_restores net w "c1" 1%N 2%N (leche "L2")
              shoppingList catalogList) as [_ [Hcards Hlog]];
    try reflexivity; [discriminate|now left|].
  split; [exact Hcards|exact Hlog].
Defined.

(** X2.  A toggle of an identifier that no cached card has returns at once:
    no request, no toast, nothing changed.  With a cached card and no active
    list resolved, either toggle throws before it touches the cache or the
    network. *)
Theorem toggle_nothing_to_do :
  forall (net : Remote) (w : World) (id : string) (now : N),
    (findCard id (cards (app w)) = None ->
     toggleProduct net id now w = (Returns tt, w)
     /\ toggleCardActive net id now w = (Returns tt, w))
    /\ (activeList (app w) = None ->
        findCard id (cards (app w)) <> None ->
        toggleProduct net id now w = (Throws TypeError, w)
        /\ toggleCardActive net id now w = (Throws TypeError, w)).
Proof.
  intros net w id now. split.
  - intros Hnone. unfold toggleProduct, toggleCardActive. run.
    rewrite Hnone. split; reflexivity.
  - intros Hal Hsome. unfold toggleProduct, toggleCardActive. run.
    destruct (findCard id (cards (app w))); [|contradiction].
    rewrite Hal. split; reflexivity.
Qed.

Lemma toggle_nothing_to_do_witness :
  toggleCardActive offline "zz" 1%N (world (shopApp [leche "L1"] []))
  = (Returns tt, world (shopApp [leche "L1"] []))
  /\ toggleProduct offline "c1" 1%N
       (world (set_cards [leche "L1"] (initialApp "b")))
     = (Throws TypeError, world (set_cards [leche "L1"] (initialApp "b"))).
Proof.
  split.
  - apply (toggle_nothing_to_do offline (world (shopApp [leche "L1"] []))
             "zz" 1%N). reflexivity.
  - apply (toggle_nothing_to_do offline
             (world (set_cards [leche "L1"] (initialApp "b"))) "c1" 1%N);
      [reflexivity|discriminate].
Defined.

(** X3.  When the remote accepts the move, [toggleProduct] and
    [toggleCardActive] leave the same application object and have sent the
    same requests; they differ in the toast only. *)
Theorem toggles_agree_when_accepted :
  forall (net : Remote) (w : World) (id : string) (now : N),
    (forall h l, reply_moveCard net h id l = true) ->
    app (snd (toggleProduct net id now w))
    = app (snd (toggleCardActive net id now w))
    /\ sent (snd (toggleProduct net id now w))
       = sent (snd (toggleCardActive net id now w))
    /\ toasts (snd (toggleProduct net id now w)) = toasts w.
Proof.
  intros net w id now Hok.
  unfold toggleProduct, toggleCardActive, setCardList, addToRecentProducts,
    moveCard. run.
  destruct (findCard id (cards (app w))) as [card|]; [|repeat split].
  destruct (activeList (app w)) as [al|]; [|repeat split].
  destruct (String.eqb (card_idList card) (list_id al)).
  - destruct (allProductsList (app w)) as [ap|]; [|repeat split].
    cbn [fst snd app sent toasts]. rewrite Hok. repeat split.
  - cbn [fst snd app sent toasts]. rewrite Hok. repeat split.
Qed.

Lemma toggles_agree_when_accepted_witness :
  let net := online {| board_id := "b"; board_name := js "Compras" |}
                    [catalogList; shoppingList] [] [mercadona; nevera] in
  let w := world (shopApp [pan "L1"; leche "L2"] []) in
  app (snd (toggleProduct net "c1" 1%N w))
  = app (snd (toggleCardActive net "c1" 1%N w)).
Proof.
  intros net w.
  apply (toggles_agree_when_accepted net w "c1" 1%N). reflexivity.
Defined.

(* ================================================================== *)
(** * What the views display *)
(* ================================================================== *)

Lemma availableCards_In {U : Unicode} (a : App) (ap : TList)
      (storeLabel : Label) (c : Card) :
  In c (sortedAvailableCards a ap storeLabel)
  <-> In c (cards a)
      /\ includes (card_idLabels c) (label_id storeLabel) = true
      /\ card_idList c = list_id ap
      /\ matchesSearch (searchQuery a) (card_name c) = true.
Proof.
  unfold sortedAvailableCards, availableCards. split.
  - intros Hin. apply (Permutation_in _ (sort_perm _ _)) in Hin.
    apply filter_In in Hin as [Hin Hs]. apply filter_In in Hin as [Hin Hl].
    apply filter_In in Hin as [Hin Hlab]. apply String.eqb_eq in Hl. auto.
  - intros (Hin & Hlab & Hl & Hs).
    apply (Permutation_in _ (Permutation_sym (sort_perm _ _))).
    apply filter_In. split; [|exact Hs].
    apply filter_In. split; [|now apply String.eqb_eq].
    apply filter_In. now split.
Qed.

(** X4.  What the store detail displays.  It is the loading state exactly
    when one of the two lists is unresolved.  Otherwise the active section
    holds the cached cards of the active list that carry the store's label,
    in cache order and whatever the search text is; the available section
    holds exactly the cards of the catalog list that carry the label and
    match the search text; and the empty state is shown exactly when both
    are empty. *)
Theorem store_detail_sections :
  forall (U : Unicode) (a : App) (storeLabel : Label),
    match renderStoreDetail a storeLabel with
    | DetailLoading => activeList a = None \/ allProductsList a = None
    | DetailEmpty searching =>
        exists al ap,
          activeList a = Some al /\ allProductsList a = Some ap
          /\ searching = negb (jsstring_eqb (searchQuery a) [])
          /\ (forall c, In c (cards a) ->
                        includes (card_idLabels c) (label_id storeLabel) = true ->
                        card_idList c <> list_id al)
          /\ sortedAvailableCards a ap storeLabel = []
    | DetailProducts activeCards searchValue available =>
        exists al ap,
          activeList a = Some al /\ allProductsList a = Some ap
          /\ searchValue = searchQuery a
          /\ activeCards
             = filter (fun c => String.eqb (card_idList c) (list_id al))
                 (filter (fun c => includes (card_idLabels c)
                                            (label_id storeLabel)) (cards a))
          /\ (activeCards <> [] \/ available <> [])
          /\ forall c,
               In c available
               <-> In c (cards a)
                   /\ includes (card_idLabels c) (label_id storeLabel) = true
                   /\ card_idList c = list_id ap
                   /\ matchesSearch (searchQuery a) (card_name c) = true
    end.
Proof.
  intros U a storeLabel. unfold renderStoreDetail.
  destruct (activeList a) as [al|]; [|now left].
  destruct (allProductsList a) as [ap|]; [|now right].
  destruct (filter (fun c => String.eqb (card_idList c) (list_id al)) _)
    as [|x ac] eqn:Hac.
  - destruct (availableCards a ap storeLabel) as [|y av] eqn:Hav.
    + exists al, ap.
      split; [reflexivity|]. split; [reflexivity|].
      split; [now destruct (searchQuery a)|]. split.
      * intros c Hin Hlab Hl.
        assert (Hc : In c []); [|destruct Hc].
        rewrite <- Hac. apply filter_In. split.
        -- apply filter_In. now split.
        -- now apply String.eqb_eq.
      * unfold sortedAvailableCards. now rewrite Hav.
    + exists al, ap.
      split; [reflexivity|]. split; [reflexivity|]. split; [reflexivity|].
      split; [symmetry; exact Hac|]. split; [|apply availableCards_In].
      right. unfold sortedAvailableCards. rewrite Hav. intros Hnil.
      pose proof (Permutation_length
                    (sort_perm (compareRecent (recentProducts a)) (y :: av)))
        as Hlen.
      rewrite Hnil in Hlen. discriminate.
  - exists al, ap.
    split; [reflexivity|]. split; [reflexivity|]. split; [reflexivity|].
    split; [symmetry; exact Hac|]. split; [|apply availableCards_In].
    left. discriminate.
Qed.

Lemma StronglySorted_map {A B} (f : A -> B) (R : B -> B -> Prop) (l : list A) :
  StronglySorted (fun u v => R (f u) (f v)) l -> StronglySorted R (map f l).
Proof.
  induction 1 as [|x l Hs IH Hall]; cbn [map]; constructor; [exact IH|].
  apply Forall_map. exact Hall.
Qed.

Lemma StronglySorted_weaken {A} (R R' : A -> A -> Prop) (l : list A) :
  (forall u v, R u v -> R' u v) -> StronglySorted R l -> StronglySorted R' l.
Proof.
  intros Himp. induction 1 as [|x l Hs IH Hall]; constructor; [exact IH|].
  eapply Forall_impl; [|exact Hall]. intros v. apply Himp.
Qed.

Lemma activeCount_le_totalCount (a : App) (al : TList) (labelId : string) :
  activeCount a al labelId <= totalCount a labelId.
Proof.
  unfold activeCount, totalCount.
  induction (cards a) as [|c cs IH]; cbn [filter]; [apply le_n|].
  destruct (includes (card_idLabels c) labelId);
    destruct (String.eqb (card_idList c) (list_id al));
    cbn [andb List.length]; lia.
Qed.

(** X5.  What the store grid displays.  It is the loading state exactly
    when the active list is unresolved; with the active list resolved it is
    the empty state exactly when no cached label bears a configured store's
    name, and a grid exactly when one does.  The grid is never empty: it has
    one tile per such label, the tiles come by decreasing number of the
    store's products on the active list, and each tile shows that number and
    the number of the store's products in all, the first never above the
    second. *)
Theorem store_grid_tiles :
  forall (a : App),
    match renderStoreCards a with
    | StoresLoading => activeList a = None
    | StoresEmpty =>
        activeList a <> None
        /\ forall l, In l (labels a) -> isStoreLabel a l = false
    | StoresGrid tiles =>
        exists al,
          activeList a = Some al
          /\ tiles <> []
          /\ (exists l, In l (labels a) /\ isStoreLabel a l = true)
          /\ Permutation (map (fun t => fst (fst t)) tiles)
                         (filter (isStoreLabel a) (labels a))
          /\ StronglySorted ge (map (fun t => snd (fst t)) tiles)
          /\ Forall (fun t =>
                       snd (fst t) = activeCount a al (label_id (fst (fst t)))
                       /\ snd t = totalCount a (label_id (fst (fst t)))
                       /\ snd (fst t) <= snd t) tiles
    end.
Proof.
  intros a. unfold renderStoreCards.
  destruct (activeList a) as [al|]; [|reflexivity].
  fold (isStoreLabel a).
  change (fun l => includes_name (getStoreNames a) (label_name l))
    with (isStoreLabel a).
  destruct (filter (isStoreLabel a) (labels a)) as [|l0 ls] eqn:Hf.
  - split; [discriminate|]. intros l Hl.
    destruct (isStoreLabel a l) eqn:E; [|reflexivity].
    assert (Hin : In l []); [|destruct Hin].
    rewrite <- Hf. apply filter_In. now split.
  - exists al. split; [reflexivity|].
    set (cmp := fun x y : Label =>
                  (Z.of_nat (activeCount a al (label_id y))
                   - Z.of_nat (activeCount a al (label_id x)))%Z).
    split; [|split; [|split; [|split]]].
    + intros Hnil. apply (f_equal (@List.length _)) in Hnil.
      rewrite length_map in Hnil.
      rewrite (Permutation_length (sort_perm cmp (l0 :: ls))) in Hnil.
      discriminate Hnil.
    + exists l0.
      assert (Hin : In l0 (filter (isStoreLabel a) (labels a)))
        by (rewrite Hf; now left).
      apply filter_In in Hin. exact Hin.
    + rewrite map_map. cbn [fst]. rewrite map_id. apply sort_perm.
    + rewrite map_map. cbn [fst snd].
      apply (StronglySorted_map (fun l => activeCount a al (label_id l)) ge).
      eapply StronglySorted_weaken; [|apply (sort_sorted_by cmp)].
      * intros u v Huv. unfold cmp in Huv. unfold ge. lia.
      * intros u v. unfold cmp. lia.
      * intros u v t. unfold cmp. lia.
    + apply Forall_map. apply Forall_forall. intros l _. cbn [fst snd].
      repeat split. apply activeCount_le_totalCount.
Qed.

(* ================================================================== *)
(** * Recent products: further properties *)
(* ================================================================== *)

(** Filtering a list keeps its keys distinct. *)
Lemma distinct_keys_filter {A B : Type} (key : A -> B) (keep : A -> bool) :
  forall items : list A,
    NoDup (map key items) -> NoDup (map key (filter keep items)).
Proof.
  intros items. induction items as [|x items IH]; cbn [map filter].
  - intros _. constructor.
  - intros Hnd. apply NoDup_cons_iff in Hnd as [Hx Hrest].
    destruct (keep x); [|now apply IH].
    cbn [map]. apply NoDup_cons; [|now apply IH].
    rewrite in_map_iff. intros (y & Hy & Hin).
    apply filter_In in Hin as [Hin _].
    apply Hx. rewrite <- Hy. now apply in_map.
Qed.

Lemma NoDup_firstn {A} (n : nat) (l : list A) : NoDup l -> NoDup (firstn n l).
Proof.
  intros Hnd. rewrite <- (firstn_skipn n l) in Hnd.
  now apply NoDup_app_remove_r in Hnd.
Qed.

Lemma In_firstn {A} (n : nat) (l : list A) (x : A) :
  In x (firstn n l) -> In x l.
Proof.
  intros Hin. rewrite <- (firstn_skipn n l). apply in_or_app. now left.
Qed.

Lemma others_when_present (id : string) (log : list RecentItem) :
  NoDup (map cardId log) -> In id (map cardId log) ->
  S (List.length
       (filter (fun item => negb (String.eqb (cardId item) id)) log))
  = List.length log
  /\ Permutation
       (id :: map cardId
                  (filter (fun item => negb (String.eqb (cardId item) id)) log))
       (map cardId log).
Proof.
  induction log as [|x log IH]; cbn [map filter List.length];
    intros Hnd Hin; [destruct Hin|].
  inversion Hnd as [|? ? Hx Hl]; subst.
  destruct (String.eqb (cardId x) id) eqn:E; cbn [negb].
  - apply String.eqb_eq in E. subst id.
    rewrite filter_all; [split; reflexivity|].
    intros y Hy. apply negb_true_iff, String.eqb_neq. intros Heq.
    apply Hx. rewrite <- Heq. now apply in_map.
  - destruct Hin as [Hin|Hin]; [apply String.eqb_neq in E; contradiction|].
    destruct (IH Hl Hin) as [Hlen Hperm]. cbn [map List.length]. split.
    + now rewrite Hlen.
    + rewrite perm_swap. now constructor.
Qed.

(** X6.  The recent-products log holds a card at most once: a log without
    repeated cards stays so after [addToRecentProducts], and adding a card
    that is already in a log of at most 10 entries moves its entry to the
    front without dropping any other card. *)
Theorem recent_log_distinct :
  forall (id : string) (now : N) (w : World),
    let log := recentProducts (app w) in
    let log' := recentProducts (app (snd (addToRecentProducts id now w))) in
    NoDup (map cardId log) ->
    NoDup (map cardId log')
    /\ hd_error log' = Some {| cardId := id; timestamp := now |}
    /\ (In id (map cardId log) -> List.length log <= 10 ->
        List.length log' = List.length log
        /\ Permutation (map cardId log') (map cardId log)).
Proof.
  intros id now w log log' Hnd. subst log'.
  rewrite addToRecentProducts_log. fold log.
  assert (Hnew : pushRecent id now log
                 = {| cardId := id; timestamp := now |}
                     :: firstn 9 (filter (fun item =>
                          negb (String.eqb (cardId item) id)) log))
    by reflexivity.
  rewrite Hnew. split; [|split; [reflexivity|]].
  - cbn [map cardId]. constructor.
    + intros Hin. apply in_map_iff in Hin as (y & Hy & Hin).
      apply In_firstn, filter_In in Hin as [_ Hne].
      apply negb_true_iff, String.eqb_neq in Hne. contradiction.
    + rewrite <- firstn_map. apply NoDup_firstn. now apply distinct_keys_filter.
  - intros Hin Hlen.
    destruct (others_when_present id log Hnd Hin) as [Hcount Hperm].
    rewrite firstn_all2 by lia. cbn [List.length map cardId].
    split; [exact Hcount|exact Hperm].
Qed.

Lemma recent_log_distinct_witness :
  let w := world (shopApp [] fullLog) in
  Permutation
    (map cardId (recentProducts (app (snd (addToRecentProducts "rin" 5%N w)))))
    (map cardId fullLog).
Proof.
  intros w.
  destruct (recent_log_distinct "rin" 5%N w) as (_ & _ & Hmove).
  - cbv. repeat constructor; cbn; intuition discriminate.
  - apply Hmove.
    + cbv. auto 12.
    + cbv. lia.
Defined.

Lemma find_existsb {A} (p : A -> bool) (l : list A) :
  existsb p l = match find p l with Some _ => true | None => false end.
Proof.
  induction l as [|x l IH]; cbn [existsb find]; [reflexivity|].
  destruct (p x); [reflexivity|exact IH].
Qed.

Lemma recentStoreLoop_spec (storeId : string) (availableCards : list Card)
      (items : list RecentItem) :
  forall acc : list Card,
    List.length acc < 5 ->
    let has item :=
      existsb (fun c => String.eqb (card_id c) (cardId item)
                        && includes (card_idLabels c) storeId)
              availableCards in
    let r := recentStoreLoop storeId availableCards items acc in
    exists k,
      map card_id r
      = map card_id acc ++ map cardId (filter has (firstn k items))
      /\ List.length r <= 5
      /\ (List.length r < 5 -> k = List.length items)
      /\ forall c, In c r ->
           In c acc
           \/ (In c availableCards
               /\ includes (card_idLabels c) storeId = true
               /\ In (card_id c) (map cardId items)).
Proof.
  induction items as [|item rest IH]; intros acc Hacc has r; subst r.
  - exists 0. cbn [recentStoreLoop firstn filter map]. rewrite app_nil_r.
    repeat split; [lia|]. intros c Hc. now left.
  - cbn [recentStoreLoop].
    assert (Hhas : has item
                   = match find (fun c => String.eqb (card_id c) (cardId item)
                                          && includes (card_idLabels c) storeId)
                                availableCards with
                     | Some _ => true | None => false end)
      by apply find_existsb.
    destruct (find _ availableCards) as [card|] eqn:Hfind.
    + apply find_some in Hfind as [Hin Hcard].
      apply andb_true_iff in Hcard as [Hid Hlab]. apply String.eqb_eq in Hid.
      destruct (5 <=? List.length (acc ++ [card])) eqn:Hfull.
      * exists 1. cbn [firstn filter]. rewrite Hhas. cbn [map].
        rewrite map_app, length_app in *. cbn [map List.length] in *.
        apply Nat.leb_le in Hfull. rewrite Hid.
        repeat split; [lia|lia|].
        intros c Hc. apply in_app_or in Hc as [Hc|[<-|[]]]; [now left|right].
        repeat split; [exact Hin|exact Hlab|]. left. now symmetry.
      * apply Nat.leb_gt in Hfull.
        destruct (IH (acc ++ [card]) Hfull) as (k & Hids & Hlen & Hk & Hfrom).
        exists (S k). cbn [firstn filter]. rewrite Hhas. cbn [map].
        rewrite Hids, map_app, <- app_assoc. cbn [map List.app]. rewrite Hid.
        repeat split; [exact Hlen|cbn [List.length]; auto|].
        intros c Hc. destruct (Hfrom c Hc) as [Hc'|(H1 & H2 & H3)].
        -- apply in_app_or in Hc' as [Hc'|[<-|[]]]; [now left|right].
           repeat split; [exact Hin|exact Hlab|]. left. now symmetry.
        -- right. repeat split; [exact H1|exact H2|now right].
    + replace (5 <=? List.length acc) with false
        by (symmetry; apply Nat.leb_gt; exact Hacc).
      destruct (IH acc Hacc) as (k & Hids & Hlen & Hk & Hfrom).
      exists (S k). cbn [firstn filter]. rewrite Hhas.
      repeat split; [exact Hids|exact Hlen|cbn [List.length]; auto|].
      intros c Hc. destruct (Hfrom c Hc) as [Hc'|(H1 & H2 & H3)];
        [now left|right].
      repeat split; [exact H1|exact H2|now right].
Qed.

(** X7.  [getRecentStoreProducts] returns at most five cards.  Each is one
    of the given cards, carries the store's label and has an entry in the
    recent-products log; the cards come in log order, one for each entry of
    a prefix of the log that has such a card, and the prefix is the whole
    log when fewer than five were found. *)
Theorem recent_store_products_bounded :
  forall (a : App) (storeId : string) (availableCards : list Card),
    let r := getRecentStoreProducts a storeId availableCards in
    let has item :=
      existsb (fun c => String.eqb (card_id c) (cardId item)
                        && includes (card_idLabels c) storeId)
              availableCards in
    List.length r <= 5
    /\ (forall c, In c r ->
          In c availableCards
          /\ includes (card_idLabels c) storeId = true
          /\ inRecentLog (recentProducts a) c = true)
    /\ exists k,
         map card_id r
         = map cardId (filter has (firstn k (recentProducts a)))
         /\ (List.length r < 5 -> k = List.length (recentProducts a)).
Proof.
  intros a storeId availableCards r has. subst r.
  unfold getRecentStoreProducts.
  destruct (recentStoreLoop_spec storeId availableCards (recentProducts a) [])
    as (k & Hids & Hlen & Hk & Hfrom); [cbn; lia|].
  split; [exact Hlen|]. split.
  - intros c Hc. destruct (Hfrom c Hc) as [[]|(H1 & H2 & H3)].
    repeat split; [exact H1|exact H2|].
    unfold inRecentLog. apply existsb_exists.
    apply in_map_iff in H3 as (item & Hitem & Hin).
    exists item. split; [exact Hin|]. now apply String.eqb_eq.
  - exists k. split; [exact Hids|exact Hk].
Qed.

(* ================================================================== *)
(** * Search: further properties *)
(* ================================================================== *)

(** X8.  A search text that consists of white space only hides nothing:
    every product matches it. *)
Theorem blank_search_matches_all :
  forall (U : Unicode) (searchQuery name : jsstring),
    trim searchQuery = [] -> matchesSearch searchQuery name = true.
Proof.
  intros U q name Hblank. destruct q as [|c q]; [reflexivity|].
  cbn [matchesSearch]. rewrite Hblank, normalizeString_empty.
  destruct (split_ws_head (normalizeString name)) as (w0 & rest & _ & -> & _).
  reflexivity.
Qed.

Lemma blank_search_matches_all_witness :
  @matchesSearch Latin1.tables (js "  " ++ [9]%N) (js "Leche Entera") = true.
Proof.
  apply (blank_search_matches_all Latin1.tables). reflexivity.
Defined.

(** X9.  A search text that, trimmed and normalized, still contains white
    space matches no product: the words of a name contain none.  So the full
    name "leche entera" does not find the product "Leche Entera". *)
Theorem search_with_inner_space_matches_nothing :
  forall (U : Unicode) (searchQuery name : jsstring),
    existsb isWhiteSpace (normalizeString (trim searchQuery)) = true ->
    matchesSearch searchQuery name = false.
Proof.
  intros U q name Hspace. destruct q as [|c q].
  - change (trim []) with (@nil N) in Hspace.
    rewrite normalizeString_empty in Hspace. discriminate.
  - cbn [matchesSearch].
    destruct (existsb _ (split_ws (normalizeString name))) eqn:E;
      [|reflexivity].
    apply existsb_startsWith in E as (w & Hin & r & ->).
    apply split_ws_words in Hin as (_ & _ & _ & Hw & _).
    apply Forall_app in Hw as [Hq _].
    apply existsb_exists in Hspace as (x & Hx & Hws).
    rewrite Forall_forall in Hq. rewrite (Hq x Hx) in Hws. discriminate.
Qed.

Lemma search_with_inner_space_matches_nothing_witness :
  @matchesSearch Latin1.tables (js "leche entera") (js "Leche Entera") = false.
Proof.
  apply (search_with_inner_space_matches_nothing Latin1.tables). reflexivity.
Defined.

(* ================================================================== *)
(** * Loading the board: further properties *)
(* ================================================================== *)

(** X10.  When one of the four reads of [loadBoard] fails, all four have
    been sent, the application object is untouched (the cache, the lists and
    the view stay as they were), and the only effect is the error toast. *)
Theorem loadBoard_read_failure :
  forall (net : Remote) (w : World),
    let b := selectedBoardId (app w) in
    let h := sent w in
    reply_getBoard net h b = None
    \/ reply_getLists net (h ++ [ReqGetBoard b]) b = None
    \/ reply_getCards net (h ++ [ReqGetBoard b; ReqGetLists b]) b = None
    \/ reply_getLabels net (h ++ [ReqGetBoard b; ReqGetLists b; ReqGetCards b])
                       b = None ->
    loadBoard net w
    = (Returns tt,
       {| app := app w;
          sent := h ++ boardReads b;
          toasts := toasts w ++ [ToastLoadError] |}).
Proof.
  intros net w b h Hfail. subst b h.
  unfold loadBoard, fetchBoardData. run.
  destruct (reply_getBoard net (sent w) (selectedBoardId (app w)));
    [|reflexivity].
  destruct (reply_getLists net _ (selectedBoardId (app w))); [|reflexivity].
  destruct (reply_getCards net _ (selectedBoardId (app w))); [|reflexivity].
  destruct (reply_getLabels net _ (selectedBoardId (app w))); [|reflexivity].
  destruct Hfail as [H|[H|[H|H]]]; discriminate.
Qed.

Lemma loadBoard_read_failure_witness :
  loadBoard offline (world (shopApp [leche "L1"] []))
  = (Returns tt,
     {| app := shopApp [leche "L1"] [];
        sent := boardReads "b";
        toasts := [ToastLoadError] |}).
Proof.
  apply (loadBoard_read_failure offline (world (shopApp [leche "L1"] []))).
  now left.
Defined.

(** The loops that create labels change nothing but the labels and the
    requests. *)
Lemma createLabels_loop_keeps (net : Remote) {A : Type} (boardId : string)
      (nm : A -> jsstring) (col : A -> string) (items : list A) :
  forall w : World,
    let w' := snd (forEach items (fun x =>
                     label <- createLabel net boardId (nm x) (col x) ;;
                     pushLabel label) w) in
    exists extra, app w' = set_labels (labels (app w) ++ extra) (app w).
Proof.
  induction items as [|x items IH]; intros w; cbn [forEach].
  - exists []. cbn [snd ret]. rewrite app_nil_r. now destruct (app w).
  - unfold createLabel, pushLabel. run.
    destruct (reply_createLabel net (sent w) boardId (nm x) (col x))
      as [label|].
    + match goal with |- context [forEach items ?body ?w1] =>
        destruct (IH w1) as [extra Hextra] end.
      exists (label :: extra). cbn [snd].
      etransitivity; [exact Hextra|]. cbn [app labels set_labels].
      now rewrite <- app_assoc.
    + exists []. cbn [snd app]. rewrite app_nil_r. now destruct (app w).
Qed.

Lemma ensureLabels_keep (net : Remote) (w : World) :
  (exists extra,
      app (snd (ensureLocationLabels net w))
      = set_labels (labels (app w) ++ extra) (app w))
  /\ (exists extra,
         app (snd (ensureStoreLabels net w))
         = set_labels (labels (app w) ++ extra) (app w)).
Proof.
  split.
  - unfold ensureLocationLabels. run.
    destruct (filter _ (labels (app w))).
    + apply createLabels_loop_keeps.
    + exists []. cbn [snd]. rewrite app_nil_r. now destruct (app w).
  - unfold ensureStoreLabels. run.
    destruct (filter _ (labels (app w))).
    + apply createLabels_loop_keeps.
    + exists []. cbn [snd]. rewrite app_nil_r. now destruct (app w).
Qed.






(** X12.  When the catalog list is missing and its creation fails,
    [loadBoard] stops there: after the four reads it has sent that one
    creation and nothing else, the error toast is shown, the catalog list
    stays unresolved, and the view is not re-entered (the current view and
    the search text stay), although the cache already holds the fetched
    cards and labels. *)
Theorem loadBoard_list_creation_failure :
  forall (net : Remote) (w : World) (b : Board) (ls : list TList)
         (cs : list Card) (lbs : list Label),
    let id := selectedBoardId (app w) in
    let h := sent w in
    reply_getBoard net h id = Some b ->
    reply_getLists net (h ++ [ReqGetBoard id]) id = Some ls ->
    reply_getCards net (h ++ [ReqGetBoard id; ReqGetLists id]) id = Some cs ->
    reply_getLabels net (h ++ [ReqGetBoard id; ReqGetLists id; ReqGetCards id])
                    id = Some lbs ->
    find (fun l => jsstring_eqb (list_name l)
                     (listNames_allProducts (config (app w)))) ls = None ->
    reply_createList net (h ++ boardReads id) id
                     (listNames_allProducts (config (app w))) 1 = None ->
    let w' := snd (loadBoard net w) in
    sent w'
    = h ++ boardReads id
        ++ [ReqCreateList id (listNames_allProducts (config (app w))) 1]
    /\ toasts w' = toasts w ++ [ToastLoadError]
    /\ allProductsList (app w') = None
    /\ cards (app w') = cs /\ labels (app w') = lbs /\ lists (app w') = ls
    /\ currentView (app w') = currentView (app w)
    /\ searchQuery (app w') = searchQuery (app w).
Proof.
  intros net w b ls cs lbs id h Hb Hls Hcs Hlbs Hfind Hcreate w'.
  assert (Hrun : loadBoard net w
                 = (Returns tt,
                    {| app := set_activeList
                                (find (fun l => jsstring_eqb (list_name l)
                                         (listNames_activeList (config (app w))))
                                      ls)
                                (set_allProductsList None
                                   (set_labels lbs
                                      (set_cards cs
                                         (set_lists ls
                                            (set_board (Some b) (app w))))));
                       sent := (h ++ boardReads id)
                                 ++ [ReqCreateList id
                                       (listNames_allProducts (config (app w)))
                                       1];
                       toasts := toasts w ++ [ToastLoadError] |})).
  { subst id h. unfold loadBoard, fetchBoardData. run.
    rewrite Hb, Hls, Hcs, Hlbs.
    cbn [fst snd app sent toasts allProductsList activeList set_activeList
         set_allProductsList].
    rewrite Hfind, setupBoardStructure_steps.
    unfold ensureAllProductsList, createList. run.
    cbn [allProductsList set_activeList set_allProductsList selectedBoardId
         set_labels set_cards set_lists set_board config sent app].
    unfold boardReads in Hcreate. rewrite Hcreate. reflexivity. }
  subst w'. rewrite Hrun. cbn [snd app sent toasts].
  rewrite <- app_assoc. repeat split.
Qed.

Lemma loadBoard_list_creation_failure_witness :
  let net :=
    {| reply_getBoard := fun _ _ =>
         Some {| board_id := "b"; board_name := js "Compras" |};
       reply_getLists := fun _ _ => Some [shoppingList];
       reply_getCards := fun _ _ => Some [leche "L2"];
       reply_getLabels := fun _ _ => Some [mercadona];
       reply_createList := fun _ _ _ _ => None;
       reply_createLabel := fun _ _ _ _ => None;
       reply_createCard := fun _ _ _ _ _ => None;
       reply_moveCard := fun _ _ _ => false;
       reply_deleteCard := fun _ _ => false |} in
  let w' := snd (loadBoard net (world (initialApp "b"))) in
  List.length (sent w') = 5 /\ toasts w' = [ToastLoadError]
  /\ cards (app w') = [leche "L2"].
Proof.
  intros net w'.
  destruct (loadBoard_list_creation_failure net (world (initialApp "b"))
              {| board_id := "b"; board_name := js "Compras" |}
              [shoppingList] [leche "L2"] [mercadona])
    as (Hsent & Htoast & _ & Hcards & _); try reflexivity.
  fold w' in Hsent, Htoast, Hcards.
  rewrite Hsent. repeat split; assumption.
Defined.

(* ================================================================== *)
(** * Import: further properties *)
(* ================================================================== *)

Section ImportAccounting.
Context {U : Unicode}.
Variable net : Remote.

(** What resolving labels does to the world: it appends the created labels
    and requests label creations only. *)
Lemma resolveLabels_account (dflt : string) (refs : list LabelRef) :
  forall (ids : list string) (n : nat) (w : World),
  exists ids' extra new w',
    resolveLabels net dflt refs ids n w
    = (Returns (ids', n + List.length extra), w')
    /\ labels (app w') = labels (app w) ++ extra
    /\ sent w' = sent w ++ new
    /\ filter isCreateCard new = []
    /\ List.length extra <= List.length (filter isCreateLabel new)
    /\ cards (app w') = cards (app w)
    /\ activeList (app w') = activeList (app w)
    /\ allProductsList (app w') = allProductsList (app w)
    /\ toasts w' = toasts w.
Proof.
  induction refs as [|r refs IH]; intros ids n w; cbn [resolveLabels].
  - exists ids, [], [], w. cbn [List.length]. rewrite !app_nil_r, Nat.add_0_r.
    repeat split. apply le_n.
  - unfold createLabel, pushLabel. run.
    destruct (find _ (labels (app w))) as [label|].
    + apply IH.
    + destruct (reply_createLabel net (sent w) (selectedBoardId (app w))
                                  (ref_name r) (ref_color dflt r))
        as [label|]; cbn [fst snd app sent toasts].
      * match goal with |- context [resolveLabels net dflt refs ?i ?m ?w1] =>
          destruct (IH i m w1)
            as (ids' & extra & new & w' & Hrun & Hl & Hs & Hc & Hn & Hcs
                & Ha & Hp & Ht) end.
        exists ids', (label :: extra),
          (ReqCreateLabel (selectedBoardId (app w)) (ref_name r)
                          (ref_color dflt r) :: new), w'.
        cbn [app labels set_labels sent cards activeList allProductsList
             toasts] in *.
        rewrite Hrun, Hl, Hs, <- !app_assoc. cbn [List.length filter
          isCreateCard isCreateLabel List.app].
        rewrite Nat.add_succ_comm.
        repeat split; try assumption. lia.
      * match goal with |- context [resolveLabels net dflt refs ?i ?m ?w1] =>
          destruct (IH i m w1)
            as (ids' & extra & new & w' & Hrun & Hl & Hs & Hc & Hn & Hcs
                & Ha & Hp & Ht) end.
        exists ids', extra,
          (ReqCreateLabel (selectedBoardId (app w)) (ref_name r)
                          (ref_color dflt r) :: new), w'.
        cbn [app labels set_labels sent cards activeList allProductsList
             toasts] in *.
        rewrite Hrun, Hl, Hs, <- !app_assoc. cbn [List.length filter
          isCreateCard isCreateLabel List.app].
        repeat split; try assumption. lia.
Qed.

(** What the product loop does to the world, whatever its outcome, and how
    its counters add up when it returns. *)
Lemma importLoop_account (products : list ImportProduct) :
  forall (imported skipped labelsCreated : nat) (w w' : World) r,
    importLoop net products imported skipped labelsCreated w = (r, w') ->
    exists created extra new,
      cards (app w') = cards (app w) ++ created
      /\ labels (app w') = labels (app w) ++ extra
      /\ sent w' = sent w ++ new
      /\ toasts w' = toasts w
      /\ forall i s l,
           r = Returns (i, s, l) ->
           i + s = imported + skipped + List.length products
           /\ i = imported + List.length created
           /\ l = labelsCreated + List.length extra
           /\ List.length (filter isCreateCard new) = List.length created
           /\ List.length extra <= List.length (filter isCreateLabel new).
Proof.
  induction products as [|p ps IH]; intros i0 s0 l0 w w' r; cbn [importLoop].
  - unfold ret. intros [= <- <-]. exists [], [], [].
    cbn [List.length filter]. rewrite !app_nil_r.
    split; [reflexivity|]. split; [reflexivity|]. split; [reflexivity|].
    split; [reflexivity|]. intros i s l [= <- <- <-]. lia.
  - run. destruct (productExists (app w) (product_name p)).
    + intros Hrun.
      destruct (IH _ _ _ _ _ _ Hrun)
        as (created & extra & new & Hc & Hl & Hs & Ht & Hret).
      exists created, extra, new.
      split; [exact Hc|]. split; [exact Hl|]. split; [exact Hs|].
      split; [exact Ht|]. intros i s l Hr.
      destruct (Hret i s l Hr) as (? & ? & ? & ? & ?).
      cbn [List.length]. lia.
    + destruct (resolveLabels_account "orange" (product_stores p) [] l0 w)
        as (ids1 & ex1 & new1 & w1 & Hr1 & Hl1 & Hs1 & Hcc1 & Hn1 & Hcs1
            & Ha1 & Hp1 & Ht1).
      rewrite Hr1. cbn [fst snd].
      destruct (resolveLabels_account "green" (product_locations p) ids1
                  (l0 + List.length ex1) w1)
        as (ids2 & ex2 & new2 & w2 & Hr2 & Hl2 & Hs2 & Hcc2 & Hn2 & Hcs2
            & Ha2 & Hp2 & Ht2).
      rewrite Hr2. cbn [fst snd].
      destruct (if product_inList p then activeList (app w2)
                else allProductsList (app w2)) as [targetList|].
      * unfold createCard. run.
        destruct (reply_createCard net (sent w2) (list_id targetList)
                    (product_name p) ids2 (product_desc p)) as [card|].
        -- cbn [fst snd app sent toasts]. intros Hrun.
           destruct (IH _ _ _ _ _ _ Hrun)
             as (created & extra & new & Hc & Hl & Hs & Ht & Hret).
           cbn [app sent toasts cards labels set_cards] in Hc, Hl, Hs, Ht.
           exists (card :: created), (ex1 ++ ex2 ++ extra),
             (new1 ++ new2
                ++ ReqCreateCard (list_id targetList) (product_name p) ids2
                     (product_desc p) :: new).
           rewrite Hc, Hl, Hs, Ht, Hcs2, Hcs1, Hl2, Hl1, Hs2, Hs1, Ht2, Ht1,
             <- !app_assoc.
           cbn [List.app].
           split; [reflexivity|]. split; [reflexivity|].
           split; [reflexivity|]. split; [reflexivity|].
           intros i s l Hr. destruct (Hret i s l Hr) as (? & ? & ? & ? & ?).
           rewrite !filter_app. cbn [filter isCreateCard isCreateLabel].
           rewrite Hcc1, Hcc2. cbn [List.app].
           repeat rewrite length_app. cbn [List.length]. lia.
        -- cbn [fst snd app sent toasts]. intros [= <- <-].
           exists [], (ex1 ++ ex2),
             (new1 ++ new2
                ++ [ReqCreateCard (list_id targetList) (product_name p) ids2
                      (product_desc p)]).
           cbn [app sent toasts].
           rewrite Hcs2, Hcs1, Hl2, Hl1, Hs2, Hs1, Ht2, Ht1, <- !app_assoc,
             app_nil_r.
           repeat split; discriminate.
      * unfold throw. intros [= <- <-].
        exists [], (ex1 ++ ex2), (new1 ++ new2).
        rewrite Hcs2, Hcs1, Hl2, Hl1, Hs2, Hs1, Ht2, Ht1, <- !app_assoc,
          app_nil_r.
        repeat split; discriminate.
Qed.

End ImportAccounting.

(** X13.  Whatever happens during an import, the cached cards and labels
    only grow and nothing is rolled back.  A file that is not a valid
    document gives the error toast and nothing else.  When the import ends
    with its report, the imported and the skipped products add up to the
    products of the document, the cache has grown by exactly the imported
    cards, one card creation was requested per imported card, and the labels
    counted as created are the labels added to the cache. *)
Theorem import_accounting :
  forall (U : Unicode) (net : Remote) (file : option ImportDoc) (w : World),
    let w' := snd (importProducts net file w) in
    (validProducts file = None ->
     w' = {| app := app w; sent := sent w;
             toasts := toasts w ++ [ToastImportError] |})
    /\ exists created extra new,
         cards (app w') = cards (app w) ++ created
         /\ labels (app w') = labels (app w) ++ extra
         /\ sent w' = sent w ++ new
         /\ forall i s l,
              toasts w' = toasts w ++ [ToastImporting; ToastImported i s l] ->
              exists products,
                validProducts file = Some products
                /\ i + s = List.length products
                /\ i = List.length created
                /\ l = List.length extra
                /\ List.length (filter isCreateCard new) = i
                /\ l <= List.length (filter isCreateLabel new).
Proof.
  intros U net file w w'. subst w'.
  destruct (validProducts file) as [products|] eqn:Hvalid.
  - split; [discriminate|].
    rewrite (importProducts_run net file products w Hvalid).
    destruct (importLoop net products 0 0 0 _) as [r wl] eqn:Hrun.
    destruct (importLoop_account net products 0 0 0 _ _ _ Hrun)
      as (created & extra & new & Hc & Hl & Hs & Ht & Hret).
    cbn [app sent toasts] in Hc, Hl, Hs, Ht.
    exists created, extra, new.
    destruct r as [[[i' s'] l']|e]; cbn [fst snd app sent toasts];
      (split; [exact Hc|]); (split; [exact Hl|]); (split; [exact Hs|]);
      intros i s l Hdone; rewrite Ht, <- app_assoc in Hdone;
      apply app_inv_head in Hdone; cbn [List.app] in Hdone;
      [|discriminate].
    injection Hdone as <- <- <- _.
    exists products. split; [reflexivity|].
    destruct (Hret i' s' l' eq_refl) as (H1 & H2 & H3 & H4 & H5).
    cbn [Nat.add] in *. subst. repeat split; assumption.
  - split.
    + intros _. unfold importProducts. rewrite Hvalid. reflexivity.
    + unfold importProducts. rewrite Hvalid. run.
      exists [], [], []. rewrite !app_nil_r.
      repeat split. intros i s l Hdone.
      apply app_inv_head in Hdone. discriminate.
Qed.

(** Label creations may all fail: the product loop still returns when both
    lists are resolved and the remote accepts every card creation. *)
Lemma importLoop_completes {U : Unicode} (net : Remote)
      (products : list ImportProduct) :
  (forall h l n ids d, reply_createCard net h l n ids d <> None) ->
  forall (imported skipped labelsCreated : nat) (w : World),
    activeList (app w) <> None -> allProductsList (app w) <> None ->
    exists r w',
      importLoop net products imported skipped labelsCreated w
      = (Returns r, w').
Proof.
  intros Hcards.
  induction products as [|p ps IH]; intros i s l w Hal Hap; cbn [importLoop].
  - now eexists _, _.
  - run. destruct (productExists (app w) (product_name p)); [now apply IH|].
    destruct (resolveLabels_frame net "orange" (product_stores p) [] l w)
      as (r1 & w1 & -> & _ & Ha1 & Hp1 & _).
    destruct (resolveLabels_frame net "green" (product_locations p)
                                  (fst r1) (snd r1) w1)
      as (r2 & w2 & -> & _ & Ha2 & Hp2 & _).
    rewrite <- Ha1, <- Ha2 in Hal. rewrite <- Hp1, <- Hp2 in Hap.
    destruct (if product_inList p then activeList (app w2)
              else allProductsList (app w2)) as [targetList|] eqn:Ht.
    + unfold createCard. run.
      destruct (reply_createCard net (sent w2) (list_id targetList)
                  (product_name p) (fst r2) (product_desc p)) as [card|] eqn:E.
      * cbn [fst snd app sent toasts]. now apply IH.
      * now apply Hcards in E.
    + destruct (product_inList p); contradiction.
Qed.

(** The end of an import whose product loop returns: the report, followed
    by the error toast when the redraw throws. *)
Lemma import_toasts_when_complete {U : Unicode} (net : Remote)
      (file : option ImportDoc) (products : list ImportProduct) (w : World)
      (i s l : nat) (wl : World) :
  validProducts file = Some products ->
  importLoop net products 0 0 0
    {| app := app w; sent := sent w; toasts := toasts w ++ [ToastImporting] |}
  = (Returns (i, s, l), wl) ->
  let w' := snd (importProducts net file w) in
  app w' = app wl
  /\ sent w' = sent wl
  /\ toasts w'
     = toasts w
         ++ [ToastImporting; ToastImported i s l]
         ++ (if importRedrawThrows (app w') then [ToastImportError] else [])
  /\ i + s = List.length products.
Proof.
  intros Hvalid Hrun.
  rewrite (importProducts_run net file products w Hvalid), Hrun.
  cbn [fst snd app sent toasts].
  destruct (importLoop_account net products 0 0 0 _ _ _ Hrun)
    as (created & extra & new & _ & _ & _ & Ht & Hret).
  cbn [toasts] in Ht. rewrite Ht, <- app_assoc.
  split; [reflexivity|]. split; [reflexivity|]. split; [reflexivity|].
  now destruct (Hret i s l eq_refl) as (H1 & _).
Qed.

(** X14.  An import does not abort because label creations fail: with both
    lists resolved and a remote that accepts every card creation, the import
    of a valid document ends with its report, whatever the remote answers
    to label creations.  The report is the last toast, except that the error
    toast follows it when the redraw that ends the import throws (the
    detail view without a current store). *)
Theorem import_tolerates_label_failures :
  forall (U : Unicode) (net : Remote) (file : option ImportDoc)
         (products : list ImportProduct) (w : World),
    validProducts file = Some products ->
    activeList (app w) <> None ->
    allProductsList (app w) <> None ->
    (forall h l n ids d, reply_createCard net h l n ids d <> None) ->
    let w' := snd (importProducts net file w) in
    exists imported skipped labelsCreated,
      toasts w'
      = toasts w
          ++ [ToastImporting; ToastImported imported skipped labelsCreated]
          ++ (if importRedrawThrows (app w') then [ToastImportError] else [])
      /\ imported + skipped = List.length products.
Proof.
  intros U net file products w Hvalid Hal Hap Hcards w'.
  destruct (importLoop_completes net products Hcards 0 0 0
              {| app := app w; sent := sent w;
                 toasts := toasts w ++ [ToastImporting] |} Hal Hap)
    as ([[i s] l] & wl & Hrun).
  exists i, s, l.
  destruct (import_toasts_when_complete net file products w i s l wl
              Hvalid Hrun) as (_ & _ & Ht & Hsum).
  split; [exact Ht|exact Hsum].
Qed.

Lemma import_tolerates_label_failures_witness :
  let net :=
    {| reply_getBoard := fun _ _ => None;
       reply_getLists := fun _ _ => None;
       reply_getCards := fun _ _ => None;
       reply_getLabels := fun _ _ => None;
       reply_createList := fun _ _ _ _ => None;
       reply_createLabel := fun _ _ _ _ => None;
       reply_createCard := fun h idList name idLabels desc =>
         Some {| card_id := freshId (List.length h); card_name := name;
                 card_desc := desc; card_idList := idList;
                 card_idLabels := idLabels |};
       reply_moveCard := fun _ _ _ => false;
       reply_deleteCard := fun _ _ => false |} in
  let products :=
    [ {| product_name := js "Queso"; product_desc := [];
         product_stores := [RefName (js "Quesos Paco")];
         product_locations := [RefName (js "Nevera")];
         product_inList := false |} ] in
  let file := Some {| doc_version := Some 2%N;
                      doc_products := Some products |} in
  let w' := snd (@importProducts Latin1.tables net file
                   (world (shopApp [leche "L1"] []))) in
  toasts w' = [ToastImporting; ToastImported 1 0 0]
  /\ map card_idLabels (cards (app w')) = [["S1"; "P1"]; ["P1"]]%string.
Proof.
  intros net products file w'. split; [|reflexivity].
  destruct (import_tolerates_label_failures Latin1.tables net file products
              (world (shopApp [leche "L1"] [])))
    as (i & s & l & Htoasts & _);
    [reflexivity|discriminate|discriminate|discriminate|].
  reflexivity.
Defined.

(* ================================================================== *)
(** * Import: duplicates *)
(* ================================================================== *)

Section ImportDuplicates.
Context {U : Unicode}.
Variable net : Remote.

Lemma cardCreations_app (rs1 rs2 : list Request) :
  cardCreations (rs1 ++ rs2) = cardCreations rs1 ++ cardCreations rs2.
Proof. unfold cardCreations. apply flat_map_app. Qed.

Lemma cardCreations_none (rs : list Request) :
  filter isCreateCard rs = [] -> cardCreations rs = [].
Proof.
  induction rs as [|r rs IH]; [reflexivity|].
  cbn [filter]. destruct r; cbn [isCreateCard]; try discriminate;
    intros H; cbn [cardCreations flat_map List.app]; now apply IH.
Qed.

Lemma productExists_duplicates (a : App) (p : ImportProduct) :
  productExists a (product_name p) = true <-> duplicates (cards a) p.
Proof.
  unfold productExists, duplicates. rewrite existsb_exists.
  split; intros (c & Hc & Heq); exists c; (split; [exact Hc|]);
    now apply jsstring_eqb_eq.
Qed.

Lemma duplicates_grow (cs extra : list Card) (p : ImportProduct) :
  duplicates cs p -> duplicates (cs ++ extra) p.
Proof.
  intros (c & Hc & Heq). exists c. split; [|exact Heq].
  apply in_or_app. now left.
Qed.

(** Whatever its outcome, the product loop asks for no card under a name
    that a card cached before it bears, up to letter case. *)
Lemma importLoop_requests (products : list ImportProduct) :
  forall (imported skipped labelsCreated : nat) (w w' : World) r,
    importLoop net products imported skipped labelsCreated w = (r, w') ->
    exists new,
      sent w' = sent w ++ new
      /\ forall n c, In n (cardCreations new) -> In c (cards (app w)) ->
                     toLowerCase (card_name c) <> toLowerCase n.
Proof.
  induction products as [|p ps IH]; intros i0 s0 l0 w w' r; cbn [importLoop].
  - unfold ret. intros [= <- <-]. exists []. rewrite app_nil_r.
    split; [reflexivity|]. intros n c [].
  - run. destruct (productExists (app w) (product_name p)) eqn:Hex.
    + apply IH.
    + assert (Hfresh : forall c, In c (cards (app w)) ->
                 toLowerCase (card_name c) <> toLowerCase (product_name p)).
      { intros c Hc Heq.
        assert (Hdup : productExists (app w) (product_name p) = true)
          by (apply productExists_duplicates; now exists c).
        congruence. }
      destruct (resolveLabels_account net "orange" (product_stores p) [] l0 w)
        as (ids1 & ex1 & new1 & w1 & Hr1 & _ & Hs1 & Hcc1 & _ & Hcs1
            & _ & _ & _).
      rewrite Hr1. cbn [fst snd].
      destruct (resolveLabels_account net "green" (product_locations p) ids1
                  (l0 + List.length ex1) w1)
        as (ids2 & ex2 & new2 & w2 & Hr2 & _ & Hs2 & Hcc2 & _ & Hcs2
            & _ & _ & _).
      rewrite Hr2. cbn [fst snd].
      apply cardCreations_none in Hcc1, Hcc2.
      destruct (if product_inList p then activeList (app w2)
                else allProductsList (app w2)) as [targetList|].
      * unfold createCard. run.
        destruct (reply_createCard net (sent w2) (list_id targetList)
                    (product_name p) ids2 (product_desc p)) as [card|].
        -- cbn [fst snd app sent toasts]. intros Hrun.
           destruct (IH _ _ _ _ _ _ Hrun) as (new & Hs & Hnew).
           cbn [app sent cards set_cards] in Hs, Hnew.
           exists (new1 ++ new2
                     ++ ReqCreateCard (list_id targetList) (product_name p)
                          ids2 (product_desc p) :: new).
           rewrite Hs, Hs2, Hs1, <- !app_assoc. split; [reflexivity|].
           intros n c Hn Hc.
           rewrite !cardCreations_app, Hcc1, Hcc2 in Hn.
           cbn [List.app cardCreations flat_map] in Hn.
           destruct Hn as [<-|Hn]; [now apply Hfresh|].
           apply (Hnew n c Hn). rewrite Hcs2, Hcs1.
           apply in_or_app. now left.
        -- cbn [fst snd app sent toasts]. intros [= <- <-].
           exists (new1 ++ new2
                     ++ [ReqCreateCard (list_id targetList) (product_name p)
                           ids2 (product_desc p)]).
           cbn [sent]. rewrite Hs2, Hs1, <- !app_assoc.
           split; [reflexivity|].
           intros n c Hn Hc.
           rewrite !cardCreations_app, Hcc1, Hcc2 in Hn.
           cbn [List.app cardCreations flat_map] in Hn.
           destruct Hn as [<-|[]]. now apply Hfresh.
      * unfold throw. intros [= <- <-]. exists (new1 ++ new2).
        rewrite Hs2, Hs1, <- !app_assoc. split; [reflexivity|].
        intros n c Hn. rewrite cardCreations_app, Hcc1, Hcc2 in Hn.
        destruct Hn.
Qed.

(** When the loop returns, its products are dealt into those it created
    and those it skipped. *)
Lemma importLoop_deals (products : list ImportProduct) :
  forall (imported skipped labelsCreated : nat) (w w' : World)
         (i s l : nat),
    importLoop net products imported skipped labelsCreated w
    = (Returns (i, s, l), w') ->
    exists createdProducts skippedProducts new cs,
      Dealt products createdProducts skippedProducts
      /\ i = imported + List.length createdProducts
      /\ s = skipped + List.length skippedProducts
      /\ sent w' = sent w ++ new
      /\ cardCreations new = map product_name createdProducts
      /\ cards (app w') = cards (app w) ++ cs
      /\ (forall p, In p createdProducts -> ~ duplicates (cards (app w)) p)
      /\ (forall p, In p skippedProducts -> duplicates (cards (app w')) p).
Proof.
  induction products as [|p ps IH]; intros i0 s0 l0 w w' i s l;
    cbn [importLoop].
  - unfold ret. intros [= <- <- <- <-]. exists [], [], [], [].
    cbn [List.length map cardCreations flat_map]. rewrite !app_nil_r, !Nat.add_0_r.
    repeat split; try constructor; intros p [].
  - run. destruct (productExists (app w) (product_name p)) eqn:Hex.
    + intros Hrun.
      destruct (IH _ _ _ _ _ _ _ _ Hrun)
        as (cr & sk & new & cs & Hd & Hi & Hs & Hsent & Hcc & Hcs & Hcr & Hsk).
      exists cr, (p :: sk), new, cs. cbn [List.length].
      split; [now constructor|]. split; [exact Hi|]. split; [lia|].
      split; [exact Hsent|]. split; [exact Hcc|]. split; [exact Hcs|].
      split; [exact Hcr|].
      intros q [<-|Hq]; [|now apply Hsk].
      rewrite Hcs. apply duplicates_grow. now apply productExists_duplicates.
    + assert (Hfresh : ~ duplicates (cards (app w)) p).
      { intros Hdup. apply productExists_duplicates in Hdup. congruence. }
      destruct (resolveLabels_account net "orange" (product_stores p) [] l0 w)
        as (ids1 & ex1 & new1 & w1 & Hr1 & _ & Hs1 & Hcc1 & _ & Hcs1
            & _ & _ & _).
      rewrite Hr1. cbn [fst snd].
      destruct (resolveLabels_account net "green" (product_locations p) ids1
                  (l0 + List.length ex1) w1)
        as (ids2 & ex2 & new2 & w2 & Hr2 & _ & Hs2 & Hcc2 & _ & Hcs2
            & _ & _ & _).
      rewrite Hr2. cbn [fst snd].
      apply cardCreations_none in Hcc1, Hcc2.
      destruct (if product_inList p then activeList (app w2)
                else allProductsList (app w2)) as [targetList|];
        [|discriminate].
      unfold createCard. run.
      destruct (reply_createCard net (sent w2) (list_id targetList)
                  (product_name p) ids2 (product_desc p)) as [card|];
        [|discriminate].
      cbn [fst snd app sent toasts]. intros Hrun.
      destruct (IH _ _ _ _ _ _ _ _ Hrun)
        as (cr & sk & new & cs & Hd & Hi & Hs & Hsent & Hcc & Hcs & Hcr & Hsk).
      cbn [app sent cards set_cards] in Hsent, Hcs, Hcr.
      exists (p :: cr), sk,
        (new1 ++ new2
           ++ ReqCreateCard (list_id targetList) (product_name p) ids2
                (product_desc p) :: new), (card :: cs).
      cbn [List.length map].
      split; [now constructor|]. split; [lia|]. split; [exact Hs|].
      split; [rewrite Hsent, Hs2, Hs1, <- !app_assoc; reflexivity|].
      split.
      { rewrite !cardCreations_app, Hcc1, Hcc2.
        cbn [List.app cardCreations flat_map]. now rewrite <- Hcc. }
      split; [rewrite Hcs, Hcs2, Hcs1, <- app_assoc; reflexivity|].
      split; [|exact Hsk].
      intros q [<-|Hq]; [exact Hfresh|].
      intros Hdup. apply (Hcr q Hq). rewrite Hcs2, Hcs1.
      now apply duplicates_grow.
Qed.

End ImportDuplicates.

Lemma Dealt_In {A} (l taken left : list A) (x : A) :
  Dealt l taken left -> In x l -> In x taken \/ In x left.
Proof.
  induction 1 as [|y l taken left Hd IH|y l taken left Hd IH];
    intros Hin; [destruct Hin| |].
  - destruct Hin as [<-|Hin]; [left; now left|].
    destruct (IH Hin); [left; now right|now right].
  - destruct Hin as [<-|Hin]; [right; now left|].
    destruct (IH Hin); [now left|right; now right].
Qed.

(** C5.  Import is idempotent on product names.  Whatever the document and
    whatever the outcome, no card is requested under a name that equals, up
    to letter case, the name of a card cached before the import.  When the
    import ends with its report, the products of the document are dealt, in
    order, into those created and those skipped: the report counts both, one
    card creation was requested per created product, under its name, no
    created product duplicated a card cached before, every skipped product
    duplicates a cached card, and every product that duplicated a card cached
    before is among the skipped.  So, when the remote answers card creations
    with cards of the requested names and a first import of a file ended
    with its report, importing the same file again (whatever the remote then
    does) sends nothing, creates nothing and reports every product as
    skipped. *)
Theorem import_twice_skips_all :
  forall (U : Unicode) (net net' : Remote) (file : option ImportDoc)
         (products : list ImportProduct) (w : World),
    validProducts file = Some products ->
    let w1 := snd (importProducts net file w) in
    (exists new,
        sent w1 = sent w ++ new
        /\ forall p n,
             In p products -> duplicates (cards (app w)) p ->
             In n (cardCreations new) ->
             toLowerCase n <> toLowerCase (product_name p))
    /\ (forall imported skipped labelsCreated rest,
           toasts w1
           = toasts w
               ++ ToastImporting
               :: ToastImported imported skipped labelsCreated :: rest ->
           exists createdProducts skippedProducts new,
             Dealt products createdProducts skippedProducts
             /\ imported = List.length createdProducts
             /\ skipped = List.length skippedProducts
             /\ sent w1 = sent w ++ new
             /\ cardCreations new = map product_name createdProducts
             /\ (forall p, In p createdProducts ->
                           ~ duplicates (cards (app w)) p)
             /\ (forall p, In p skippedProducts ->
                           duplicates (cards (app w1)) p)
             /\ (forall p, In p products -> duplicates (cards (app w)) p ->
                           In p skippedProducts))
    /\ ((forall h l n ids d c,
            reply_createCard net h l n ids d = Some c -> card_name c = n) ->
        forall imported skipped labelsCreated rest,
          toasts w1
          = toasts w
              ++ ToastImporting
              :: ToastImported imported skipped labelsCreated :: rest ->
          let w2 := snd (importProducts net' file w1) in
          sent w2 = sent w1
          /\ cards (app w2) = cards (app w1)
          /\ toasts w2
             = toasts w1
                 ++ [ToastImporting;
                     ToastImported 0 (List.length products) 0]
                 ++ (if importRedrawThrows (app w1) then [ToastImportError]
                     else [])).
Proof.
  intros U net net' file products w Hvalid w1. subst w1.
  rewrite (importProducts_run net file products w Hvalid).
  pose proof (importLoop_toasts net products 0 0 0
                {| app := app w; sent := sent w;
                   toasts := toasts w ++ [ToastImporting] |}) as Htoasts.
  destruct (importLoop net products 0 0 0 _) as [r wl] eqn:Hrun.
  cbn [snd toasts] in Htoasts.
  destruct (importLoop_requests net products 0 0 0 _ _ _ Hrun)
    as (new & Hsent & Hnew).
  cbn [app sent] in Hsent, Hnew.
  assert (Hfirst : exists new0,
             sent wl = sent w ++ new0
             /\ forall p n,
                  In p products -> duplicates (cards (app w)) p ->
                  In n (cardCreations new0) ->
                  toLowerCase n <> toLowerCase (product_name p)).
  { exists new. split; [exact Hsent|].
    intros p n _ (c & Hc & Heq) Hn Hsame.
    apply (Hnew n c Hn Hc). congruence. }
  destruct r as [[[i s] l]|e]; cbn [fst snd app sent toasts].
  - split; [exact Hfirst|].
    destruct (importLoop_deals net products 0 0 0 _ _ _ _ _ Hrun)
      as (cr & sk & new' & cs & Hd & Hi & Hs & Hsent' & Hcc & Hcs & Hcr & Hsk).
    cbn [app sent] in Hsent', Hcs, Hcr. split.
    + intros i' s' l' rest Hdone.
      rewrite Htoasts, <- app_assoc in Hdone.
      apply app_inv_head in Hdone. cbn [List.app] in Hdone.
      injection Hdone; intros _ El Es Ei. rewrite <- Ei, <- Es.
      exists cr, sk, new'. repeat split; try assumption.
      intros p Hp Hdup.
      destruct (Dealt_In _ _ _ p Hd Hp) as [Hin|Hin]; [|exact Hin].
      elim (Hcr p Hin Hdup).
    + intros Hecho i' s' l' rest _.
      destruct (importProducts_all_cached net' file products
                  {| app := app wl; sent := sent wl;
                     toasts := toasts wl
                                 ++ ToastImported i s l
                                 :: (if importRedrawThrows (app wl)
                                     then [ToastImportError] else []) |}
                  Hvalid) as (H1 & H2 & H3).
      * cbn [app]. eapply importLoop_returns; eassumption.
      * cbn [app sent toasts] in H1, H2, H3. repeat split; assumption.
  - split; [exact Hfirst|]. split.
    + intros i s l rest Hdone. rewrite Htoasts, <- app_assoc in Hdone.
      apply app_inv_head in Hdone. discriminate.
    + intros _ i s l rest Hdone. rewrite Htoasts, <- app_assoc in Hdone.
      apply app_inv_head in Hdone. discriminate.
Qed.

Lemma import_twice_skips_all_witness :
  let net := online {| board_id := "b"; board_name := js "Compras" |}
                    [catalogList; shoppingList] [] [mercadona; nevera] in
  let products :=
    [ {| product_name := js "leche entera"; product_desc := [];
         product_stores := []; product_locations := [];
         product_inList := false |};
      {| product_name := js "Queso"; product_desc := [];
         product_stores := [RefObject (js "Mercadona") (Some "orange"%string)];
         product_locations := [RefName (js "Nevera")];
         product_inList := true |};
      {| product_name := js "QUESO"; product_desc := js "curado";
         product_stores := []; product_locations := [];
         product_inList := false |} ] in
  let file := Some {| doc_version := Some 2%N;
                      doc_products := Some products |} in
  let w1 := snd (@importProducts Latin1.tables net file
                   (world (shopApp [leche "L1"] []))) in
  let w2 := snd (@importProducts Latin1.tables offline file w1) in
  map card_name (cards (app w1)) = [js "Leche Entera"; js "Queso"]
  /\ toasts w1 = [ToastImporting; ToastImported 1 2 0]
  /\ sent w2 = sent w1
  /\ cards (app w2) = cards (app w1)
  /\ toasts w2 = toasts w1 ++ [ToastImporting; ToastImported 0 3 0].
Proof.
  intros net products file w1 w2.
  split; [reflexivity|]. split; [reflexivity|].
  destruct (import_twice_skips_all Latin1.tables net offline file products
              (world (shopApp [leche "L1"] [])) eq_refl) as (_ & _ & Htwice).
  assert (Hecho : forall h l n ids d c,
             reply_createCard net h l n ids d = Some c -> card_name c = n)
    by (intros h l n ids d c [= <-]; reflexivity).
  apply (Htwice Hecho 1 2 0 [] eq_refl).
Defined.

(* ================================================================== *)
(** * Export *)
(* ================================================================== *)

Lemma includes_name_In (names : list jsstring) (n : jsstring) :
  includes_name names n = true <-> In n names.
Proof.
  unfold includes_name. rewrite existsb_exists. split.
  - intros (x & Hx & Heq). apply jsstring_eqb_eq in Heq. now subst.
  - intros Hin. exists n. split; [exact Hin|now apply jsstring_eqb_eq].
Qed.

(** X15.  What an export says of a card.  The products come one per cached
    card, in cache order.  A product's stores are the cached labels the card
    carries whose name is a configured store's, its locations the other
    cached labels it carries; label identifiers of the card that no cached
    label has are left out.  The product is flagged as on the list exactly
    when the card is in the resolved active list. *)
Theorem export_describes_cards :
  forall (attachments : Card -> list Attachment) (exported : jsstring)
         (a : App),
    let d := exportProducts attachments exported a in
    export_version d = 2%N
    /\ map export_name (export_products d) = map card_name (cards a)
    /\ forall card,
         In card (cards a) ->
         let p := exportProduct attachments a card in
         In p (export_products d)
         /\ (forall n c,
               In (n, c) (export_stores p)
               <-> exists l, In l (labels a)
                             /\ includes (card_idLabels card) (label_id l) = true
                             /\ In (label_name l) (getStoreNames a)
                             /\ (n, c) = (label_name l, label_color l))
         /\ (forall n c,
               In (n, c) (export_locations p)
               <-> exists l, In l (labels a)
                             /\ includes (card_idLabels card) (label_id l) = true
                             /\ ~ In (label_name l) (getStoreNames a)
                             /\ (n, c) = (label_name l, label_color l))
         /\ List.length (export_stores p) + List.length (export_locations p)
            = List.length
                (filter (fun l => includes (card_idLabels card) (label_id l))
                        (labels a))
         /\ (export_inList p = true
             <-> exists al, activeList a = Some al
                            /\ card_idList card = list_id al).
Proof.
  intros attachments exported a d. subst d.
  split; [reflexivity|]. split.
  { cbn [exportProducts export_products]. rewrite map_map. reflexivity. }
  intros card Hcard p. subst p.
  split; [cbn [exportProducts export_products]; now apply in_map|].
  cbn [exportProduct export_stores export_locations export_inList].
  split; [|split; [|split]].
  - intros n c. rewrite in_map_iff. split.
    + intros (l & Heq & Hin). apply filter_In in Hin as [Hin Hstore].
      apply filter_In in Hin as [Hin Hcarries].
      exists l. repeat split; try assumption; [|now symmetry].
      now apply includes_name_In.
    + intros (l & Hin & Hcarries & Hstore & Heq). exists l.
      split; [now symmetry|]. apply filter_In. split.
      * apply filter_In. now split.
      * now apply includes_name_In.
  - intros n c. rewrite in_map_iff. split.
    + intros (l & Heq & Hin). apply filter_In in Hin as [Hin Hstore].
      apply filter_In in Hin as [Hin Hcarries].
      exists l. repeat split; try assumption; [|now symmetry].
      intros Hn. apply includes_name_In in Hn. rewrite Hn in Hstore.
      discriminate.
    + intros (l & Hin & Hcarries & Hstore & Heq). exists l.
      split; [now symmetry|]. apply filter_In. split.
      * apply filter_In. now split.
      * apply negb_true_iff.
        destruct (includes_name (getStoreNames a) (label_name l)) eqn:E;
          [|reflexivity].
        apply includes_name_In in E. contradiction.
  - rewrite !length_map.
    induction (filter (fun l => includes (card_idLabels card) (label_id l))
                      (labels a)) as [|l ls IH]; [reflexivity|].
    cbn [filter]. destruct (includes_name (getStoreNames a) (label_name l));
      cbn [negb List.length]; lia.
  - destruct (activeList a) as [al|].
    + rewrite String.eqb_eq. split.
      * intros Heq. now exists al.
      * intros (al' & [= <-] & Heq). exact Heq.
    + split; [discriminate|]. intros (al & Hal & _). discriminate.
Qed.

(** X16.  Importing the export of the cache into that same cache changes
    nothing: every product is skipped as a duplicate and nothing is sent.
    The report counts them all; the error toast follows it exactly when the
    redraw that ends the import throws (the detail view without a current
    store, both lists resolved, a card cached). *)
Theorem import_own_export_skips_all :
  forall (U : Unicode) (net : Remote) (attachments : Card -> list Attachment)
         (exported : jsstring) (w : World),
    let file :=
      exportedFile (exportProducts attachments exported (app w)) in
    let w' := snd (importProducts net file w) in
    sent w' = sent w
    /\ cards (app w') = cards (app w)
    /\ toasts w'
       = toasts w
           ++ [ToastImporting;
               ToastImported 0 (List.length (cards (app w))) 0]
           ++ (if importRedrawThrows (app w) then [ToastImportError]
               else []).
Proof.
  intros U net attachments exported w file w'. subst w' file.
  set (products :=
         map (fun p =>
                {| product_name := export_name p;
                   product_desc := export_desc p;
                   product_stores :=
                     map (fun s => RefObject (fst s) (Some (snd s)))
                         (export_stores p);
                   product_locations :=
                     map (fun s => RefObject (fst s) (Some (snd s)))
                         (export_locations p);
                   product_inList := export_inList p |})
             (map (exportProduct attachments (app w)) (cards (app w)))).
  destruct (importProducts_all_cached net
              (exportedFile (exportProducts attachments exported (app w)))
              products w) as (Hs & Hc & Ht).
  - reflexivity.
  - intros p Hp. subst products.
    apply in_map_iff in Hp as (e & <- & He).
    apply in_map_iff in He as (card & <- & Hcard).
    cbn [product_name exportProduct export_name].
    unfold productExists. apply existsb_exists. exists card.
    split; [exact Hcard|now apply jsstring_eqb_eq].
  - subst products. rewrite !length_map in Ht. auto.
Qed.

Lemma find_by_unique_name (lbs : list Label) (l : Label) :
  NoDup (map label_name lbs) -> In l lbs ->
  find (fun x => jsstring_eqb (label_name x) (label_name l)) lbs = Some l.
Proof.
  induction lbs as [|x lbs IH]; cbn [map find]; intros Hnd Hin;
    [destruct Hin|].
  inversion Hnd as [|? ? Hx Hrest]; subst.
  destruct (jsstring_eqb (label_name x) (label_name l)) eqn:E.
  - apply jsstring_eqb_eq in E. destruct Hin as [->|Hin]; [reflexivity|].
    exfalso. apply Hx. rewrite E. now apply in_map.
  - destruct Hin as [->|Hin]; [|now apply IH].
    rewrite (proj2 (jsstring_eqb_eq _ _) eq_refl) in E. discriminate.
Qed.

(** References to labels that are all cached, under names that tell the
    cached labels apart, resolve to those labels without a request. *)
Lemma resolveLabels_cached (net : Remote) (dflt : string) (ls : list Label) :
  forall (ids : list string) (n : nat) (w : World),
    NoDup (map label_name (labels (app w))) ->
    incl ls (labels (app w)) ->
    resolveLabels net dflt
      (map (fun s => RefObject (fst s) (Some (snd s)))
           (map (fun l => (label_name l, label_color l)) ls)) ids n w
    = (Returns (ids ++ map label_id ls, n), w).
Proof.
  induction ls as [|l ls IH]; intros ids n w Hnd Hincl;
    cbn [map resolveLabels].
  - unfold ret. now rewrite app_nil_r.
  - run. cbn [ref_name fst].
    rewrite (find_by_unique_name _ l Hnd (Hincl l (or_introl eq_refl))).
    rewrite IH; [|exact Hnd|intros x Hx; apply Hincl; now right].
    now rewrite <- app_assoc.
Qed.

Section RoundTrip.
Context {U : Unicode}.
Variable net : Remote.
Variable attachments : Card -> list Attachment.
Variable a : App.
Variables al' ap' : TList.

Lemma import_exported_loop (cs : list Card) :
  (forall h l n ids d,
      exists c, reply_createCard net h l n ids d = Some c /\ card_name c = n) ->
  NoDup (map label_name (labels a)) ->
  forall (imported skipped labelsCreated : nat) (w : World),
    labels (app w) = labels a ->
    activeList (app w) = Some al' ->
    allProductsList (app w) = Some ap' ->
    NoDup (map (fun c => toLowerCase (card_name c)) cs) ->
    (forall c x, In c cs -> In x (cards (app w)) ->
                 toLowerCase (card_name x) <> toLowerCase (card_name c)) ->
    exists w',
      importLoop net
        (map (fun p =>
                {| product_name := export_name p;
                   product_desc := export_desc p;
                   product_stores :=
                     map (fun s => RefObject (fst s) (Some (snd s)))
                         (export_stores p);
                   product_locations :=
                     map (fun s => RefObject (fst s) (Some (snd s)))
                         (export_locations p);
                   product_inList := export_inList p |})
             (map (exportProduct attachments a) cs))
        imported skipped labelsCreated w
      = (Returns (imported + List.length cs, skipped, labelsCreated), w')
      /\ sent w' = sent w ++ map (recreate attachments a al' ap') cs
      /\ labels (app w') = labels a
      /\ toasts w' = toasts w
      /\ map card_name (cards (app w'))
         = map card_name (cards (app w)) ++ map card_name cs.
Proof.
  intros Hecho Hnames.
  induction cs as [|c cs IH]; intros i s l w Hl Hal Hap Hnd Hfresh;
    cbn [map importLoop].
  - exists w. unfold ret. cbn [List.length]. rewrite Nat.add_0_r, !app_nil_r.
    repeat split. exact Hl.
  - run. cbn [product_name export_name exportProduct].
    replace (productExists (app w) (card_name c)) with false.
    2:{ symmetry. unfold productExists.
        destruct (existsb _ (cards (app w))) eqn:E; [|reflexivity].
        apply existsb_exists in E as (x & Hx & Heq).
        apply jsstring_eqb_eq in Heq.
        now apply (Hfresh c x (or_introl eq_refl)) in Hx. }
    cbn [product_stores product_locations product_inList product_desc
         export_stores export_locations export_inList export_desc
         exportProduct].
    assert (Hnd' : NoDup (map label_name (labels (app w))))
      by now rewrite Hl.
    rewrite resolveLabels_cached;
      [|exact Hnd'|rewrite Hl; intros x Hx;
                   apply filter_In in Hx as [Hx _];
                   now apply filter_In in Hx as [Hx _]].
    cbn [fst snd List.app].
    rewrite resolveLabels_cached;
      [|exact Hnd'|rewrite Hl; intros x Hx;
                   apply filter_In in Hx as [Hx _];
                   now apply filter_In in Hx as [Hx _]].
    cbn [fst snd].
    fold (exportedLabelIds a c).
    change (map label_id
              (filter (fun l0 => includes_name (getStoreNames a) (label_name l0))
                 (filter (fun l0 => includes (card_idLabels c) (label_id l0))
                    (labels a)))
            ++ map label_id
                 (filter (fun l0 => negb (includes_name (getStoreNames a)
                                            (label_name l0)))
                    (filter (fun l0 => includes (card_idLabels c) (label_id l0))
                       (labels a))))
      with (exportedLabelIds a c).
    set (inList := match activeList a with
                   | Some al => String.eqb (card_idList c) (list_id al)
                   | None => false
                   end).
    assert (Htarget : (if inList then activeList (app w)
                       else allProductsList (app w))
                      = Some (if inList then al' else ap'))
      by (rewrite Hal, Hap; now destruct inList).
    rewrite Htarget. unfold createCard. run.
    destruct (Hecho (sent w) (list_id (if inList then al' else ap'))
                (card_name c) (exportedLabelIds a c) (card_desc c))
      as (card & -> & Hname).
    cbn [fst snd app sent toasts].
    inversion Hnd as [|? ? Hc Hrest]; subst.
    match goal with |- context [importLoop net _ ?i' ?s' ?l' ?w1] =>
      destruct (IH i' s' l' w1) as (w' & Hrun & Hs & Hl' & Ht & Hcs) end;
      cbn [app labels cards set_cards activeList allProductsList];
      try assumption.
    { intros c2 x Hc2 Hx. apply in_app_or in Hx as [Hx|[<-|[]]].
      - apply Hfresh; [now right|exact Hx].
      - rewrite Hname. intros Heq. apply Hc. rewrite Heq.
        apply (in_map (fun c => toLowerCase (card_name c))). exact Hc2. }
    exists w'. rewrite Hrun, Hs, Hl', Ht, Hcs.
    cbn [app sent toasts cards set_cards List.length map].
    rewrite map_app, <- !app_assoc, Nat.add_succ_comm. cbn [map List.app].
    rewrite Hname. repeat split.
    f_equal. f_equal. unfold recreate. cbn [exportProduct export_inList].
    fold inList. now destruct inList.
Qed.

End RoundTrip.

(** X17.  Export followed by import on a board without cards.  When the
    target cache has the labels of the exporting cache, under names that
    tell them apart, both lists resolved and no cards, and the exported
    cards have names that differ beyond letter case, then the import (with a
    remote that answers card creations with cards of the requested names)
    creates no label, skips nothing, and requests one card per exported
    card, in order: same name and description, the active list for a card
    that was on the list and the catalog list otherwise, and the cached
    labels the card carried, stores first.  The report counts them all; the
    error toast follows it exactly when the redraw that ends the import
    throws. *)
Theorem export_import_round_trip :
  forall (U : Unicode) (net : Remote) (attachments : Card -> list Attachment)
         (exported : jsstring) (a : App) (w : World) (al' ap' : TList),
    labels (app w) = labels a ->
    cards (app w) = [] ->
    activeList (app w) = Some al' ->
    allProductsList (app w) = Some ap' ->
    NoDup (map label_name (labels a)) ->
    NoDup (map (fun c => toLowerCase (card_name c)) (cards a)) ->
    (forall h l n ids d,
        exists c, reply_createCard net h l n ids d = Some c /\ card_name c = n) ->
    let w' := snd (importProducts net
                     (exportedFile (exportProducts attachments exported a)) w) in
    sent w' = sent w ++ map (recreate attachments a al' ap') (cards a)
    /\ toasts w'
       = toasts w
           ++ [ToastImporting; ToastImported (List.length (cards a)) 0 0]
           ++ (if importRedrawThrows (app w') then [ToastImportError]
               else [])
    /\ labels (app w') = labels a
    /\ map card_name (cards (app w')) = map card_name (cards a).
Proof.
  intros U net attachments exported a w al' ap' Hl Hcs Hal Hap Hnames Hnd
         Hecho w'.
  subst w'.
  rewrite (importProducts_run net
             (exportedFile (exportProducts attachments exported a)) _ w
             eq_refl).
  cbn [exportProducts export_products].
  destruct (import_exported_loop net attachments a al' ap' (cards a)
              Hecho Hnames 0 0 0
              {| app := app w; sent := sent w;
                 toasts := toasts w ++ [ToastImporting] |})
    as (wl & Hrun & Hs & Hl' & Ht & Hnames');
    cbn [app]; try assumption.
  { intros c x _ Hx. rewrite Hcs in Hx. destruct Hx. }
  rewrite Hrun. cbn [fst snd app sent toasts] in *.
  rewrite Hs, Hl', Ht, Hnames', Hcs, <- app_assoc. repeat split.
Qed.

Lemma export_import_round_trip_witness :
  let net := online {| board_id := "b"; board_name := js "Compras" |}
                    [catalogList; shoppingList] [] [mercadona; nevera] in
  let a := shopApp [leche "L2"; pan "L1"] [] in
  let w' := snd (@importProducts Latin1.tables net
                   (exportedFile (exportProducts (fun _ => []) (js "2026") a))
                   (world (shopApp [] []))) in
  sent w'
  = [ReqCreateCard "L2" (js "Leche Entera") ["S1"; "P1"]%string [];
     ReqCreateCard "L1" (js "Pan") ["S1"]%string []].
Proof.
  intros net a w'.
  assert (Hlabels : NoDup (map label_name (labels a))).
  { cbv. repeat constructor; cbn; intuition discriminate. }
  assert (Hcards : NoDup (map (fun c => @toLowerCase Latin1.tables (card_name c))
                              (cards a))).
  { cbv. repeat constructor; cbn; intuition discriminate. }
  assert (Hecho : forall h l n ids d,
             exists c, reply_createCard net h l n ids d = Some c
                       /\ card_name c = n).
  { intros h l n ids d. eexists. split; reflexivity. }
  exact (proj1 (export_import_round_trip Latin1.tables net (fun _ => [])
                  (js "2026") a (world (shopApp [] [])) shoppingList
                  catalogList eq_refl eq_refl eq_refl eq_refl
                  Hlabels Hcards Hecho)).
Defined.

(* ================================================================== *)
(** * Reloading and refreshing *)
(* ================================================================== *)

Lemma sameNavigation_refl (a : App) : sameNavigation a a.
Proof. repeat split. Qed.

Lemma sameNavigation_trans (a b c : App) :
  sameNavigation a b -> sameNavigation b c -> sameNavigation a c.
Proof.
  intros (V1 & S1 & T1 & Q1 & R1) (V2 & S2 & T2 & Q2 & R2).
  repeat split; congruence.
Qed.

Lemma createLabels_loop_toasts (net : Remote) {A : Type} (boardId : string)
      (nm : A -> jsstring) (col : A -> string) (items : list A) :
  forall w : World,
    toasts (snd (forEach items (fun x =>
                   label <- createLabel net boardId (nm x) (col x) ;;
                   pushLabel label) w)) = toasts w.
Proof.
  induction items as [|x items IH]; intros w; cbn [forEach].
  - reflexivity.
  - unfold createLabel, pushLabel. run.
    destruct (reply_createLabel net (sent w) boardId (nm x) (col x))
      as [label|]; [|reflexivity].
    cbn [snd]. etransitivity; [apply IH|reflexivity].
Qed.

(** The bootstrap shows no toast and does not move the user. *)
Lemma setupBoardStructure_navigation (net : Remote) (w : World) :
  let w' := snd (setupBoardStructure net w) in
  toasts w' = toasts w /\ sameNavigation (app w) (app w').
Proof.
  assert (H1 : forall w,
             toasts (snd (ensureAllProductsList net w)) = toasts w
             /\ sameNavigation (app w) (app (snd (ensureAllProductsList net w)))).
  { clear w. intros w. unfold ensureAllProductsList, createList. run.
    destruct (allProductsList (app w)).
    - split; [reflexivity|apply sameNavigation_refl].
    - destruct (reply_createList net (sent w) _ _ 1);
        cbn [fst snd app sent toasts]; split; try reflexivity;
        repeat split. }
  assert (H2 : forall w,
             toasts (snd (ensureActiveList net w)) = toasts w
             /\ sameNavigation (app w) (app (snd (ensureActiveList net w)))).
  { clear w H1. intros w. unfold ensureActiveList, createList. run.
    destruct (activeList (app w)).
    - split; [reflexivity|apply sameNavigation_refl].
    - destruct (reply_createList net (sent w) _ _ 2);
        cbn [fst snd app sent toasts]; split; try reflexivity;
        repeat split. }
  assert (H3 : forall w,
             toasts (snd (ensureLocationLabels net w)) = toasts w
             /\ sameNavigation (app w) (app (snd (ensureLocationLabels net w)))).
  { clear w H1 H2. intros w. split.
    - unfold ensureLocationLabels. run.
      destruct (filter _ (labels (app w))); [|reflexivity].
      apply createLabels_loop_toasts.
    - destruct (ensureLabels_keep net w) as [[extra ->] _]. repeat split. }
  assert (H4 : forall w,
             toasts (snd (ensureStoreLabels net w)) = toasts w
             /\ sameNavigation (app w) (app (snd (ensureStoreLabels net w)))).
  { clear w H1 H2 H3. intros w. split.
    - unfold ensureStoreLabels. run.
      destruct (filter _ (labels (app w))); [|reflexivity].
      apply createLabels_loop_toasts.
    - destruct (ensureLabels_keep net w) as [_ [extra ->]]. repeat split. }
  intros w'. subst w'. rewrite setupBoardStructure_steps. unfold bind.
  destruct (H1 w) as [T1 N1].
  destruct (ensureAllProductsList net w) as [[[]|e] w1]; cbn [snd] in *;
    [|now split].
  destruct (H2 w1) as [T2 N2].
  destruct (ensureActiveList net w1) as [[[]|e] w2]; cbn [snd] in *;
    [|split; [congruence|eapply sameNavigation_trans; eassumption]].
  destruct (H3 w2) as [T3 N3].
  assert (N13 := sameNavigation_trans _ _ _ (sameNavigation_trans _ _ _ N1 N2) N3).
  destruct (ensureLocationLabels net w2) as [[[]|e] w3]; cbn [snd] in *;
    [|split; [congruence|assumption]].
  destruct (H4 w3) as [T4 N4].
  split; [congruence|eapply sameNavigation_trans; eassumption].
Qed.

(** How [loadBoard] ends, for the proofs about [refresh]. *)
Lemma loadBoard_ends :
  forall (U : Unicode) (net : Remote) (w : World),
  exists w',
    loadBoard net w = (Returns tt, w')
    /\ currentStore (app w') = currentStore (app w)
    /\ selectedStore (app w') = selectedStore (app w)
    /\ recentProducts (app w') = recentProducts (app w)
    /\ ((toasts w' = toasts w
         /\ currentView (app w') = ViewStores
         /\ searchQuery (app w') = [])
        \/ (toasts w' = toasts w ++ [ToastLoadError]
            /\ currentView (app w') = currentView (app w)
            /\ searchQuery (app w') = searchQuery (app w))).
Proof.
  intros U net w. unfold loadBoard, fetchBoardData. run.
  destruct (reply_getBoard net (sent w) (selectedBoardId (app w))) as [b|];
    [|eexists; split; [reflexivity|]; cbn [app toasts]; repeat split;
      right; repeat split].
  destruct (reply_getLists net _ (selectedBoardId (app w))) as [ls|];
    [|eexists; split; [reflexivity|]; cbn [app toasts]; repeat split;
      right; repeat split].
  destruct (reply_getCards net _ (selectedBoardId (app w))) as [cs|];
    [|eexists; split; [reflexivity|]; cbn [app toasts]; repeat split;
      right; repeat split].
  destruct (reply_getLabels net _ (selectedBoardId (app w))) as [lbs|];
    [|eexists; split; [reflexivity|]; cbn [app toasts]; repeat split;
      right; repeat split].
  cbn [fst snd app sent toasts allProductsList activeList set_activeList
       set_allProductsList].
  generalize (find (fun l => jsstring_eqb (list_name l)
                              (listNames_allProducts (config (app w)))) ls)
             (find (fun l => jsstring_eqb (list_name l)
                              (listNames_activeList (config (app w)))) ls).
  intros o1 o2.
  match goal with
  | |- context [{| app := ?a; sent := ?s; toasts := toasts w |}] =>
      set (w1 := {| app := a; sent := s; toasts := toasts w |})
  end.
  pose proof (setupBoardStructure_navigation net w1) as HN. cbv zeta in HN.
  assert (Hdone : exists w',
             (let (o, w'0) :=
                let (o, w'0) := (fun w0 : World => (Returns tt, w0)) w1 in
                match o with
                | Returns _ =>
                    (Returns tt,
                     {| app := fst (showStoreCards (app w'0));
                        sent := sent w'0; toasts := toasts w'0 |})
                | Throws e => (Throws e, w'0)
                end in
              match o with
              | Returns a => (Returns a, w'0)
              | Throws _ =>
                  (Returns tt,
                   {| app := app w'0; sent := sent w'0;
                      toasts := toasts w'0 ++ [ToastLoadError] |})
              end) = (Returns tt, w')
             /\ currentStore (app w') = currentStore (app w)
             /\ selectedStore (app w') = selectedStore (app w)
             /\ recentProducts (app w') = recentProducts (app w)
             /\ ((toasts w' = toasts w
                  /\ currentView (app w') = ViewStores
                  /\ searchQuery (app w') = [])
                 \/ (toasts w' = toasts w ++ [ToastLoadError]
                     /\ currentView (app w') = currentView (app w)
                     /\ searchQuery (app w') = searchQuery (app w)))).
  { eexists. split; [reflexivity|]. cbn. repeat split. left. repeat split. }
  assert (Hsetup : exists w',
             (let (o, w'0) :=
                let (o, w'0) := setupBoardStructure net w1 in
                match o with
                | Returns _ =>
                    (Returns tt,
                     {| app := fst (showStoreCards (app w'0));
                        sent := sent w'0; toasts := toasts w'0 |})
                | Throws e => (Throws e, w'0)
                end in
              match o with
              | Returns a => (Returns a, w'0)
              | Throws _ =>
                  (Returns tt,
                   {| app := app w'0; sent := sent w'0;
                      toasts := toasts w'0 ++ [ToastLoadError] |})
              end) = (Returns tt, w')
             /\ currentStore (app w') = currentStore (app w)
             /\ selectedStore (app w') = selectedStore (app w)
             /\ recentProducts (app w') = recentProducts (app w)
             /\ ((toasts w' = toasts w
                  /\ currentView (app w') = ViewStores
                  /\ searchQuery (app w') = [])
                 \/ (toasts w' = toasts w ++ [ToastLoadError]
                     /\ currentView (app w') = currentView (app w)
                     /\ searchQuery (app w') = searchQuery (app w)))).
  { destruct (setupBoardStructure net w1) as [[[]|e] w2]; cbn [snd] in HN;
      destruct HN as [T (V & S & T' & Q & R)];
      cbn in T, V, S, T', Q, R;
      eexists; (split; [reflexivity|]); cbn; repeat split; try assumption.
    - left. repeat split. assumption.
    - right. repeat split; congruence. }
  clearbody w1.
  destruct o1; [destruct o2|]; [exact Hdone|exact Hsetup|exact Hsetup].
Qed.

(** X18.  [loadBoard] never throws, and it ends in one of two ways.  Either
    it shows no toast and leaves the user in the stores view with an empty
    search text; or it shows the load-error toast, once, and leaves the view
    and the search text as they were.  Either way the store of the detail
    view, the store of the shopping mode and the recent log are kept. *)
Theorem loadBoard_outcome :
  forall (U : Unicode) (net : Remote) (w : World),
  exists w',
    loadBoard net w = (Returns tt, w')
    /\ currentStore (app w') = currentStore (app w)
    /\ selectedStore (app w') = selectedStore (app w)
    /\ recentProducts (app w') = recentProducts (app w)
    /\ ((toasts w' = toasts w
         /\ currentView (app w') = ViewStores
         /\ searchQuery (app w') = [])
        \/ (toasts w' = toasts w ++ [ToastLoadError]
            /\ currentView (app w') = currentView (app w)
            /\ searchQuery (app w') = searchQuery (app w))).
Proof. exact loadBoard_ends. Qed.

(** X19.  Refreshing in the shopping mode forgets the selected store,
    whether or not the board can be read: afterwards the view is still the
    shopping mode and no store is selected, so the store selector is shown.
    The search text is emptied when the load succeeds and kept when it
    fails; the store of the detail view and the recent log are kept. *)
Theorem refresh_shopping_forgets_store :
  forall (U : Unicode) (net : Remote) (w : World),
    currentView (app w) = ViewShopping ->
    exists w',
      refresh net w = (Returns tt, w')
      /\ currentView (app w') = ViewShopping
      /\ selectedStore (app w') = None
      /\ currentStore (app w') = currentStore (app w)
      /\ recentProducts (app w') = recentProducts (app w)
      /\ ((toasts w' = toasts w /\ searchQuery (app w') = [])
          \/ (toasts w' = toasts w ++ [ToastLoadError]
              /\ searchQuery (app w') = searchQuery (app w))).
Proof.
  intros U net w Hview.
  destruct (loadBoard_ends U net w)
    as (w1 & Hrun & Hstore & _ & Hlog & Hends).
  unfold refresh. run. rewrite Hview, Hrun. cbn [fst snd].
  eexists. split; [reflexivity|].
  cbn [app toasts showShoppingMode fst currentView selectedStore currentStore
       recentProducts searchQuery set_currentView set_selectedStore].
  repeat split; try assumption.
  destruct Hends as [(Ht & _ & Hq)|(Ht & _ & Hq)]; [left|right]; now split.
Qed.

Lemma refresh_shopping_forgets_store_witness :
  let w := world (set_selectedStore (Some mercadona)
                    (fst (showShoppingMode (shopApp [leche "L2"] [])))) in
  selectedStore (app w) = Some mercadona
  /\ exists w',
       @refresh Latin1.tables offline w = (Returns tt, w')
       /\ currentView (app w') = ViewShopping
       /\ selectedStore (app w') = None.
Proof.
  intros w. split; [reflexivity|].
  destruct (refresh_shopping_forgets_store Latin1.tables offline w eq_refl)
    as (w' & Hrun & Hview & Hsel & _).
  exists w'. repeat split; assumption.
Defined.

(** X20.  Refreshing in the detail view of a store.  When the label cache
    after the reload holds a label with the identifier of that store, the
    detail view is entered again for that label, with an empty search text.
    Otherwise the store of the detail view stays as it was and the reload
    decides the view: the stores view if it succeeded, the detail view it
    came from, with the load-error toast, if it failed. *)
Theorem refresh_detail_follows_label :
  forall (U : Unicode) (net : Remote) (w : World) (store : Label),
    currentView (app w) = ViewDetail ->
    currentStore (app w) = Some store ->
    exists w',
      refresh net w = (Returns tt, w')
      /\ recentProducts (app w') = recentProducts (app w)
      /\ match find (fun l => String.eqb (label_id l) (label_id store))
                    (labels (app w')) with
         | Some storeLabel =>
             currentView (app w') = ViewDetail
             /\ currentStore (app w') = Some storeLabel
             /\ searchQuery (app w') = []
         | None =>
             currentStore (app w') = Some store
             /\ ((toasts w' = toasts w
                  /\ currentView (app w') = ViewStores)
                 \/ (toasts w' = toasts w ++ [ToastLoadError]
                     /\ currentView (app w') = ViewDetail))
         end.
Proof.
  intros U net w store Hview Hstore.
  destruct (loadBoard_ends U net w)
    as (w1 & Hrun & Hstore1 & _ & Hlog & Hends).
  unfold refresh. run. rewrite Hview, Hrun. cbn [fst snd].
  rewrite Hstore1, Hstore.
  destruct (find (fun l => String.eqb (label_id l) (label_id store))
                 (labels (app w1))) as [storeLabel|] eqn:Hfind.
  - eexists. split; [reflexivity|].
    cbn [app toasts showStoreDetail fst currentView currentStore labels
         recentProducts searchQuery set_currentView set_currentStore
         set_searchQuery].
    rewrite Hfind. repeat split. assumption.
  - eexists. split; [reflexivity|]. rewrite Hfind.
    split; [assumption|]. split; [congruence|].
    destruct Hends as [(Ht & Hv & _)|(Ht & Hv & _)]; [left|right];
      split; congruence.
Qed.

Lemma refresh_detail_follows_label_witness :
  let net := online {| board_id := "b"; board_name := js "Compras" |}
                    [catalogList; shoppingList] [leche "L2"] [nevera] in
  let w := world (fst (@showStoreDetail Latin1.tables mercadona
                         (shopApp [leche "L2"] []))) in
  exists w',
    @refresh Latin1.tables net w = (Returns tt, w')
    /\ currentView (app w') = ViewStores
    /\ currentStore (app w') = Some mercadona.
Proof.
  intros net w.
  destruct (refresh_detail_follows_label Latin1.tables net w mercadona
              eq_refl eq_refl) as (w' & Hrun & _ & H).
  exists w'. split; [exact Hrun|].
  assert (Hw' : w' = snd (@refresh Latin1.tables net w))
    by (now rewrite Hrun).
  rewrite Hw' in H |- *. vm_compute in H |- *.
  destruct H as [Hs _]. split; [reflexivity|exact Hs].
Defined.

(* ================================================================== *)
(** * The view state machine and the search text *)
(* ================================================================== *)






(* ================================================================== *)
(** * Attachment URLs and the image cache *)
(* ================================================================== *)

Lemma includesSubstring_spec (s sub : jsstring) :
  includesSubstring s sub = true <-> exists pre post, s = pre ++ sub ++ post.
Proof.
  split.
  - induction s as [|c s IH]; cbn [includesSubstring];
      rewrite orb_true_iff; intros [H|H]; try discriminate.
    + apply startsWith_prefix in H. destruct H as [r Hr]. now exists [], r.
    + apply startsWith_prefix in H. destruct H as [r Hr]. now exists [], r.
    + destruct (IH H) as (pre & post & ->). now exists (c :: pre), post.
  - intros (pre & post & ->).
    induction pre as [|c pre IH].
    + assert (H : startsWith (sub ++ post) sub = true)
        by (apply startsWith_prefix; now exists post).
      cbn [List.app]. destruct (sub ++ post); cbn [includesSubstring];
        rewrite H; reflexivity.
    + cbn [List.app includesSubstring]. rewrite IH. apply orb_true_r.
Qed.

(** X21.  A URL that [getAttachmentUrl] returns is not empty, carries a
    token parameter, and begins with the address of the attachment or of one
    of its previews; and the credentials are added once only: an attachment
    that has the returned URL as its address gets that URL back untouched. *)
Theorem getAttachmentUrl_authenticated :
  forall (apiKey apiToken : jsstring) (attachment : Attachment)
         (url : jsstring),
    getAttachmentUrl apiKey apiToken (Some attachment) = Some url ->
    url <> []
    /\ includesSubstring url (js "token=") = true
    /\ (exists base rest,
           url = base ++ rest
           /\ (base = att_url attachment
               \/ In base (map preview_url (att_previews attachment))))
    /\ forall mimeType,
         getAttachmentUrl apiKey apiToken
           (Some {| att_url := url; att_mimeType := mimeType;
                    att_previews := [] |}) = Some url.
Proof.
  intros apiKey apiToken attachment url. unfold getAttachmentUrl.
  set (chosen := match att_previews attachment with
                 | [] => []
                 | p0 :: _ => _
                 end).
  assert (Hchosen : chosen = []
                    \/ In chosen (map preview_url (att_previews attachment))).
  { subst chosen. destruct (att_previews attachment) as [|p0 ps] eqn:Hps;
      [now left|right].
    apply in_map.
    destruct (find _ (p0 :: ps)) as [p|] eqn:Hfind.
    - apply find_some in Hfind. apply Hfind.
    - destruct (exists_last (l := p0 :: ps)) as (l' & x & Hx);
        [discriminate|].
      rewrite Hx, last_last. apply in_or_app. right. now left. }
  set (base := match chosen with [] => att_url attachment | _ :: _ => chosen end).
  assert (Hbase : base = att_url attachment
                  \/ In base (map preview_url (att_previews attachment))).
  { subst base. destruct chosen; [now left|].
    destruct Hchosen as [H|H]; [discriminate|now right]. }
  clearbody base. clear chosen Hchosen.
  destruct base as [|c base]; [discriminate|].
  destruct (includesSubstring (c :: base) (js "token=")) eqn:Htoken.
  - intros [= <-]. split; [discriminate|]. split; [exact Htoken|].
    split; [exists (c :: base), []; now rewrite app_nil_r|].
    intros mimeType. cbn [att_previews att_url]. now rewrite Htoken.
  - intros [= Hurl].
    assert (Hinc : includesSubstring url (js "token=") = true).
    { rewrite <- Hurl. apply includesSubstring_spec.
      exists ((c :: base)
                ++ (if includesSubstring (c :: base) (js "?")
                    then js "&" else js "?")
                ++ js "key=" ++ apiKey ++ js "&"), apiToken.
      repeat rewrite <- app_assoc. reflexivity. }
    assert (Hne : url <> []) by (rewrite <- Hurl; discriminate).
    split; [exact Hne|]. split; [exact Hinc|].
    split; [eexists (c :: base), _; split; [symmetry; exact Hurl|exact Hbase]|].
    intros mimeType. cbn [att_previews att_url].
    destruct url as [|d url]; [congruence|]. now rewrite Hinc.
Qed.

Lemma getAttachmentUrl_authenticated_witness :
  let attachment :=
    {| att_url := js "https://trello.com/a/1.png";
       att_mimeType := js "image/png";
       att_previews :=
         [{| preview_width := 150; preview_url := js "https://trello.com/p/150" |};
          {| preview_width := 400; preview_url := js "https://trello.com/p/400" |}]
    |} in
  let url := js "https://trello.com/p/400?key=k&token=t" in
  getAttachmentUrl (js "k") (js "t") (Some attachment) = Some url
  /\ includesSubstring url (js "token=") = true
  /\ getAttachmentUrl (js "k") (js "t")
       (Some {| att_url := url; att_mimeType := js "image/png";
                att_previews := [] |}) = Some url.
Proof.
  intros attachment url.
  assert (Hrun : getAttachmentUrl (js "k") (js "t") (Some attachment)
                 = Some url) by reflexivity.
  destruct (getAttachmentUrl_authenticated (js "k") (js "t") attachment url
              Hrun) as (_ & Htoken & _ & Hagain).
  split; [exact Hrun|]. split; [exact Htoken|apply Hagain].
Defined.

Lemma jsstring_eqb_refl (s : jsstring) : jsstring_eqb s s = true.
Proof. now apply jsstring_eqb_eq. Qed.

Lemma jsstring_eqb_neq (a b : jsstring) : a <> b -> jsstring_eqb a b = false.
Proof.
  intros Hne. destruct (jsstring_eqb a b) eqn:H; [|reflexivity].
  apply jsstring_eqb_eq in H. contradiction.
Qed.

Lemma mapGet_mapSet_same (k v : jsstring) (m : list (jsstring * jsstring)) :
  mapGet k (mapSet k v m) = Some v.
Proof.
  unfold mapGet. induction m as [|e m IH]; cbn [mapSet find fst].
  - now rewrite jsstring_eqb_refl.
  - destruct (jsstring_eqb (fst e) k) eqn:He; cbn [find fst].
    + now rewrite jsstring_eqb_refl.
    + rewrite He. exact IH.
Qed.

Lemma mapGet_mapSet_other (k k' v : jsstring)
      (m : list (jsstring * jsstring)) :
  k' <> k -> mapGet k' (mapSet k v m) = mapGet k' m.
Proof.
  intros Hne. unfold mapGet.
  induction m as [|e m IH]; cbn [mapSet find fst].
  - rewrite jsstring_eqb_neq; [reflexivity|congruence].
  - destruct (jsstring_eqb (fst e) k) eqn:He; cbn [find fst].
    + apply jsstring_eqb_eq in He. rewrite He.
      rewrite jsstring_eqb_neq; [reflexivity|congruence].
    + destruct (jsstring_eqb (fst e) k'); [reflexivity|exact IH].
Qed.

(** X22.  The image cache only grows: whatever a call of
    [fetchImageWithOAuth] fetches and whatever the proxy answers, a URL that
    had a blob URL in the cache before the call has the same one after
    it. *)
Theorem image_cache_keeps_entries :
  forall (workerUrl : jsstring) (encodeURIComponent : jsstring -> jsstring)
         (proxy : list jsstring -> jsstring -> ProxyReply)
         (url : jsstring) (s : Images) (k v : jsstring),
    mapGet k (imageCache s) = Some v ->
    mapGet k (imageCache
                (snd (fetchImageWithOAuth workerUrl encodeURIComponent proxy
                                          url s))) = Some v.
Proof.
  intros workerUrl enc proxy url s k v Hk. unfold fetchImageWithOAuth.
  destruct url as [|c url]; [exact Hk|].
  destruct (mapGet (c :: url) (imageCache s)) eqn:Hurl; [exact Hk|].
  destruct (includesSubstring workerUrl (js "YOUR_USERNAME")); [exact Hk|].
  destruct (proxy (fetched s) _) as [| |size blobUrl]; try exact Hk.
  destruct (0 <? size)%N; [|exact Hk].
  cbn [snd imageCache]. rewrite mapGet_mapSet_other; [exact Hk|].
  intros ->. congruence.
Qed.

Lemma image_cache_keeps_entries_witness :
  let s := {| imageCache := [(js "a.png", js "blob:1")]; fetched := [] |} in
  mapGet (js "a.png")
         (imageCache
            (snd (fetchImageWithOAuth (js "https://w.dev") (fun u => u)
                    (fun _ _ => ProxyBlob 7 (js "blob:2")) (js "b.png") s)))
  = Some (js "blob:1").
Proof.
  intros s.
  apply (image_cache_keeps_entries (js "https://w.dev") (fun u => u)
           (fun _ _ => ProxyBlob 7 (js "blob:2")) (js "b.png") s
           (js "a.png") (js "blob:1")).
  reflexivity.
Defined.

(** X23.  An image is fetched once: when [fetchImageWithOAuth] has returned
    a blob URL for a URL, every later call for that URL in the resulting
    state returns the same blob URL and fetches nothing, whatever the worker
    address and the proxy are by then. *)
Theorem image_served_from_cache :
  forall (workerUrl : jsstring) (encodeURIComponent : jsstring -> jsstring)
         (proxy : list jsstring -> jsstring -> ProxyReply)
         (url blobUrl : jsstring) (s s' : Images),
    fetchImageWithOAuth workerUrl encodeURIComponent proxy url s
    = (Some blobUrl, s') ->
    forall workerUrl' encodeURIComponent' proxy',
      fetchImageWithOAuth workerUrl' encodeURIComponent' proxy' url s'
      = (Some blobUrl, s').
Proof.
  intros workerUrl enc proxy url blobUrl s s'. unfold fetchImageWithOAuth.
  destruct url as [|c url]; [discriminate|].
  destruct (mapGet (c :: url) (imageCache s)) as [cached|] eqn:Hurl.
  - intros [= <- <-] workerUrl' enc' proxy'. now rewrite Hurl.
  - destruct (includesSubstring workerUrl (js "YOUR_USERNAME"));
      [discriminate|].
    destruct (proxy (fetched s) _) as [| |size blob]; try discriminate.
    destruct (0 <? size)%N; [|discriminate].
    intros [= <- <-] workerUrl' enc' proxy'. cbn [imageCache].
    now rewrite mapGet_mapSet_same.
Qed.

Lemma image_served_from_cache_witness :
  let s := {| imageCache := []; fetched := [] |} in
  let s' := {| imageCache := [(js "b.png", js "blob:2")];
               fetched := [js "https://w.dev?url=b.png"] |} in
  fetchImageWithOAuth (js "https://w.dev") (fun u => u)
    (fun _ _ => ProxyBlob 7 (js "blob:2")) (js "b.png") s
  = (Some (js "blob:2"), s')
  /\ fetchImageWithOAuth (js "https://YOUR_USERNAME.workers.dev") (fun u => u)
       (fun _ _ => ProxyThrows) (js "b.png") s'
     = (Some (js "blob:2"), s').
Proof.
  intros s s'.
  assert (Hrun : fetchImageWithOAuth (js "https://w.dev") (fun u => u)
                   (fun _ _ => ProxyBlob 7 (js "blob:2")) (js "b.png") s
                 = (Some (js "blob:2"), s')) by reflexivity.
  split; [exact Hrun|].
  apply (image_served_from_cache _ _ _ _ _ _ _ Hrun).
Defined.

(** A call for a URL that is not cached asks a configured worker once. *)
Lemma fetchImageWithOAuth_uncached
      (workerUrl : jsstring) (encodeURIComponent : jsstring -> jsstring)
      (proxy : list jsstring -> jsstring -> ProxyReply)
      (url : jsstring) (s : Images) :
  url <> [] ->
  includesSubstring workerUrl (js "YOUR_USERNAME") = false ->
  mapGet url (imageCache s) = None ->
  fetched (snd (fetchImageWithOAuth workerUrl encodeURIComponent proxy url s))
  = fetched s ++ [workerUrl ++ js "?url=" ++ encodeURIComponent url].
Proof.
  intros Hne Hworker Hurl. unfold fetchImageWithOAuth.
  destruct url as [|c url]; [contradiction|].
  rewrite Hurl, Hworker.
  destruct (proxy (fetched s) _) as [| |size blob]; try reflexivity.
  now destruct (0 <? size)%N.
Qed.

(** X24.  A failed load is not remembered.  With a configured worker, a call
    that returns nothing for a URL has asked the proxy for it once and has
    left the cache as it was, and the next call for the same URL asks the
    proxy again. *)
Theorem image_failure_retried :
  forall (workerUrl : jsstring) (encodeURIComponent : jsstring -> jsstring)
         (proxy : list jsstring -> jsstring -> ProxyReply)
         (url : jsstring) (s s' : Images),
    url <> [] ->
    includesSubstring workerUrl (js "YOUR_USERNAME") = false ->
    fetchImageWithOAuth workerUrl encodeURIComponent proxy url s
    = (None, s') ->
    let proxyUrl := workerUrl ++ js "?url=" ++ encodeURIComponent url in
    fetched s' = fetched s ++ [proxyUrl]
    /\ imageCache s' = imageCache s
    /\ forall proxy',
         fetched (snd (fetchImageWithOAuth workerUrl encodeURIComponent
                                           proxy' url s'))
         = fetched s' ++ [proxyUrl].
Proof.
  intros workerUrl enc proxy url s s' Hne Hworker Hrun proxyUrl.
  assert (H : mapGet url (imageCache s) = None
              /\ fetched s' = fetched s ++ [proxyUrl]
              /\ imageCache s' = imageCache s).
  { subst proxyUrl. revert Hrun. unfold fetchImageWithOAuth.
    destruct url as [|c url]; [contradiction|].
    rewrite Hworker.
    destruct (mapGet (c :: url) (imageCache s)) as [cached|];
      [discriminate|].
    destruct (proxy (fetched s) _) as [| |size blob].
    - intros [= <-]. repeat split.
    - intros [= <-]. repeat split.
    - destruct (0 <? size)%N; [discriminate|]. intros [= <-]. repeat split. }
  destruct H as (Hurl & Hfetched & Hcache).
  split; [exact Hfetched|]. split; [exact Hcache|].
  intros proxy'. apply fetchImageWithOAuth_uncached; try assumption.
  now rewrite Hcache.
Qed.

Lemma image_failure_retried_witness :
  let s := {| imageCache := []; fetched := [] |} in
  let s' := {| imageCache := []; fetched := [js "https://w.dev?url=b.png"] |} in
  fetched (snd (fetchImageWithOAuth (js "https://w.dev") (fun u => u)
                  (fun _ _ => ProxyBlob 7 (js "blob:2")) (js "b.png") s'))
  = [js "https://w.dev?url=b.png"; js "https://w.dev?url=b.png"].
Proof.
  intros s s'.
  assert (Hrun : fetchImageWithOAuth (js "https://w.dev") (fun u => u)
                   (fun _ _ => ProxyNotOk) (js "b.png") s = (None, s'))
    by reflexivity.
  assert (Hne : js "b.png" <> []) by discriminate.
  destruct (image_failure_retried (js "https://w.dev") (fun u => u)
              (fun _ _ => ProxyNotOk) (js "b.png") s s' Hne eq_refl Hrun)
    as (_ & _ & Hagain).
  exact (Hagain (fun _ _ => ProxyBlob 7 (js "blob:2"))).
Defined.

(* ================================================================== *)
(** * The product dialogs and the settings *)
(* ================================================================== *)

Ltac runD :=
  unfold bindD, retD, throwD, tryCatchD, liftW, dialogs, update, notify,
         closeAddModal, resetAddModal, addAttachmentToCard, reloadCard,
         getCardAttachments, rerenderStoreDetail, rerenderShoppingView,
         createCard, deleteCard, createLabel, pushLabel,
         bind, ret, this, assign, showToast, throw, tryCatch, trelloFetch, ok;
  cbn [fst snd app sent toasts base selectedLabels addModalOpen
       detailModalOpen currentEditingCard currentCardImages uploads notices
       set_base set_selectedLabels set_addModalOpen set_detailModalOpen
       set_currentEditingCard set_currentCardImages set_uploads set_notices
       selectedBoardId board lists allProductsList activeList cards labels
       config currentView currentStore selectedStore searchQuery
       recentProducts set_cards set_labels set_config set_currentView
       set_searchQuery showStoreCards stores set_stores].

(** X25.  [createProduct] never throws, and what it asks of the remote is
    checked first.  Either it sends nothing, uploads nothing and leaves the
    card cache; or it has sent exactly one card creation, for the catalog
    list, under the trimmed name, which is not empty, with the whole
    selection as labels, and one of the selected labels is a cached label
    that bears a configured store's name. *)
Theorem createProduct_request :
  forall (net : Remote) (up : Uploader) (nameValue descriptionValue : jsstring)
         (imageFile : option jsstring) (d : Dialogs),
    let a := app (base d) in
    let d' := snd (createProduct net up nameValue descriptionValue imageFile d) in
    fst (createProduct net up nameValue descriptionValue imageFile d)
    = Returns tt
    /\ ((sent (base d') = sent (base d) /\ uploads d' = uploads d
         /\ cards (app (base d')) = cards a)
        \/ (exists catalog label,
              allProductsList a = Some catalog
              /\ trim nameValue <> []
              /\ In (label_id label) (selectedLabels d)
              /\ In label (labels a)
              /\ isStoreLabel a label = true
              /\ sent (base d')
                 = sent (base d)
                     ++ [ReqCreateCard (list_id catalog) (trim nameValue)
                                       (selectedLabels d)
                                       (trim descriptionValue)])).
Proof.
  intros net up nameValue descriptionValue imageFile d a d'. subst a d'.
  unfold createProduct.
  destruct (trim nameValue) as [|c name] eqn:Hname.
  { runD. split; [reflexivity|]. left. repeat split. }
  runD.
  destruct (selectedStoreLabels (app (base d)) (selectedLabels d))
    as [|labelId rest] eqn:Hsel.
  { runD. split; [reflexivity|]. left. repeat split. }
  assert (Hin : In labelId (labelId :: rest)) by now left.
  rewrite <- Hsel in Hin. unfold selectedStoreLabels in Hin.
  apply filter_In in Hin as [Hin Hstore].
  destruct (find _ (labels (app (base d)))) as [label|] eqn:Hfind;
    [|discriminate].
  apply find_some in Hfind as [Hlabel Hid]. apply String.eqb_eq in Hid.
  destruct (allProductsList (app (base d))) as [catalog|] eqn:Hcat.
  2:{ runD. split; [reflexivity|]. left. repeat split. }
  runD.
  assert (Hgoal : exists catalog0 label0,
             Some catalog = Some catalog0
             /\ c :: name <> []
             /\ In (label_id label0) (selectedLabels d)
             /\ In label0 (labels (app (base d)))
             /\ isStoreLabel (app (base d)) label0 = true
             /\ sent (base d)
                  ++ [ReqCreateCard (list_id catalog) (c :: name)
                                    (selectedLabels d) (trim descriptionValue)]
                = sent (base d)
                    ++ [ReqCreateCard (list_id catalog0) (c :: name)
                                      (selectedLabels d)
                                      (trim descriptionValue)]).
  { exists catalog, label. rewrite Hid.
    repeat split; try assumption. discriminate. }
  destruct (reply_createCard net _ _ _ _ _) as [card|]; runD;
    [|split; [reflexivity|right; exact Hgoal]].
  destruct imageFile as [file|]; runD.
  - destruct (reply_addAttachment up _ _ _ _); runD;
      [|split; [reflexivity|right; exact Hgoal]].
    destruct (reply_getCard up _ _ _) as [updatedCard|]; runD;
      [|split; [reflexivity|right; exact Hgoal]].
    destruct (currentView (app (base d))); runD.
    + split; [reflexivity|right; exact Hgoal].
    + rewrite Hcat.
      destruct (currentStore (app (base d))); runD;
        [split; [reflexivity|right; exact Hgoal]|].
      destruct (activeList (app (base d))); runD;
        [|split; [reflexivity|right; exact Hgoal]].
      destruct (cards (app (base d))); cbn [List.app]; runD;
        split; try reflexivity; right; exact Hgoal.
    + destruct (selectedStore (app (base d))); runD;
        split; try reflexivity; right; exact Hgoal.
  - destruct (currentView (app (base d))); runD.
    + split; [reflexivity|right; exact Hgoal].
    + rewrite Hcat.
      destruct (currentStore (app (base d))); runD;
        [split; [reflexivity|right; exact Hgoal]|].
      destruct (activeList (app (base d))); runD;
        [|split; [reflexivity|right; exact Hgoal]].
      destruct (cards (app (base d))); cbn [List.app]; runD;
        split; try reflexivity; right; exact Hgoal.
    + destruct (selectedStore (app (base d))); runD;
        split; try reflexivity; right; exact Hgoal.
Qed.

(** X26.  In the shopping mode with no store selected, a product that
    passes the checks and that the remote creates is added to the cache, and
    the dialog is closed and its selection cleared; but redrawing the
    shopping view fails for want of a store, so the error toast is shown in
    place of the creation notice. *)
Theorem createProduct_reports_error_after_creating :
  forall (net : Remote) (up : Uploader) (nameValue descriptionValue : jsstring)
         (d : Dialogs) (catalog : TList) (card : Card),
    let a := app (base d) in
    let request := ReqCreateCard (list_id catalog) (trim nameValue)
                                 (selectedLabels d) (trim descriptionValue) in
    trim nameValue <> [] ->
    selectedStoreLabels a (selectedLabels d) <> [] ->
    allProductsList a = Some catalog ->
    reply_createCard net (sent (base d)) (list_id catalog) (trim nameValue)
                     (selectedLabels d) (trim descriptionValue) = Some card ->
    currentView a = ViewShopping ->
    selectedStore a = None ->
    createProduct net up nameValue descriptionValue None d
    = (Returns tt,
       {| base := {| app := set_cards (cards a ++ [card]) a;
                     sent := sent (base d) ++ [request];
                     toasts := toasts (base d) ++ [ToastError] |};
          selectedLabels := [];
          addModalOpen := false;
          detailModalOpen := detailModalOpen d;
          currentEditingCard := currentEditingCard d;
          currentCardImages := currentCardImages d;
          uploads := uploads d;
          notices := notices d |}).
Proof.
  intros net up nameValue descriptionValue d catalog card a request
         Hname Hsel Hcat Hreply Hview Hstore.
  subst a request. unfold createProduct.
  destruct (trim nameValue) as [|c name]; [contradiction|]. runD.
  destruct (selectedStoreLabels _ _); [contradiction|].
  rewrite Hcat. runD. rewrite Hreply. runD. rewrite Hview. runD.
  rewrite Hstore. reflexivity.
Qed.

Lemma createProduct_reports_error_after_creating_witness :
  let net := online {| board_id := "b"; board_name := js "Compras" |}
                    [catalogList; shoppingList] [] [mercadona; nevera] in
  let d := snd (labelCheckboxChange "S1" true
                  (snd (openAddModal
                          (dialogsOf
                             (world (fst (showShoppingMode
                                            (shopApp [] [])))))))) in
  let d' := snd (createProduct net uploaderOk (js " Yogur ") [] None d) in
  map card_name (cards (app (base d'))) = [js "Yogur"]
  /\ toasts (base d') = [ToastError]
  /\ notices d' = []
  /\ addModalOpen d' = false.
Proof.
  intros net d d'.
  assert (Hname : trim (js " Yogur ") <> []) by (vm_compute; discriminate).
  assert (Hsel : selectedStoreLabels (app (base d)) (selectedLabels d) <> [])
    by (vm_compute; discriminate).
  pose proof (createProduct_reports_error_after_creating
                net uploaderOk (js " Yogur ") [] d catalogList
                {| card_id := "n"; card_name := js "Yogur"; card_desc := [];
                   card_idList := "L1"; card_idLabels := ["S1"]%string |}
                Hname Hsel eq_refl eq_refl eq_refl eq_refl) as Hrun.
  subst d'. rewrite Hrun. repeat split.
Defined.

(** X27.  When the card of a product with an image is created and the
    upload of the image is rejected, [createProduct] stops with the error
    toast: the card the remote now has is not added to the cache, and the
    dialog stays as it was, selection included. *)
Theorem createProduct_upload_failure :
  forall (net : Remote) (up : Uploader) (nameValue descriptionValue : jsstring)
         (file : jsstring) (d : Dialogs) (catalog : TList) (card : Card),
    let a := app (base d) in
    let request := ReqCreateCard (list_id catalog) (trim nameValue)
                                 (selectedLabels d) (trim descriptionValue) in
    trim nameValue <> [] ->
    selectedStoreLabels a (selectedLabels d) <> [] ->
    allProductsList a = Some catalog ->
    reply_createCard net (sent (base d)) (list_id catalog) (trim nameValue)
                     (selectedLabels d) (trim descriptionValue) = Some card ->
    reply_addAttachment up (sent (base d) ++ [request]) (uploads d)
                        (card_id card) file = false ->
    createProduct net up nameValue descriptionValue (Some file) d
    = (Returns tt,
       {| base := {| app := a;
                     sent := sent (base d) ++ [request];
                     toasts := toasts (base d) ++ [ToastError] |};
          selectedLabels := selectedLabels d;
          addModalOpen := addModalOpen d;
          detailModalOpen := detailModalOpen d;
          currentEditingCard := currentEditingCard d;
          currentCardImages := currentCardImages d;
          uploads := uploads d ++ [UpAddAttachment (card_id card) file];
          notices := notices d |}).
Proof.
  intros net up nameValue descriptionValue file d catalog card a request
         Hname Hsel Hcat Hreply Hupload.
  subst a request. unfold createProduct.
  destruct (trim nameValue) as [|c name]; [contradiction|]. runD.
  destruct (selectedStoreLabels _ _); [contradiction|].
  rewrite Hcat. runD. rewrite Hreply. runD. rewrite Hupload. reflexivity.
Qed.

Lemma createProduct_upload_failure_witness :
  let net := online {| board_id := "b"; board_name := js "Compras" |}
                    [catalogList; shoppingList] [] [mercadona; nevera] in
  let d := snd (labelCheckboxChange "S1" true
                  (snd (openAddModal (dialogsOf (world (shopApp [] [])))))) in
  let d' := snd (createProduct net uploaderDown (js "Yogur") []
                               (Some (js "yogur.png")) d) in
  sent (base d') = [ReqCreateCard "L1" (js "Yogur") ["S1"]%string []]
  /\ cards (app (base d')) = []
  /\ selectedLabels d' = ["S1"]%string
  /\ addModalOpen d' = true.
Proof.
  intros net d d'.
  assert (Hname : trim (js "Yogur") <> []) by (vm_compute; discriminate).
  assert (Hsel : selectedStoreLabels (app (base d)) (selectedLabels d) <> [])
    by (vm_compute; discriminate).
  pose proof (createProduct_upload_failure
                net uploaderDown (js "Yogur") [] (js "yogur.png") d
                catalogList
                {| card_id := "n"; card_name := js "Yogur"; card_desc := [];
                   card_idList := "L1"; card_idLabels := ["S1"]%string |}
                Hname Hsel eq_refl eq_refl eq_refl) as Hrun.
  subst d'. rewrite Hrun. repeat split.
Defined.

Lemma findCard_filter_out (cardId : string) (cs : list Card) :
  findCard cardId
    (filter (fun c => negb (String.eqb (card_id c) cardId)) cs) = None.
Proof.
  unfold findCard. induction cs as [|c cs IH]; [reflexivity|].
  cbn [filter]. destruct (String.eqb (card_id c) cardId) eqn:E; cbn [negb].
  - exact IH.
  - cbn [find]. now rewrite E.
Qed.

(** X28.  [deleteProduct] never throws and leaves the recent log alone.
    For an identifier that no cached card has it sends nothing and only
    reports that.  Otherwise it sends one deletion: if the remote rejects it
    the application object is unchanged and the error is reported; if the
    remote accepts it the cards of that identifier leave the cache, nothing
    else of the application object changes, the detail dialog is hidden and
    the deletion is reported.  The error notice follows that report exactly
    when the current view is the detail view and its redraw throws on the
    state after the deletion (no current store, both lists resolved, a card
    left in the cache); in every other case the report is the last notice. *)
Theorem deleteProduct_outcome :
  forall (net : Remote) (cardId : string) (d : Dialogs),
    let a := app (base d) in
    let d' := snd (deleteProduct net cardId d) in
    fst (deleteProduct net cardId d) = Returns tt
    /\ recentProducts (app (base d')) = recentProducts a
    /\ match findCard cardId (cards a) with
       | None =>
           base d' = base d
           /\ notices d' = notices d ++ [NoticeProductNotFound]
       | Some card =>
           sent (base d') = sent (base d) ++ [ReqDeleteCard cardId]
           /\ if reply_deleteCard net (sent (base d)) cardId
              then app (base d')
                   = set_cards
                       (filter (fun c => negb (String.eqb (card_id c) cardId))
                               (cards a)) a
                   /\ cards (app (base d'))
                      = filter (fun c => negb (String.eqb (card_id c) cardId))
                               (cards a)
                   /\ findCard cardId (cards (app (base d'))) = None
                   /\ detailModalOpen d' = false
                   /\ notices d'
                      = notices d
                          ++ NoticeProductDeleted (card_name card)
                          :: (if match currentView (app (base d')) with
                                 | ViewDetail =>
                                     detailRedrawThrows (app (base d'))
                                 | ViewStores | ViewShopping => false
                                 end
                              then [NoticeDeleteError]
                              else [])
              else app (base d') = a
                   /\ notices d' = notices d ++ [NoticeDeleteError]
       end.
Proof.
  intros net cardId d a d'. subst a d'. unfold deleteProduct. runD.
  destruct (findCard cardId (cards (app (base d)))) as [card|] eqn:Hfind.
  2:{ runD. repeat split. }
  runD. destruct (reply_deleteCard net (sent (base d)) cardId); runD.
  2:{ repeat split. }
  assert (Hnone := findCard_filter_out cardId (cards (app (base d)))).
  unfold detailRedrawThrows, rerenderStoreDetail.
  destruct (currentView (app (base d))) eqn:Hview; runD;
    cbn [currentView currentStore activeList allProductsList cards set_cards];
    rewrite ?Hview;
    try (repeat split; try assumption; reflexivity).
  destruct (currentStore (app (base d))) eqn:Hstore; runD;
    cbn [currentView currentStore activeList allProductsList cards set_cards];
    rewrite ?Hview, ?Hstore;
    try (repeat split; try assumption; reflexivity).
  destruct (activeList (app (base d))) eqn:Hal; runD;
    cbn [currentView currentStore activeList allProductsList cards set_cards];
    rewrite ?Hview, ?Hstore, ?Hal;
    try (repeat split; try assumption; reflexivity).
  destruct (allProductsList (app (base d))) eqn:Hap; runD;
    cbn [currentView currentStore activeList allProductsList cards set_cards];
    rewrite ?Hview, ?Hstore, ?Hal, ?Hap;
    try (repeat split; try assumption; reflexivity).
  destruct (filter _ (cards (app (base d)))) eqn:Hf; runD;
    cbn [currentView currentStore activeList allProductsList cards set_cards];
    rewrite ?Hview, ?Hstore, ?Hal, ?Hap, ?Hf;
    repeat split; try assumption; try reflexivity.
  now rewrite <- app_assoc.
Qed.

(** X29.  The pickers follow the configured store names.  After
    [addStoreClick] with a name that is not blank the store is configured and
    reported as added, every cached label of that name is in the store
    picker, and a label is requested only when no cached label had the name,
    a failure of that request being no obstacle.  After a confirmed
    [removeStore] nothing has been sent and the labels are as before, so that
    the labels of a name no store has any more are in the location
    picker. *)
Theorem store_settings_pickers :
  forall (net : Remote) (d : Dialogs),
    let a := app (base d) in
    (forall nameValue iconValue,
        trim nameValue <> [] ->
        let d' := snd (addStoreClick net nameValue iconValue d) in
        let a' := app (base d') in
        fst (addStoreClick net nameValue iconValue d) = Returns tt
        /\ map store_name (stores (config a'))
           = map store_name (stores (config a)) ++ [trim nameValue]
        /\ (forall l, In l (labels a') -> label_name l = trim nameValue ->
                      In l (snd (renderLabelPickers a')))
        /\ ((exists l, In l (labels a) /\ label_name l = trim nameValue) ->
            sent (base d') = sent (base d) /\ labels a' = labels a)
        /\ ((forall l, In l (labels a) -> label_name l <> trim nameValue) ->
            sent (base d')
            = sent (base d)
                ++ [ReqCreateLabel (selectedBoardId a) (trim nameValue)
                                   "orange"])
        /\ exists before,
             notices d'
             = notices d ++ before ++ [NoticeStoreAdded (trim nameValue)])
    /\ (forall index store,
          nth_error (stores (config a)) index = Some store ->
          let d' := snd (removeStore index true d) in
          let a' := app (base d') in
          fst (removeStore index true d) = Returns tt
          /\ sent (base d') = sent (base d)
          /\ labels a' = labels a
          /\ stores (config a') = splice1 index (stores (config a))
          /\ (~ In (store_name store)
                   (map store_name (splice1 index (stores (config a)))) ->
              forall l, In l (labels a) ->
                        label_name l = store_name store ->
                        In l (fst (renderLabelPickers a')))).
Proof.
  intros net d a. subst a. split.
  - intros nameValue iconValue Hname d' a'. subst a' d'.
    unfold addStoreClick.
    destruct (trim nameValue) as [|c name] eqn:Htrim; [contradiction|].
    clear Hname. runD.
    assert (Hpick : forall (a' : App) l,
               map store_name (stores (config a'))
               = map store_name (stores (config (app (base d))))
                   ++ [c :: name] ->
               In l (labels a') -> label_name l = c :: name ->
               In l (snd (renderLabelPickers a'))).
    { intros a' l Hstores Hin Hl. unfold renderLabelPickers. cbn [snd].
      apply filter_In. split; [exact Hin|].
      apply includes_name_In. unfold getStoreNames. rewrite Hstores, Hl.
      apply in_or_app. right. now left. }
    destruct (find _ (labels (app (base d)))) as [l0|] eqn:Hfind; runD.
    + apply find_some in Hfind as [Hin0 Hl0]. apply jsstring_eqb_eq in Hl0.
      split; [reflexivity|]. split; [now rewrite map_app|].
      split; [intros l Hl Hn; apply Hpick;
              [cbn [config stores set_config set_stores]; now rewrite map_app
              |exact Hl|exact Hn]|].
      split; [intros _; now split|].
      split; [intros Hnone; elim (Hnone l0 Hin0 Hl0)|].
      exists []. reflexivity.
    + assert (Hnone : forall l, In l (labels (app (base d))) ->
                                label_name l <> c :: name).
      { intros l Hin Hl.
        apply (find_none _ _ Hfind) in Hin.
        rewrite Hl, jsstring_eqb_refl in Hin. discriminate. }
      destruct (reply_createLabel net _ _ _ _) as [label|]; runD.
      * split; [reflexivity|]. split; [now rewrite map_app|].
        split; [intros l Hl Hn; apply Hpick;
                [cbn [config stores set_config set_stores set_labels];
                 now rewrite map_app
                |exact Hl|exact Hn]|].
        split; [intros (l & Hin & Hl); elim (Hnone l Hin Hl)|].
        split; [reflexivity|]. exists []. reflexivity.
      * split; [reflexivity|]. split; [now rewrite map_app|].
        split; [intros l Hl Hn; apply Hpick;
                [cbn [config stores set_config set_stores set_labels];
                 now rewrite map_app
                |exact Hl|exact Hn]|].
        split; [intros (l & Hin & Hl); elim (Hnone l Hin Hl)|].
        split; [reflexivity|]. exists [NoticeLabelNotCreated].
        now rewrite <- app_assoc.
  - intros index store Hnth d' a'. subst a' d'. unfold removeStore. runD.
    rewrite Hnth. runD. repeat split.
    intros Hgone l Hin Hl. unfold renderLabelPickers. cbn [fst].
    apply filter_In. split; [exact Hin|].
    apply negb_true_iff. destruct (includes_name _ _) eqn:E; [|reflexivity].
    apply includes_name_In in E. unfold getStoreNames in E.
    cbn [config stores set_config set_stores] in E. rewrite Hl in E.
    contradiction.
Qed.

Lemma detailStoreNames_seed (n : jsstring) :
  (includes_name detailStoreNames n = true ->
   includes_name (map store_name (stores CONFIG_SEED)) n = true)
  /\ (includes_name (map store_name (stores CONFIG_SEED)) n = true ->
      includes_name detailStoreNames n = false ->
      n = js "Pescader" ++ [0xED]%N ++ js "a")
  /\ (n = js "Pescader" ++ [0xED]%N ++ js "a" ->
      includes_name detailStoreNames n = false
      /\ includes_name (map store_name (stores CONFIG_SEED)) n = true).
Proof.
  split; [|split].
  - rewrite !includes_name_In. cbn [CONFIG_SEED stores map store_name].
    unfold detailStoreNames. cbn [In]. tauto.
  - intros Hseed Hdetail. apply includes_name_In in Hseed.
    assert (Hnot : ~ In n detailStoreNames).
    { intros Hin. apply includes_name_In in Hin. congruence. }
    cbn [CONFIG_SEED stores map store_name In] in Hseed.
    unfold detailStoreNames in Hnot. cbn [In] in Hnot.
    destruct Hseed as [H|[H|[H|[H|[H|[H|[]]]]]]]; try tauto.
    now symmetry.
  - intros ->. split; reflexivity.
Qed.

(** X30.  The product detail tells stores from locations by a list of
    names written into it, not by the configuration.  With the seed
    configuration every cached label of the card is shown, under the stores
    only if the pickers have it as a store; the labels the dialog shows as
    locations and the pickers as stores are those of the one seed store that
    the list lacks. *)
Theorem product_detail_store_names :
  forall (up : Uploader) (cardId : string) (d : Dialogs) (card : Card)
         (name : jsstring) (images : list Attachment)
         (locationLabels storeLabels : list Label) (desc : jsstring),
    let a := app (base d) in
    config a = CONFIG_SEED ->
    findCard cardId (cards a) = Some card ->
    fst (showProductDetail up cardId d)
    = Returns (ProductDetail name images locationLabels storeLabels desc) ->
    forall l,
      In l (labels a) ->
      includes (card_idLabels card) (label_id l) = true ->
      (In l storeLabels \/ In l locationLabels)
      /\ (In l storeLabels -> In l (snd (renderLabelPickers a)))
      /\ (In l locationLabels ->
          In l (snd (renderLabelPickers a)) ->
          label_name l = js "Pescader" ++ [0xED]%N ++ js "a")
      /\ (label_name l = js "Pescader" ++ [0xED]%N ++ js "a" ->
          In l locationLabels /\ In l (snd (renderLabelPickers a))).
Proof.
  intros up cardId d card name images locationLabels storeLabels desc a
         Hseed Hfind.
  subst a. unfold showProductDetail. runD. rewrite Hfind. runD.
  destruct (reply_getCardAttachments up _ _ _) as [atts|]; runD;
    [|discriminate].
  intros [= <- <- <- <- <-] l Hin Hcarried.
  unfold renderLabelPickers, getStoreNames. cbn [snd]. rewrite Hseed.
  repeat rewrite filter_In. rewrite Hcarried. cbn [andb].
  destruct (detailStoreNames_seed (label_name l)) as (F1 & F2 & F3).
  set (fixed := (jsstring_eqb (label_name l) (js "Mercadona") || _)%bool).
  change (includes_name detailStoreNames (label_name l)) with fixed
    in F1, F2, F3.
  clearbody fixed. destruct fixed; cbn [negb].
  - split; [left; now split|].
    split; [intros _; split; [exact Hin|now apply F1]|].
    split; [intros [_ Hf]; discriminate|].
    intros Hp. destruct (F3 Hp) as [Hf _]. discriminate.
  - split; [right; now split|].
    split; [intros [_ Hf]; discriminate|].
    split; [intros _ [_ Hs]; now apply F2|].
    intros Hp. destruct (F3 Hp) as [_ Hs]. repeat split; assumption.
Qed.

Lemma product_detail_store_names_witness :
  let pescaderia :=
    {| label_id := "S5"; label_name := js "Pescader" ++ [0xED]%N ++ js "a";
       label_color := "sky" |} in
  let merluza :=
    {| card_id := "c3"; card_name := js "Merluza"; card_desc := [];
       card_idList := "L1"; card_idLabels := ["S5"]%string |} in
  let a := set_labels [mercadona; pescaderia] (shopApp [merluza] []) in
  fst (showProductDetail uploaderOk "c3" (dialogsOf (world a)))
  = Returns (ProductDetail (js "Merluza") [] [pescaderia] [] [])
  /\ In pescaderia (snd (renderLabelPickers a)).
Proof.
  intros pescaderia merluza a.
  assert (Hrun : fst (showProductDetail uploaderOk "c3" (dialogsOf (world a)))
                 = Returns (ProductDetail (js "Merluza") [] [pescaderia] [] []))
    by reflexivity.
  split; [exact Hrun|].
  assert (Hin : In pescaderia (labels (app (base (dialogsOf (world a))))))
    by (right; now left).
  destruct (product_detail_store_names
              uploaderOk "c3" (dialogsOf (world a)) merluza (js "Merluza") []
              [pescaderia] [] [] eq_refl eq_refl Hrun pescaderia Hin eq_refl)
    as (_ & _ & _ & Hp).
  exact (proj2 (Hp eq_refl)).
Defined.
